(** * VLSI_CAD: gate-level netlist parser, leveler and simulator

    A shallow embedding of [parser.py] and [simulation.py], and the proofs
    of their specified properties.

    - Signal names are [string]s; Python [int]s are [Z]; [Optional[int]]
      is [option Z].
    - Python sets and dicts keyed by signal names are stdpp's [gset string]
      and [gmap string _].
    - [Gate] objects are mutable and shared between [netlist.gates] and the
      work lists of [assign_levels]: the gate list of the netlist is the
      store, and the work lists hold positions in it.  [assign_levels]
      returns the netlist with the levels it has written; when it raises,
      the levels written by the earlier rounds are not reported.
    - Exceptions are values of [exn]; a function that can raise returns a
      [result].
    - The regular expressions of the parser are kept as data ([regex]) and
      run by a backtracking matcher with the priorities of Python's [re].
    - [parse_netlist_file] and [get_user_inputs] (reading a file, prompting
      on the console) are left out. *)

From Stdlib Require Import ZArith Ascii String List Lia.
From stdpp Require Import gmap strings list fin_maps.

Local Open Scope Z_scope.

(** ** Data model (parser.py, lines 7-22) *)

Module Gate.
Record t := mk {
  gtype : string;
  name : option string;
  output : string;
  inputs : list string;
  value_inp : list (option Z);
  value_out : option Z;
  level : option Z
}.

(** [gate.level = level_num] *)
Definition set_level (g : t) (l : Z) : t :=
  mk (gtype g) (name g) (output g) (inputs g) (value_inp g) (value_out g) (Some l).

(** [Gate(gtype, name, output, inputs)]: the remaining fields take their
    dataclass defaults. *)
Definition new (ty : string) (nm : option string) (out : string) (ins : list string) : t :=
  mk ty nm out ins [] None None.
End Gate.

Module Netlist.
Record t := mk {
  inputs : list string;
  outputs : list string;
  wires : list string;
  gates : list Gate.t
}.

Definition set_gates (nl : t) (gs : list Gate.t) : t :=
  mk (inputs nl) (outputs nl) (wires nl) gs.
End Netlist.

(** Exceptions raised by the two modules. *)
Inductive exn :=
| CannotResolve                       (* ValueError, assign_levels *)
| MissingInputSignal (g : option string) (* ValueError, evaluate_gate *)
| UnsupportedGateType (ty : string)   (* NotImplementedError, evaluate_gate *)
| IndexError                          (* inputs[0] on an empty list *)
| EmptyMax                            (* ValueError: max() of no levels *)
| TypeError.                          (* a level that is None used as a number *)

Inductive result (A : Type) :=
| Ok (a : A)
| Raise (e : exn).
Arguments Ok {A} a.
Arguments Raise {A} e.

(** ** Dependency leveler (parser.py, lines 91-107) *)

(** [all(inp in known_signals for inp in gate.inputs)] *)
Definition all_known (known : gset string) (g : Gate.t) : bool :=
  forallb (fun inp => bool_decide (inp ∈ known)) (Gate.inputs g).

(** One iteration of [for gate in remaining_gates]: the gate at position
    [i] of the store gets [level_num] and joins [current_level] when all
    its inputs are known. *)
Definition visit (known : gset string) (level_num : Z)
    (st : list Gate.t * list nat) (i : nat) : list Gate.t * list nat :=
  match st.1 !! i with
  | Some g =>
      if all_known known g
      then (<[i := Gate.set_level g level_num]> st.1, st.2 ++ [i])
      else st
  | None => st
  end.

Definition scan (known : gset string) (level_num : Z)
    (remaining : list nat) (store : list Gate.t) : list Gate.t * list nat :=
  foldl (visit known level_num) (store, []) remaining.

(** [for gate in current_level: known_signals.add(gate.output)] *)
Definition add_outputs (store : list Gate.t) (known : gset string)
    (current_level : list nat) : gset string :=
  foldl (fun k i =>
           match store !! i with
           | Some g => k ∪ {[Gate.output g]}
           | None => k
           end) known current_level.

(** [g.level is None] for the gate at position [i]. *)
Definition unleveled (store : list Gate.t) (i : nat) : bool :=
  match store !! i with
  | Some g => match Gate.level g with None => true | Some _ => false end
  | None => false
  end.

(** The [while remaining_gates] loop.  [fuel] bounds the number of rounds;
    [None] means the bound was reached before the loop ended. *)
Fixpoint level_loop (fuel : nat) (store : list Gate.t) (remaining : list nat)
    (known : gset string) (level_num : Z) : option (result (list Gate.t)) :=
  match remaining with
  | [] => Some (Ok store)
  | _ :: _ =>
      match fuel with
      | O => None
      | S fuel' =>
          let '(store', current_level) := scan known level_num remaining store in
          match current_level with
          | [] => Some (Raise CannotResolve)
          | _ :: _ =>
              let known' := add_outputs store' known current_level in
              let remaining' := filter (λ i, unleveled store' i) remaining in
              level_loop fuel' store' remaining' known' (level_num + 1)
          end
      end
  end.

(** [remaining_gates = list(netlist.gates)]: every position of the store. *)
Definition all_positions (gs : list Gate.t) : list nat := seq 0 (length gs).

Definition assign_levels_fuel (fuel : nat) (nl : Netlist.t)
    : option (result Netlist.t) :=
  match level_loop fuel (Netlist.gates nl) (all_positions (Netlist.gates nl))
          (list_to_set (Netlist.inputs nl)) 1 with
  | Some (Ok gs) => Some (Ok (Netlist.set_gates nl gs))
  | Some (Raise e) => Some (Raise e)
  | None => None
  end.

(** A round removes at least one gate from the work list, so one round per
    gate is enough (see [level_loop_total]). *)
Definition assign_levels (nl : Netlist.t) : option (result Netlist.t) :=
  assign_levels_fuel (length (Netlist.gates nl)) nl.

(** ** Text and regular expressions

    Python strings are sequences of code points.  A text is modelled as a
    list of 8-bit characters read as the code points U+0000-U+00FF; the
    character tables below are those of Python's [str] and [re] (for [str]
    patterns) on that range. *)

Definition code (c : ascii) : N := N_of_ascii c.

Definition between (lo hi : N) (c : ascii) : bool :=
  ((lo <=? code c) && (code c <=? hi))%N.

(** [str.isspace], used by [str.strip] and by [\s]. *)
Definition is_space (c : ascii) : bool :=
  between 9 13 c || between 28 32 c || (code c =? 133)%N || (code c =? 160)%N.

Definition is_upper (c : ascii) : bool := between 65 90 c.   (* [A-Z] *)
Definition is_lower (c : ascii) : bool := between 97 122 c.  (* [a-z] *)
Definition is_digit (c : ascii) : bool := between 48 57 c.   (* [0-9] *)
Definition is_underscore (c : ascii) : bool := (code c =? 95)%N.

(** [[A-Za-z_]] and [[A-Za-z0-9_]] *)
Definition ident_start (c : ascii) : bool :=
  is_upper c || is_lower c || is_underscore c.
Definition ident_char (c : ascii) : bool := ident_start c || is_digit c.

(** [\w] for a [str] pattern: alphanumeric in the Unicode sense, or [_].
    Beyond ASCII the range holds the letters U+00AA, U+00B5, U+00BA,
    U+00C0-U+00D6, U+00D8-U+00F6, U+00F8-U+00FF and the numeric characters
    U+00B2, U+00B3, U+00B9, U+00BC-U+00BE. *)
Definition is_word (c : ascii) : bool :=
  ident_char c
  || (code c =? 170)%N || (code c =? 181)%N || (code c =? 186)%N
  || between 192 214 c || between 216 246 c || between 248 255 c
  || between 178 179 c || (code c =? 185)%N || between 188 190 c.

(** [str.lower] on one character: the upper-case letters of the range are
    [A-Z], U+00C0-U+00D6 and U+00D8-U+00DE, each 32 below its lower case. *)
Definition lower_char (c : ascii) : ascii :=
  if is_upper c || between 192 214 c || between 216 222 c
  then ascii_of_N (code c + 32) else c.

Definition lower (s : list ascii) : list ascii := map lower_char s.

Definition newline : ascii := ascii_of_N 10.

(** The fragment of Python's regular expressions that the parser uses.
    Repetition is only ever applied to a single-character class. *)
Inductive regex :=
| Empty
| Char (p : ascii -> bool)            (* a literal, a class, or [.] *)
| Cat (r1 r2 : regex)
| Or (r1 r2 : regex)                  (* [r1|r2], [r1] tried first *)
| Many (greedy : bool) (p : ascii -> bool) (* [p*] and [p*?] *)
| Group (n : nat) (r : regex)         (* capturing group number [n] *)
| Bos                                 (* [^] *)
| Eos                                 (* [$] *)
| WordBoundary.                       (* [\b] *)

Declare Scope regex_scope.
Delimit Scope regex_scope with re.
Infix "⋅" := Cat (at level 41, right associativity) : regex_scope.

Definition captures := list (nat * list ascii).

(** Backtracking matcher in continuation-passing style.  [prev] is the
    character before the current position ([None] at the start of the
    string), [s] the text from the current position on. *)
Section Matcher.
Context {A : Type}.

Fixpoint many_greedy (p : ascii -> bool)
    (k : option ascii -> list ascii -> option A)
    (prev : option ascii) (s : list ascii) : option A :=
  match s with
  | c :: s' =>
      if p c then
        match many_greedy p k (Some c) s' with
        | Some a => Some a
        | None => k prev s
        end
      else k prev s
  | [] => k prev s
  end.

Fixpoint many_lazy (p : ascii -> bool)
    (k : option ascii -> list ascii -> option A)
    (prev : option ascii) (s : list ascii) : option A :=
  match k prev s with
  | Some a => Some a
  | None =>
      match s with
      | c :: s' => if p c then many_lazy p k (Some c) s' else None
      | [] => None
      end
  end.

Definition is_word_opt (c : option ascii) : bool :=
  match c with Some c => is_word c | None => false end.

Fixpoint rmatch (r : regex)
    (k : captures -> option ascii -> list ascii -> option A)
    (caps : captures) (prev : option ascii) (s : list ascii) : option A :=
  match r with
  | Empty => k caps prev s
  | Char p =>
      match s with
      | c :: s' => if p c then k caps (Some c) s' else None
      | [] => None
      end
  | Cat r1 r2 => rmatch r1 (fun caps' => rmatch r2 k caps') caps prev s
  | Or r1 r2 =>
      match rmatch r1 k caps prev s with
      | Some a => Some a
      | None => rmatch r2 k caps prev s
      end
  | Many true p => many_greedy p (k caps) prev s
  | Many false p => many_lazy p (k caps) prev s
  | Group n r =>
      rmatch r
        (fun caps' prev' s' =>
           k ((n, take (length s - length s') s) :: caps') prev' s')
        caps prev s
  | Bos => match prev with None => k caps prev s | Some _ => None end
  | Eos =>
      match s with
      | [] => k caps prev s
      | [c] => if Ascii.eqb c newline then k caps prev s else None
      | _ => None
      end
  | WordBoundary =>
      if xorb (is_word_opt prev) (is_word_opt (head s))
      then k caps prev s else None
  end.
End Matcher.

(** [m.group(n)] *)
Fixpoint group (n : nat) (caps : captures) : list ascii :=
  match caps with
  | [] => []
  | (m, s) :: caps' => if Nat.eqb m n then s else group n caps'
  end.

(** [re.match(r, s)]: the groups of a match at the start of [s]. *)
Definition re_match (r : regex) (s : list ascii) : option captures :=
  rmatch r (fun caps _ _ => Some caps) [] None s.

(** Length of the match of [r] at the current position, if any. *)
Definition match_length (r : regex) (prev : option ascii) (s : list ascii)
    : option nat :=
  rmatch r (fun _ _ s' => Some (length s - length s')%nat) [] prev s.

(** [re.sub(r, '', s)] for a pattern that never matches the empty string:
    scan from the left; where [r] matches, drop the matched characters and
    resume after them.  [skip] counts matched characters still to drop. *)
Fixpoint sub_scan (r : regex) (prev : option ascii) (skip : nat)
    (s : list ascii) : list ascii :=
  match s with
  | [] => []
  | c :: s' =>
      match skip with
      | S n => sub_scan r (Some c) n s'
      | O =>
          match match_length r prev s with
          | Some (S n) => sub_scan r (Some c) n s'
          | _ => c :: sub_scan r (Some c) 0 s'
          end
      end
  end.

Definition re_sub_empty (r : regex) (s : list ascii) : list ascii :=
  sub_scan r None 0 s.

(** [re.findall(r, s)] for a pattern without groups that never matches the
    empty string: the matched substrings, left to right. *)
Fixpoint findall_scan (r : regex) (prev : option ascii) (skip : nat)
    (s : list ascii) : list (list ascii) :=
  match s with
  | [] => []
  | c :: s' =>
      match skip with
      | S n => findall_scan r (Some c) n s'
      | O =>
          match match_length r prev s with
          | Some (S n) => take (S n) s :: findall_scan r (Some c) n s'
          | _ => findall_scan r (Some c) 0 s'
          end
      end
  end.

Definition re_findall (r : regex) (s : list ascii) : list (list ascii) :=
  findall_scan r None 0 s.

(** Pattern building blocks.  The patterns of the source are quoted with
    their tokens spaced out. *)
Definition lit (c : ascii) : regex := Char (Ascii.eqb c).
(** a literal under [re.I] *)
Definition lit_i (c : ascii) : regex :=
  Char (fun x => Ascii.eqb (lower_char x) (lower_char c)).
Definition lits (mk : ascii -> regex) (s : string) : regex :=
  foldr (fun c r => Cat (mk c) r) Empty (list_ascii_of_string s).
(** [.] without and with [re.S] *)
Definition dot (c : ascii) : bool := negb (Ascii.eqb c newline).
Definition dot_all (c : ascii) : bool := true.
(** [p+] *)
Definition some_of (p : ascii -> bool) : regex := Cat (Char p) (Many true p).

Local Open Scope regex_scope.

(** [//.*] *)
Definition re_line_comment : regex := lits lit "//" ⋅ Many true dot.
(** [/\*.*?\*/] with [re.S] *)
Definition re_block_comment : regex :=
  lits lit "/*" ⋅ Many false dot_all ⋅ lits lit "*/".
(** [[A-Za-z_][A-Za-z0-9_]*] *)
Definition re_identifier : regex := Char ident_start ⋅ Many true ident_char.
(** [^ (input|output|wire) \b ( .* ) $] with [re.I] *)
Definition re_declaration : regex :=
  Bos ⋅ Group 1 (Or (lits lit_i "input") (Or (lits lit_i "output") (lits lit_i "wire")))
      ⋅ WordBoundary ⋅ Group 2 (Many true dot) ⋅ Eos.
(** [^ ( [A-Za-z_][A-Za-z0-9_]* ) \s+ ( [A-Za-z0-9_]+ ) \s* \( ( .* ) \) $] with [re.S] *)
Definition re_named_gate : regex :=
  Bos ⋅ Group 1 re_identifier ⋅ some_of is_space ⋅ Group 2 (some_of ident_char)
      ⋅ Many true is_space ⋅ lits lit "(" ⋅ Group 3 (Many true dot_all)
      ⋅ lits lit ")" ⋅ Eos.
(** [^ ( [A-Za-z_][A-Za-z0-9_]* ) \s* \( ( .* ) \) $] with [re.S] *)
Definition re_anonymous_gate : regex :=
  Bos ⋅ Group 1 re_identifier ⋅ Many true is_space ⋅ lits lit "("
      ⋅ Group 2 (Many true dot_all) ⋅ lits lit ")" ⋅ Eos.

Local Close Scope regex_scope.

(** ** String helpers *)

(** [s.split(sep)] for a one-character separator. *)
Fixpoint split (sep : ascii) (s : list ascii) : list (list ascii) :=
  match s with
  | [] => [[]]
  | c :: s' =>
      if Ascii.eqb c sep then [] :: split sep s'
      else match split sep s' with
           | piece :: pieces => (c :: piece) :: pieces
           | [] => [[c]]
           end
  end.

Fixpoint lstrip (s : list ascii) : list ascii :=
  match s with
  | c :: s' => if is_space c then lstrip s' else s
  | [] => []
  end.

(** [s.strip()] *)
Definition strip (s : list ascii) : list ascii :=
  rev (lstrip (rev (lstrip s))).

(** [s.startswith(p)] *)
Fixpoint startswith (p s : list ascii) : bool :=
  match p, s with
  | [], _ => true
  | a :: p', b :: s' => Ascii.eqb a b && startswith p' s'
  | _ :: _, [] => false
  end.

Definition is_empty (s : list ascii) : bool :=
  match s with [] => true | _ :: _ => false end.

(** ** Parser (parser.py, lines 24-76) *)

Definition remove_comments (text : list ascii) : list ascii :=
  re_sub_empty re_block_comment (re_sub_empty re_line_comment text).

Definition find_identifiers (s : list ascii) : list string :=
  map string_of_list_ascii (re_findall re_identifier s).

Definition unique_preserve (seq : list string) : list string :=
  (foldl (fun st x =>
            if bool_decide (x ∈ st.1) then st
            else ({[x]} ∪ st.1, st.2 ++ [x]))
         ((∅ : gset string), []) seq).2.

(** [statements = [stmt.strip() for stmt in text.split(';') if stmt.strip()]] *)
Definition statements (text : list ascii) : list (list ascii) :=
  map strip
    (List.filter (fun stmt => negb (is_empty (strip stmt)))
       (split ";"%char text)).

(** The four lists built by the statement loop. *)
Record lists := mk_lists {
  l_inputs : list string;
  l_outputs : list string;
  l_wires : list string;
  l_gates : list Gate.t
}.

(** [if ids: gates.append(Gate(gtype, name, ids[0], ids[1:]))] *)
Definition append_gate (st : lists) (ty : list ascii) (nm : option string)
    (ids : list string) : lists :=
  match ids with
  | out :: ins =>
      mk_lists (l_inputs st) (l_outputs st) (l_wires st)
        (l_gates st ++ [Gate.new (string_of_list_ascii ty) nm out ins])
  | [] => st
  end.

(** Body of [for stmt in statements]. *)
Definition parse_statement (st : lists) (stmt : list ascii) : lists :=
  if startswith (list_ascii_of_string "module") stmt
     || startswith (list_ascii_of_string "endmodule") stmt then st
  else
    match re_match re_declaration stmt with
    | Some m =>
        let kind := string_of_list_ascii (lower (group 1 m)) in
        let ids := find_identifiers (group 2 m) in
        if String.eqb kind "input" then
          mk_lists (l_inputs st ++ ids) (l_outputs st) (l_wires st) (l_gates st)
        else if String.eqb kind "output" then
          mk_lists (l_inputs st) (l_outputs st ++ ids) (l_wires st) (l_gates st)
        else if String.eqb kind "wire" then
          mk_lists (l_inputs st) (l_outputs st) (l_wires st ++ ids) (l_gates st)
        else st
    | None =>
        match re_match re_named_gate stmt with
        | Some mg =>
            append_gate st (lower (group 1 mg))
              (Some (string_of_list_ascii (group 2 mg)))
              (find_identifiers (group 3 mg))
        | None =>
            match re_match re_anonymous_gate stmt with
            | Some mg2 =>
                append_gate st (lower (group 1 mg2)) None
                  (find_identifiers (group 2 mg2))
            | None => st
            end
        end
    end.

Definition parse_statements (stmts : list (list ascii)) : lists :=
  foldl parse_statement (mk_lists [] [] [] []) stmts.

Definition parse_netlist_text (text : string) : Netlist.t :=
  let st := parse_statements (statements (remove_comments (list_ascii_of_string text))) in
  Netlist.mk (unique_preserve (l_inputs st)) (unique_preserve (l_outputs st))
    (unique_preserve (l_wires st)) (l_gates st).

(** The example of the [__main__] blocks. *)
Definition nl : string := String newline EmptyString.
Definition c17_example : string :=
  nl +:+ "module c17 (N1, N2, N3, N6, N7, N22, N23);" +:+ nl
  +:+ "input N1, N2, N3, N6, N7;" +:+ nl
  +:+ "output N22, N23;" +:+ nl
  +:+ "wire N10, N11, N16, N19;" +:+ nl +:+ nl
  +:+ "nand NAND2_1 (N10, N1, N3);" +:+ nl
  +:+ "nand NAND2_2 (N11, N3, N6);" +:+ nl
  +:+ "nand NAND2_3 (N16, N2, N11);" +:+ nl
  +:+ "nand NAND2_4 (N19, N11, N7);" +:+ nl
  +:+ "nand NAND2_5 (N22, N10, N16);" +:+ nl
  +:+ "nand NAND2_6 (N23, N16, N19);" +:+ nl
  +:+ "endmodule" +:+ nl.

(** ** Fan-out graph (parser.py, lines 82-89) *)

(** [{gate.output: gate.name for gate in netlist.gates}]: a later gate
    with the same output replaces the earlier one. *)
Definition wire_to_gate (gs : list Gate.t) : gmap string (option string) :=
  foldl (fun m gate => <[Gate.output gate := Gate.name gate]> m) ∅ gs.

(** [if inp in wire_to_gate: graph[wire_to_gate[inp]].append(gate.name)];
    [graph] is a [defaultdict(list)], a missing key reads as the empty
    list. *)
Definition add_edge (w2g : gmap string (option string)) (gate : Gate.t)
    (graph : gmap (option string) (list (option string))) (inp : string)
    : gmap (option string) (list (option string)) :=
  match w2g !! inp with
  | Some driver =>
      <[driver := default [] (graph !! driver) ++ [Gate.name gate]]> graph
  | None => graph
  end.

Definition build_graph (netlist : Netlist.t)
    : gmap (option string) (list (option string)) :=
  let w2g := wire_to_gate (Netlist.gates netlist) in
  foldl (fun graph gate => foldl (add_edge w2g gate) graph (Gate.inputs gate))
        ∅ (Netlist.gates netlist).

(** ** Gate evaluator and simulator (simulation.py, lines 4-53) *)

(** Sequencing of computations that can raise, with stdpp's notation
    [x ← r; k]. *)
#[global] Instance result_bind : MBind result :=
  fun A B (f : A -> result B) (r : result A) =>
    match r with
    | Ok a => f a
    | Raise e => Raise e
    end.

(** The values of a list none of which is [None]. *)
Fixpoint resolved (vs : list (option Z)) : option (list Z) :=
  match vs with
  | [] => Some []
  | Some v :: vs' => option_map (cons v) (resolved vs')
  | None :: _ => None
  end.

(** Truth value of an [int]. *)
Definition truthy (v : Z) : bool := negb (v =? 0).

(** [sum(inputs)] *)
Definition sum (vs : list Z) : Z := foldl Z.add 0 vs.

Definition evaluate_gate (gate : Gate.t) (signal_values : gmap string Z)
    : result Z :=
  let inputs := map (fun inp => signal_values !! inp) (Gate.inputs gate) in
  match resolved inputs with
  | None => Raise (MissingInputSignal (Gate.name gate))
  | Some inputs =>
      if String.eqb (Gate.gtype gate) "nand" then
        Ok (if forallb truthy inputs then 0 else 1)
      else if String.eqb (Gate.gtype gate) "and" then
        Ok (if forallb truthy inputs then 1 else 0)
      else if String.eqb (Gate.gtype gate) "or" then
        Ok (if existsb truthy inputs then 1 else 0)
      else if String.eqb (Gate.gtype gate) "nor" then
        Ok (if existsb truthy inputs then 0 else 1)
      else if String.eqb (Gate.gtype gate) "xor" then
        Ok (sum inputs mod 2)
      else if String.eqb (Gate.gtype gate) "not" then
        match inputs with
        | v :: _ => Ok (if truthy v then 0 else 1)
        | [] => Raise IndexError
        end
      else Raise (UnsupportedGateType (Gate.gtype gate))
  end.

(** [gates_by_level.setdefault(gate.level, []).append(gate)] for every gate *)
Definition gates_by_level (gs : list Gate.t) : gmap (option Z) (list Gate.t) :=
  foldl (fun m gate =>
           <[Gate.level gate := default [] (m !! Gate.level gate) ++ [gate]]> m)
        ∅ gs.

(** [max(keys)]: no key is an error, and so is comparing [None] with
    another key; a single key is returned as it is. *)
Definition max_key (keys : list (option Z)) : result (option Z) :=
  match keys with
  | [] => Raise EmptyMax
  | [k] => Ok k
  | _ =>
      match resolved keys with
      | Some (z :: zs) => Ok (Some (foldl Z.max z zs))
      | _ => Raise TypeError
      end
  end.

(** Body of the inner loop: evaluate the gate, record its output. *)
Definition run_gate (signal_values : result (gmap string Z)) (gate : Gate.t)
    : result (gmap string Z) :=
  sv ← signal_values;
  output_val ← evaluate_gate gate sv;
  Ok (<[Gate.output gate := output_val]> sv).

(** [for gate in gates_by_level.get(lvl, [])] *)
Definition run_level (by_level : gmap (option Z) (list Gate.t))
    (signal_values : result (gmap string Z)) (lvl : Z)
    : result (gmap string Z) :=
  foldl run_gate signal_values (default [] (by_level !! Some lvl)).

(** [{out: signal_values.get(out, None) for out in netlist.outputs}] *)
Definition read_outputs (signal_values : gmap string Z) (outs : list string)
    : gmap string (option Z) :=
  foldl (fun d out => <[out := signal_values !! out]> d) ∅ outs.

Definition simulate (netlist : Netlist.t) (input_values : gmap string Z)
    : result (gmap string (option Z)) :=
  let by_level := gates_by_level (Netlist.gates netlist) in
  max_level ← max_key (map fst (map_to_list by_level));
  match max_level with
  | None => Raise TypeError          (* [max_level + 1] *)
  | Some max_level =>
      sv ← foldl (run_level by_level) (Ok input_values) (seqZ 1 max_level);
      Ok (read_outputs sv (Netlist.outputs netlist))
  end.

Definition c17 : Netlist.t :=
  Netlist.mk ["N1"; "N2"; "N3"; "N6"; "N7"]%string ["N22"; "N23"]%string
    ["N10"; "N11"; "N16"; "N19"]%string
    [ Gate.new "nand" (Some "NAND2_1") "N10" ["N1"; "N3"];
      Gate.new "nand" (Some "NAND2_2") "N11" ["N3"; "N6"];
      Gate.new "nand" (Some "NAND2_3") "N16" ["N2"; "N11"];
      Gate.new "nand" (Some "NAND2_4") "N19" ["N11"; "N7"];
      Gate.new "nand" (Some "NAND2_5") "N22" ["N10"; "N16"];
      Gate.new "nand" (Some "NAND2_6") "N23" ["N16"; "N19"] ]%string.

(** [c17] after leveling. *)
Definition leveled (ty nm out : string) (ins : list string) (l : Z) : Gate.t :=
  Gate.mk ty (Some nm) out ins [] None (Some l).

Definition c17_leveled : Netlist.t :=
  Netlist.mk ["N1"; "N2"; "N3"; "N6"; "N7"]%string ["N22"; "N23"]%string
    ["N10"; "N11"; "N16"; "N19"]%string
    [ leveled "nand" "NAND2_1" "N10" ["N1"; "N3"] 1;
      leveled "nand" "NAND2_2" "N11" ["N3"; "N6"] 1;
      leveled "nand" "NAND2_3" "N16" ["N2"; "N11"] 2;
      leveled "nand" "NAND2_4" "N19" ["N11"; "N7"] 2;
      leveled "nand" "NAND2_5" "N22" ["N10"; "N16"] 3;
      leveled "nand" "NAND2_6" "N23" ["N16"; "N19"] 3 ]%string.

(** The assignment N1=1, N2=0, N3=1, N6=0, N7=0. *)
Definition c17_values : gmap string Z :=
  list_to_map [("N1", 1); ("N2", 0); ("N3", 1); ("N6", 0); ("N7", 0)]%string.

(** Two gates that drive the same signal [x]. *)
Definition two_drivers_text : string :=
  "input a, b; output x; and G1 (x, a, b); or G2 (x, a, b);".

Definition two_drivers : Netlist.t :=
  Netlist.mk ["a"; "b"]%string ["x"]%string []
    [ Gate.new "and" (Some "G1") "x" ["a"; "b"];
      Gate.new "or" (Some "G2") "x" ["a"; "b"] ]%string.

(** A second driver of [x] that closes a loop through [y]. *)
Definition feedback_text : string :=
  "input a; not G1 (x, a); not G2 (y, x); not G3 (x, y);".

Definition feedback_leveled : Netlist.t :=
  Netlist.mk ["a"]%string [] []
    [ leveled "not" "G1" "x" ["a"] 1;
      leveled "not" "G2" "y" ["x"] 2;
      leveled "not" "G3" "x" ["y"] 3 ]%string.

(** A gate that drives the primary input it reads. *)
Definition self_loop_text : string := "input a; and G (a, a);".

Definition self_loop_gate : Gate.t := Gate.new "and" (Some "G") "a" ["a"]%string.

Definition self_loop_leveled : Netlist.t :=
  Netlist.mk ["a"]%string [] [] [ leveled "and" "G" "a" ["a"]%string 1 ].

(** A loop between two gates of a well-formed netlist. *)
Definition ring_text : string :=
  "input a; output y; nand G1 (y, a, x); not G2 (x, y);".

Definition ring : Netlist.t :=
  Netlist.mk ["a"]%string ["y"]%string []
    [ Gate.new "nand" (Some "G1") "y" ["a"; "x"];
      Gate.new "not" (Some "G2") "x" ["y"] ]%string.


Definition inverter_leveled : Netlist.t :=
  Netlist.mk ["a"; "b"]%string ["y"; "z"]%string []
    [ leveled "not" "G1" "y" ["a"]%string 1 ].

(** A statement with an empty port list between two others. *)
Definition empty_ports_text : string := "input a; nand G1 (); not G2 (y, a);".

(** A three-input [xor] and a two-input [not]. *)
Definition xor3 : Gate.t := Gate.new "xor" None "p" ["a"; "b"; "c"]%string.
Definition not2 : Gate.t := Gate.new "not" None "q" ["a"; "b"]%string.
Definition abc_values : gmap string Z :=
  list_to_map [("a", 1); ("b", 1); ("c", 1)]%string.
Definition ab_values : gmap string Z := list_to_map [("a", 0); ("b", 1)]%string.

(** A gate that reads a signal [w] that nothing declares or drives. *)
Definition dangling_text : string := "input a; output y; and G1 (y, a, w);".

(** A three-input [xor] with its inputs in another order. *)
Definition xor3_rotated : Gate.t := Gate.new "xor" None "p" ["c"; "a"; "b"]%string.

(** The first gate of [c17]. *)
Definition nand_N10 : Gate.t :=
  Gate.new "nand" (Some "NAND2_1") "N10" ["N1"; "N3"]%string.

(** The values of all signals of [c17] under [c17_values]. *)
Definition c17_final_values : gmap string Z :=
  list_to_map
    [("N1", 1); ("N2", 0); ("N3", 1); ("N6", 0); ("N7", 0); ("N10", 0);
     ("N11", 1); ("N16", 1); ("N19", 1); ("N22", 1); ("N23", 0)]%string.

(** A netlist without gates. *)
Definition no_gates : Netlist.t := Netlist.mk ["a"]%string ["a"]%string [] [].

(** The results of simulating [c17] under [c17_values]. *)
Definition c17_outputs : gmap string (option Z) :=
  <["N22"%string := Some 1]> {["N23"%string := Some 0]}.

(** No names and no gates: the lists before the first statement. *)
Definition no_lists : lists := mk_lists [] [] [] [].

(** A declaration that is continued on a second line. *)
Definition broken_declaration : list ascii :=
  list_ascii_of_string "input a," ++ newline :: list_ascii_of_string " b".





(** A gate that waits for a signal [w] that nothing drives, behind a gate
    that can be leveled. *)
Definition waiting_text : string :=
  "input a; output y; not G1 (x, a); and G2 (y, x, w);".


(** * Vocabulary of the properties *)

(** [all(...)] of the gate at a position of the store. *)
Definition ready (known : gset string) (store : list Gate.t) (i : nat) : bool :=
  match store !! i with
  | Some g => all_known known g
  | None => false
  end.

(** What a round does to the gate at position [j]. *)
Definition relevel (lv : Z) (cur : list nat) (j : nat) (g : Gate.t) : Gate.t :=
  if bool_decide (j ∈ cur) then Gate.set_level g lv else g.


(** [d] drives [g]: the output of [d] feeds an input of [g]. *)
Definition drives (d g : Gate.t) : Prop := Gate.output d ∈ Gate.inputs g.

#[global] Instance drives_dec d g : Decision (drives d g).
Proof. unfold drives. apply _. Defined.

(** The gates of [gs] that drive [g], and their levels. *)
Definition drivers (gs : list Gate.t) (g : Gate.t) : list Gate.t :=
  filter (λ d, drives d g) gs.
Definition driver_levels (gs : list Gate.t) (g : Gate.t) : list Z :=
  omap Gate.level (drivers gs g).

(** Largest element of a list of levels (levels are positive). *)
Definition max_level_of (ls : list Z) : Z := foldr Z.max 0 ls.

(** A netlist as the parser builds it: no gate has a level yet. *)
Definition fresh (nl : Netlist.t) : Prop :=
  Forall (λ g, Gate.level g = None) (Netlist.gates nl).

(** Every signal has at most one driver. *)
Definition single_driver (nl : Netlist.t) : Prop :=
  NoDup (Gate.output <$> Netlist.gates nl).

(** No gate drives a declared primary input. *)
Definition inputs_undriven (nl : Netlist.t) : Prop :=
  Forall (λ g, Gate.output g ∉ Netlist.inputs nl) (Netlist.gates nl).

(** The contract of the leveler for one gate [g] of a leveled netlist. *)
Definition level_contract (nl : Netlist.t) (g : Gate.t) : Prop :=
  ∃ l, Gate.level g = Some l ∧ 1 ≤ l
    ∧ (∀ d, d ∈ Netlist.gates nl → drives d g →
         ∃ ld, Gate.level d = Some ld ∧ ld < l)
    ∧ (drivers (Netlist.gates nl) g ≠ [] →
         l = 1 + max_level_of (driver_levels (Netlist.gates nl) g))
    ∧ ((∀ x, x ∈ Gate.inputs g → x ∈ Netlist.inputs nl) → l = 1).

(** What the leveler reads of a gate: its output and its inputs. *)
Definition wiring (g : Gate.t) : string * list string :=
  (Gate.output g, Gate.inputs g).

(** [g] depends on [d], directly or through other gates of the netlist. *)
Definition depends_on (nl : Netlist.t) : relation Gate.t :=
  tc (λ g d, g ∈ Netlist.gates nl ∧ d ∈ Netlist.gates nl ∧ drives d g).

(** State of the leveling loop at the head of a round, for a netlist whose
    primary inputs are [ins]. *)
Record level_inv (ins : list string) (store : list Gate.t) (rem : list nat)
    (known : gset string) (lv : Z) : Prop := {
  inv_rem : ∀ j, j ∈ rem ↔ unleveled store j;
  inv_known : ∀ x, x ∈ known ↔
      x ∈ ins ∨ ∃ d l, d ∈ store ∧ Gate.output d = x ∧ Gate.level d = Some l;
  inv_lv : 1 ≤ lv;
  inv_range : ∀ g l, g ∈ store → Gate.level g = Some l → 1 ≤ l < lv;
  inv_below : ∀ g l x, g ∈ store → Gate.level g = Some l → x ∈ Gate.inputs g →
      x ∈ ins ∨ ∃ d ld, d ∈ store ∧ Gate.output d = x
                        ∧ Gate.level d = Some ld ∧ ld < l;
  inv_pred : ∀ g l, g ∈ store → Gate.level g = Some l → 1 < l →
      ∃ x d, x ∈ Gate.inputs g ∧ (x ∉ ins) ∧ d ∈ store
             ∧ Gate.output d = x ∧ Gate.level d = Some (l - 1);
  inv_wait : ∀ g, g ∈ store → Gate.level g = None → 1 < lv →
      ∃ x, x ∈ Gate.inputs g ∧ (x ∉ ins)
           ∧ ∀ d l, d ∈ store → Gate.output d = x → Gate.level d = Some l →
                    l = lv - 1
}.

(** Parity of a list of 0/1 values: 1 when the number of ones is odd. *)
Definition parity (vs : list Z) : Z :=
  if Nat.odd (length (filter (λ v, v = 1) vs)) then 1 else 0.

(** [vs] are the values that [signal_values] gives to the inputs of a gate. *)
Definition input_values_of (signal_values : gmap string Z) (gate : Gate.t)
    (vs : list Z) : Prop :=
  Forall2 (λ inp v, signal_values !! inp = Some v) (Gate.inputs gate) vs.

Definition bit (v : Z) : Prop := v = 0 ∨ v = 1.

(** Errors that come out of [evaluate_gate]. *)
Definition evaluation_error (e : exn) : Prop :=
  match e with
  | MissingInputSignal _ | UnsupportedGateType _ | IndexError => True
  | _ => False
  end.

(** The signals that can have a value during a simulation. *)
Definition reachable_names (nl : Netlist.t) (iv : gmap string Z) : gset string :=
  dom iv ∪ list_to_set (Gate.output <$> Netlist.gates nl).

(** The statements of a text, as the parser splits it. *)
Definition statements_of (text : string) : list (list ascii) :=
  statements (remove_comments (list_ascii_of_string text)).

(** The gates that one statement adds to the gate sequence. *)
Definition gates_of_statement (stmt : list ascii) : list Gate.t :=
  l_gates (parse_statement (mk_lists [] [] [] []) stmt).

(** The gate sequence built from a list of statements. *)
Definition gates_of_statements (stmts : list (list ascii)) : list Gate.t :=
  l_gates (parse_statements stmts).

(** The port list of a statement that has the shape of a gate
    instantiation: the text between the parentheses that the named pattern,
    or else the anonymous pattern, captures. *)
Definition port_list (stmt : list ascii) : option (list ascii) :=
  match re_match re_named_gate stmt with
  | Some mg => Some (group 3 mg)
  | None =>
      match re_match re_anonymous_gate stmt with
      | Some mg2 => Some (group 2 mg2)
      | None => None
      end
  end.

#[global] Instance gate_eq_dec : EqDecision Gate.t.
Proof. solve_decision. Defined.

#[global] Instance netlist_eq_dec : EqDecision Netlist.t.
Proof. solve_decision. Defined.

(** Gates that [evaluate_gate] can evaluate once their inputs have values:
    one of the five variadic types, or a [not] with at least one input. *)
Definition supported (g : Gate.t) : Prop :=
  Gate.gtype g ∈ ["nand"; "and"; "or"; "nor"; "xor"]%string
  ∨ (Gate.gtype g = "not"%string ∧ Gate.inputs g ≠ []).

(** After the levels up to [k], the simulation knows the inputs and the
    outputs of the gates of these levels. *)
Definition knows_up_to (nl : Netlist.t) (iv : gmap string Z) (k : Z)
    (sv : gmap string Z) : Prop :=
  dom iv ⊆ dom sv
  ∧ ∀ d ld, d ∈ Netlist.gates nl → Gate.level d = Some ld → ld ≤ k →
            Gate.output d ∈ dom sv.

(** A simulation state that gives values to reachable names only. *)
Definition names_ok (nl : Netlist.t) (iv sv : gmap string Z) : Prop :=
  dom sv ⊆ reachable_names nl iv.

(** The distinct elements of a list in the order of their first
    occurrence. *)
Fixpoint first_occurrences (l : list string) : list string :=
  match l with
  | [] => []
  | x :: l' => x :: filter (λ y, y ≠ x) (first_occurrences l')
  end.

(** An identifier: a letter or an underscore, then letters, digits and
    underscores. *)
Definition identifier (s : list ascii) : Prop :=
  match s with
  | c :: cs => ident_start c = true ∧ Forall (λ c, ident_char c = true) cs
  | [] => False
  end.

(** A text that cannot continue an identifier: empty, or starting with a
    character that is no letter, digit or underscore. *)
Definition ends_identifier (s : list ascii) : Prop :=
  match s with
  | c :: _ => ident_char c = false
  | [] => True
  end.

(** Number of leading characters of a text that satisfy [p]. *)
Fixpoint span_length (p : ascii -> bool) (s : list ascii) : nat :=
  match s with
  | c :: s' => if p c then S (span_length p s') else O
  | [] => O
  end.

Definition slash : ascii := "/"%char.
Definition semicolon : ascii := ";"%char.

(** The last gate of the netlist that drives the signal [x]. *)
Definition last_driver (gs : list Gate.t) (x : string) : option Gate.t :=
  last (filter (λ g, Gate.output g = x) gs).

(** [g] with its level replaced by [l]. *)
Definition with_level (g : Gate.t) (l : option Z) : Gate.t :=
  Gate.mk (Gate.gtype g) (Gate.name g) (Gate.output g) (Gate.inputs g)
    (Gate.value_inp g) (Gate.value_out g) l.

(** A signal that a gate reads and that is neither a primary input nor
    the output of a gate. *)
Definition missing_signal (nl : Netlist.t) (x : string) : Prop :=
  (∃ g, g ∈ Netlist.gates nl ∧ x ∈ Gate.inputs g)
  ∧ x ∉ Netlist.inputs nl
  ∧ ∀ d, d ∈ Netlist.gates nl → Gate.output d ≠ x.

(** [g] with its type replaced by [ty]. *)
Definition with_type (g : Gate.t) (ty : string) : Gate.t :=
  Gate.mk ty (Gate.name g) (Gate.output g) (Gate.inputs g)
    (Gate.value_inp g) (Gate.value_out g) (Gate.level g).

(** Every input of [g] has a value in [sv]. *)
Definition inputs_valued (sv : gmap string Z) (g : Gate.t) : Prop :=
  ∀ x, x ∈ Gate.inputs g → x ∈ dom sv.

(** The six gate types of [evaluate_gate]. *)
Definition known_types : list string :=
  ["nand"; "and"; "or"; "nor"; "xor"; "not"]%string.

(** The signal values at the end of the loops of [simulate], before the
    outputs are read off (the local variable [signal_values]). *)
Definition final_values (netlist : Netlist.t) (input_values : gmap string Z)
    : result (gmap string Z) :=
  let by_level := gates_by_level (Netlist.gates netlist) in
  max_key (map fst (map_to_list by_level)) ≫= λ max_level,
  match max_level with
  | None => Raise TypeError
  | Some max_level =>
      foldl (run_level by_level) (Ok input_values) (seqZ 1 max_level)
  end.

(** The names that matter to a simulation: the declared outputs and the
    inputs of the gates. *)
Definition observed (nl : Netlist.t) (x : string) : Prop :=
  x ∈ Netlist.outputs nl ∨ ∃ g, g ∈ Netlist.gates nl ∧ x ∈ Gate.inputs g.

(** The gates in [done] have been evaluated: each one's output holds the
    value of the gate on the present state, and the other names hold their
    initial values. *)
Definition evaluated (iv : gmap string Z) (done : Gate.t → Prop)
    (sv : gmap string Z) : Prop :=
  (∀ g, done g → ∃ v, evaluate_gate g sv = Ok v ∧ sv !! Gate.output g = Some v)
  ∧ (∀ x, (∀ g, done g → Gate.output g ≠ x) → sv !! x = iv !! x).

(** The gates of the levels 1 to [k - 1]. *)
Definition below_level (nl : Netlist.t) (k : Z) (g : Gate.t) : Prop :=
  g ∈ Netlist.gates nl ∧ ∃ l, Gate.level g = Some l ∧ 1 ≤ l < k.

(** Two states that give the same values to the observed names. *)
Definition agree (nl : Netlist.t) (sv sv' : gmap string Z) : Prop :=
  ∀ x, observed nl x → sv !! x = sv' !! x.

(** The name [x] holds a 0/1 value in the state [sv]. *)
Definition holds_bit (sv : gmap string Z) (x : string) : Prop :=
  ∃ v, sv !! x = Some v ∧ bit v.

(** The last character of [cs], or [prev] when [cs] is empty: the
    character before the position that follows [cs]. *)
Definition last_or (prev : option ascii) (cs : list ascii) : option ascii :=
  match last cs with Some c => Some c | None => prev end.

(** The three declaration keywords, in lower case. *)
Definition kw_input : list ascii := list_ascii_of_string "input".
Definition kw_output : list ascii := list_ascii_of_string "output".
Definition kw_wire : list ascii := list_ascii_of_string "wire".
Definition keywords : list (list ascii) := [kw_input; kw_output; kw_wire].

(** A text before which a word ends: empty, or starting with a character
    that [\w] does not match. *)
Definition ends_word (s : list ascii) : Prop :=
  match s with
  | c :: _ => is_word c = false
  | [] => True
  end.

(** White space only. *)
Definition blank (s : list ascii) : Prop := Forall (λ c, is_space c = true) s.

(** Letters, digits and underscores only, at least one. *)
Definition word (s : list ascii) : Prop :=
  s ≠ [] ∧ Forall (λ c, ident_char c = true) s.

(** A type that the statement loop does not treat on its own: it does not
    start with [module] or [endmodule] and is no declaration keyword,
    whatever its case. *)
Definition gate_type (ty : list ascii) : Prop :=
  identifier ty
  ∧ startswith (list_ascii_of_string "module") ty = false
  ∧ startswith (list_ascii_of_string "endmodule") ty = false
  ∧ lower ty ∉ keywords.

(** The text of a gate statement with an instance name, and without:
    [ty sp1 nm sp2 ( ports )] and [ty sp ( ports )]. *)
Definition named_gate_text (ty sp1 nm sp2 ports : list ascii) : list ascii :=
  ty ++ sp1 ++ nm ++ sp2 ++ "("%char :: ports ++ [")"%char].
Definition anonymous_gate_text (ty sp ports : list ascii) : list ascii :=
  ty ++ sp ++ "("%char :: ports ++ [")"%char].

(** State of [assign_levels] at the head of a round of its loop: the gates
    with the levels written so far, the work list [remaining_gates], the
    set [known_signals] and [level_num]. *)
Record round_state := mk_round {
  r_store : list Gate.t;
  r_remaining : list nat;
  r_known : gset string;
  r_level : Z
}.

(** Before the first round (parser.py, lines 92-94). *)
Definition first_round (nl : Netlist.t) : round_state :=
  mk_round (Netlist.gates nl) (all_positions (Netlist.gates nl))
    (list_to_set (Netlist.inputs nl)) 1.

(** One pass through the body of the loop (lines 97-101 and 104-107). *)
Definition next_round (s : round_state) : round_state :=
  let '(store', current_level) :=
    scan (r_known s) (r_level s) (r_remaining s) (r_store s) in
  mk_round store'
    (filter (λ i, unleveled store' i) (r_remaining s))
    (add_outputs store' (r_known s) current_level)
    (r_level s + 1).

(** The state after [n] passes. *)
Definition after_rounds (n : nat) (nl : Netlist.t) : round_state :=
  Nat.iter n next_round (first_round nl).

(** A round that levels no gate while gates remain: the work list is not
    empty and none of its gates has all its inputs known. *)
Definition levels_none (s : round_state) : Prop :=
  r_remaining s ≠ []
  ∧ ∀ i, i ∈ r_remaining s → ready (r_known s) (r_store s) i = false.
(** * Properties of the leveler *)

Lemma all_known_set_level known g l :
  all_known known (Gate.set_level g l) = all_known known g.
Proof. reflexivity. Qed.

Lemma set_level_twice g l : Gate.set_level (Gate.set_level g l) l = Gate.set_level g l.
Proof. reflexivity. Qed.

Lemma scan_gen known lv store rem :
  ∀ st cur0,
    (∀ j, st !! j = relevel lv cur0 j <$> store !! j) →
    ∀ st' cur', foldl (visit known lv) (st, cur0) rem = (st', cur') →
      cur' = cur0 ++ filter (λ i, ready known store i) rem
      ∧ ∀ j, st' !! j = relevel lv cur' j <$> store !! j.
Proof.
  induction rem as [|i rem IH]; intros st cur0 Hst st' cur' Hfold; simpl in Hfold.
  - inversion Hfold; subst. rewrite filter_nil, app_nil_r. auto.
  - unfold visit in Hfold at 2. simpl in Hfold.
    pose proof (Hst i) as Hi.
    destruct (store !! i) as [g|] eqn:Hg; simpl in Hi; rewrite Hi in Hfold.
    + assert (Hk : all_known known (relevel lv cur0 i g) = all_known known g).
      { unfold relevel. case_bool_decide; reflexivity. }
      rewrite Hk in Hfold.
      destruct (all_known known g) eqn:Hready.
      * apply IH in Hfold as [-> Hst'].
        -- split; [|exact Hst'].
           rewrite filter_cons_True by (unfold ready; rewrite Hg, Hready; done).
           by rewrite <- app_assoc.
        -- intros j. destruct (decide (j = i)) as [->|Hne].
           ++ rewrite list_lookup_insert_eq.
              ** rewrite Hg. simpl. f_equal. unfold relevel.
                 rewrite (bool_decide_eq_true_2 (i ∈ cur0 ++ [i]))
                   by (apply elem_of_app; right; by apply list_elem_of_singleton).
                 case_bool_decide; reflexivity.
              ** apply lookup_lt_is_Some. rewrite Hi. eauto.
           ++ rewrite list_lookup_insert_ne by done. rewrite Hst.
              unfold relevel.
              destruct (store !! j); simpl; [|done]. f_equal.
              rewrite (bool_decide_ext (j ∈ cur0 ++ [i]) (j ∈ cur0)); [done|].
              rewrite elem_of_app, list_elem_of_singleton. tauto.
      * apply IH in Hfold as [-> Hst']; [|exact Hst].
        split; [|exact Hst'].
        rewrite filter_cons_False; [done|].
        unfold ready. rewrite Hg, Hready. simpl. tauto.
    + apply IH in Hfold as [-> Hst']; [|exact Hst].
      split; [|exact Hst'].
      rewrite filter_cons_False; [done|]. unfold ready. rewrite Hg. simpl. tauto.
Qed.

(** A round levels exactly the ready gates of the work list and leaves the
    other gates as they are. *)
Lemma scan_spec known lv rem store store' cur :
  scan known lv rem store = (store', cur) →
  cur = filter (λ i, ready known store i) rem
  ∧ ∀ j, store' !! j = relevel lv cur j <$> store !! j.
Proof.
  intros H. apply (scan_gen known lv store rem store []) in H; [exact H|].
  intros j. unfold relevel.
  rewrite bool_decide_eq_false_2 by apply not_elem_of_nil.
  by destruct (store !! j).
Qed.

Lemma relevel_length (F : nat → Gate.t → Gate.t) (l l' : list Gate.t) :
  (∀ j, l' !! j = F j <$> l !! j) → length l' = length l.
Proof.
  intros H.
  destruct (Nat.lt_trichotomy (length l') (length l)) as [Hlt|[Heq|Hgt]]; [|done|].
  - apply lookup_lt_is_Some in Hlt as [g Hg].
    pose proof (H (length l')) as Hj. rewrite Hg in Hj. simpl in Hj.
    rewrite lookup_ge_None_2 in Hj by lia. done.
  - apply lookup_lt_is_Some in Hgt as [g Hg].
    pose proof (H (length l)) as Hj. rewrite Hg in Hj.
    rewrite (lookup_ge_None_2 l) in Hj by lia. done.
Qed.

Lemma unleveled_true store j :
  unleveled store j ↔ ∃ g, store !! j = Some g ∧ Gate.level g = None.
Proof.
  unfold unleveled. destruct (store !! j) as [g|]; simpl.
  - destruct (Gate.level g) eqn:E; simpl; split.
    + intros [].
    + intros (g' & Hg' & Hl). congruence.
    + eauto.
    + done.
  - split; [intros []|]. intros (g' & Hg' & _). done.
Qed.

Lemma ready_true known store j :
  ready known store j ↔ ∃ g, store !! j = Some g ∧ all_known known g = true.
Proof.
  unfold ready. destruct (store !! j) as [g|]; simpl.
  - split.
    + intros H. exists g. split; [done|]. by apply Is_true_true.
    + intros (g' & Hg' & Hk). apply Is_true_true. congruence.
  - split; [intros []|]. intros (g' & Hg' & _). done.
Qed.

(** A gate that a round has leveled is leveled; a gate that is unleveled
    after the round was unleveled before. *)
Lemma relevel_unleveled lv cur store store' j :
  (∀ j, store' !! j = relevel lv cur j <$> store !! j) →
  unleveled store' j → unleveled store j ∧ j ∉ cur.
Proof.
  intros H. rewrite !unleveled_true. intros (g' & Hg' & Hl).
  rewrite H in Hg'. destruct (store !! j) as [g|]; [|done].
  simpl in Hg'. inversion Hg' as [Hr]. subst g'. unfold relevel in Hl.
  case_bool_decide; [done|]. eauto.
Qed.

(** ** Termination: every round shortens the work list *)

Lemma round_shrinks known lv rem store store' c cur :
  scan known lv rem store = (store', c :: cur) →
  (length (filter (λ i, unleveled store' i) rem) < length rem)%nat.
Proof.
  intros Hscan. apply scan_spec in Hscan as [Hcur Hst].
  assert (Hc : c ∈ filter (λ i, ready known store i) rem)
    by (rewrite <- Hcur; apply elem_of_cons; by left).
  apply list_elem_of_filter in Hc as [Hready Hin].
  apply (length_filter_lt _ _ c); [done|].
  intros Hun. apply (relevel_unleveled _ _ _ _ _ Hst) in Hun as [_ Hn].
  apply Hn. apply elem_of_cons; by left.
Qed.

Lemma level_loop_total fuel :
  ∀ store rem known lv,
    (length rem ≤ fuel)%nat →
    ∃ r, level_loop fuel store rem known lv = Some r.
Proof.
  induction fuel as [|fuel IH]; intros store rem known lv Hlen.
  - destruct rem; [|simpl in Hlen; lia]. simpl. eauto.
  - destruct rem as [|i rem]; [simpl; eauto|].
    simpl. destruct (scan known lv (i :: rem) store) as [store' cur] eqn:Hscan.
    destruct cur as [|c cur]; [eauto|].
    apply IH. apply round_shrinks in Hscan.
    change (length (i :: rem)) with (S (length rem)) in *. lia.
Qed.

(** More fuel does not change the outcome. *)
Lemma level_loop_fuel_mono fuel :
  ∀ store rem known lv r,
    level_loop fuel store rem known lv = Some r →
    ∀ fuel', (fuel ≤ fuel')%nat → level_loop fuel' store rem known lv = Some r.
Proof.
  induction fuel as [|fuel IH]; intros store rem known lv r H fuel' Hle.
  - destruct rem; [|done]. destruct fuel'; exact H.
  - destruct rem as [|i rem]; [destruct fuel'; exact H|].
    destruct fuel' as [|fuel']; [lia|].
    simpl in *. destruct (scan known lv (i :: rem) store) as [store' cur].
    destruct cur as [|c cur]; [exact H|].
    eapply IH; [exact H|lia].
Qed.

(** ** On success no gate is left without a level *)

Lemma level_loop_all_leveled fuel :
  ∀ store rem known lv storeF,
    (∀ j, unleveled store j → j ∈ rem) →
    level_loop fuel store rem known lv = Some (Ok storeF) →
    ∀ j, ¬ unleveled storeF j.
Proof.
  induction fuel as [|fuel IH]; intros store rem known lv storeF Hrem Hloop j Hun.
  - destruct rem; [|done]. simpl in Hloop. inversion Hloop; subst.
    apply Hrem in Hun. by apply elem_of_nil in Hun.
  - destruct rem as [|i rem].
    { simpl in Hloop. inversion Hloop; subst.
      apply Hrem in Hun. by apply elem_of_nil in Hun. }
    simpl in Hloop.
    destruct (scan known lv (i :: rem) store) as [store' cur] eqn:Hscan.
    destruct cur as [|c cur]; [done|].
    apply scan_spec in Hscan as [_ Hst].
    assert (Hrem' : ∀ k, unleveled store' k →
                         k ∈ filter (λ i, unleveled store' i) (i :: rem)).
    { intros k Hk. apply list_elem_of_filter. split; [exact Hk|].
      apply Hrem. by apply (relevel_unleveled _ _ _ _ _ Hst) in Hk as [? _]. }
    exact (IH _ _ _ _ _ Hrem' Hloop j Hun).
Qed.

(** ** Frame: gates outside the work list are untouched, and a gate only
    ever changes in its level *)

Lemma level_loop_frame fuel :
  ∀ store rem known lv storeF,
    level_loop fuel store rem known lv = Some (Ok storeF) →
    ∀ j, j ∉ rem → storeF !! j = store !! j.
Proof.
  induction fuel as [|fuel IH]; intros store rem known lv storeF Hloop j Hj.
  - destruct rem; [|done]. simpl in Hloop. by inversion Hloop.
  - destruct rem as [|i rem]; [simpl in Hloop; by inversion Hloop|].
    simpl in Hloop.
    destruct (scan known lv (i :: rem) store) as [store' cur] eqn:Hscan.
    destruct cur as [|c cur]; [done|].
    apply scan_spec in Hscan as [Hcur Hst].
    rewrite (IH _ _ _ _ _ Hloop).
    + rewrite Hst. unfold relevel. rewrite bool_decide_eq_false_2.
      * by destruct (store !! j).
      * rewrite Hcur. intros Hin. apply list_elem_of_filter in Hin as [_ Hin]. done.
    + intros Hin. apply list_elem_of_filter in Hin as [_ Hin]. done.
Qed.

(** ** The invariant of the leveling loop *)

Lemma all_known_true known g :
  all_known known g = true ↔ ∀ x, x ∈ Gate.inputs g → x ∈ known.
Proof.
  unfold all_known. induction (Gate.inputs g) as [|y ys IH]; simpl.
  - split; [|done]. intros _ x Hx. by apply elem_of_nil in Hx.
  - rewrite andb_true_iff, IH, bool_decide_eq_true. split.
    + intros [Hy Hys] x Hx. apply elem_of_cons in Hx as [->|Hx]; auto.
    + intros H. split; [apply H; apply elem_of_cons; by left|].
      intros x Hx. apply H. apply elem_of_cons. by right.
Qed.

Lemma all_known_false known g :
  all_known known g = false → ∃ x, x ∈ Gate.inputs g ∧ x ∉ known.
Proof.
  unfold all_known. induction (Gate.inputs g) as [|y ys IH]; simpl; [done|].
  rewrite andb_false_iff, bool_decide_eq_false. intros [Hy|Hys].
  - exists y. split; [apply elem_of_cons; by left|done].
  - destruct (IH Hys) as (x & Hx & Hn). exists x.
    split; [apply elem_of_cons; by right|done].
Qed.

Lemma add_outputs_spec store cur :
  ∀ known x,
    x ∈ add_outputs store known cur ↔
    x ∈ known ∨ ∃ i g, i ∈ cur ∧ store !! i = Some g ∧ Gate.output g = x.
Proof.
  unfold add_outputs.
  induction cur as [|c cur IH]; intros known x; simpl.
  - split; [auto|]. intros [H|(i & g & Hi & _)]; [done|].
    by apply elem_of_nil in Hi.
  - rewrite IH. split.
    + intros [H|(i & g & Hi & Hg & Hx)].
      * destruct (store !! c) as [gc|] eqn:Hc; [|by left].
        apply elem_of_union in H as [H|H]; [by left|].
        apply elem_of_singleton in H. right. exists c, gc.
        split; [apply elem_of_cons; by left|done].
      * right. exists i, g. split; [apply elem_of_cons; by right|done].
    + intros [H|(i & g & Hi & Hg & Hx)].
      * left. destruct (store !! c); [apply elem_of_union; by left|done].
      * apply elem_of_cons in Hi as [->|Hi].
        -- left. rewrite Hg. apply elem_of_union. right.
           by apply elem_of_singleton.
        -- right. eauto.
Qed.

Section Round.
Variables (known : gset string) (lv : Z).
Variables (store store' : list Gate.t) (rem cur : list nat).
Hypothesis Hrem : ∀ j, j ∈ rem ↔ unleveled store j.
Hypothesis Hcur : cur = filter (λ i, ready known store i) rem.
Hypothesis Hst : ∀ j, store' !! j = relevel lv cur j <$> store !! j.

Lemma in_cur j :
  j ∈ cur ↔ ∃ g, store !! j = Some g ∧ Gate.level g = None
                 ∧ all_known known g = true.
Proof.
  rewrite Hcur, list_elem_of_filter, Hrem, unleveled_true, ready_true.
  split.
  - intros [(g & Hg & Hk) (g' & Hg' & Hl)].
    exists g. rewrite Hg in Hg'. inversion Hg'; subst. auto.
  - intros (g & Hg & Hl & Hk). split; eauto.
Qed.

Lemma round_keeps g :
  g ∈ store → Gate.level g ≠ None ∨ all_known known g = false → g ∈ store'.
Proof.
  intros Hin Hcase. apply list_elem_of_lookup in Hin as [j Hj].
  apply list_elem_of_lookup. exists j. rewrite Hst, Hj. simpl. f_equal.
  unfold relevel. rewrite bool_decide_eq_false_2; [done|].
  rewrite in_cur. intros (g' & Hg' & Hl & Hk).
  rewrite Hj in Hg'. inversion Hg'; subst.
  destruct Hcase; congruence.
Qed.

Lemma round_levels g :
  g ∈ store → Gate.level g = None → all_known known g = true →
  Gate.set_level g lv ∈ store'.
Proof.
  intros Hin Hl Hk. apply list_elem_of_lookup in Hin as [j Hj].
  apply list_elem_of_lookup. exists j. rewrite Hst, Hj. simpl. f_equal.
  unfold relevel. rewrite bool_decide_eq_true_2; [done|].
  rewrite in_cur. eauto.
Qed.

Lemma round_inv g' :
  g' ∈ store' →
  (g' ∈ store ∧ (Gate.level g' ≠ None ∨ all_known known g' = false))
  ∨ (∃ g, g ∈ store ∧ Gate.level g = None ∧ all_known known g = true
          ∧ g' = Gate.set_level g lv).
Proof.
  intros Hin. apply list_elem_of_lookup in Hin as [j Hj].
  rewrite Hst in Hj. destruct (store !! j) as [g|] eqn:Hg; [|done].
  simpl in Hj. inversion Hj as [Hr]. clear Hj.
  assert (Hgin : g ∈ store) by (apply list_elem_of_lookup; eauto).
  unfold relevel. case_bool_decide as Hc.
  - right. apply in_cur in Hc as (g0 & Hg0 & Hl & Hk).
    rewrite Hg in Hg0. inversion Hg0; subst. eauto.
  - left. split; [done|].
    destruct (Gate.level g) eqn:Hl; [left; done|].
    destruct (all_known known g) eqn:Hk; [|right; done].
    exfalso. apply Hc. apply in_cur. eauto.
Qed.
End Round.

Lemma level_inv_init (nl : Netlist.t) :
  fresh nl →
  level_inv (Netlist.inputs nl) (Netlist.gates nl)
    (all_positions (Netlist.gates nl)) (list_to_set (Netlist.inputs nl)) 1.
Proof.
  intros Hfresh. unfold fresh in Hfresh. rewrite Forall_forall in Hfresh.
  assert (Hnone : ∀ d l, d ∈ Netlist.gates nl → Gate.level d = Some l → False).
  { intros d l Hd Hl. rewrite (Hfresh d Hd) in Hl. done. }
  split.
  - intros j. unfold all_positions. rewrite elem_of_seq, unleveled_true. split.
    + intros [_ Hj]. simpl in Hj. apply lookup_lt_is_Some in Hj as [g Hg].
      exists g. split; [done|]. apply Hfresh. by eapply list_elem_of_lookup_2.
    + intros (g & Hg & _). apply lookup_lt_Some in Hg. lia.
  - intros x. rewrite elem_of_list_to_set. split; [auto|].
    intros [H|(d & l & Hd & _ & Hl)]; [done|]. destruct (Hnone d l Hd Hl).
  - lia.
  - intros g l Hg Hl. destruct (Hnone g l Hg Hl).
  - intros g l x Hg Hl. destruct (Hnone g l Hg Hl).
  - intros g l Hg Hl. destruct (Hnone g l Hg Hl).
  - intros g _ _ Hlt. lia.
Qed.

Lemma level_inv_step ins known lv store store' rem c cur :
  level_inv ins store rem known lv →
  scan known lv rem store = (store', c :: cur) →
  level_inv ins store' (filter (λ i, unleveled store' i) rem)
    (add_outputs store' known (c :: cur)) (lv + 1).
Proof.
  intros [Hrem Hknown Hlv Hrange Hbelow Hpred Hwait] Hscan.
  apply scan_spec in Hscan as [Hcur Hst].
  pose proof (round_keeps known lv store store' rem (c :: cur) Hrem Hcur Hst) as Keep.
  pose proof (round_levels known lv store store' rem (c :: cur) Hrem Hcur Hst) as Lev.
  pose proof (round_inv known lv store store' rem (c :: cur) Hrem Hcur Hst) as Inv.
  pose proof (in_cur known lv store store' rem (c :: cur) Hrem Hcur Hst) as Cur.
  assert (Kold : ∀ d l, d ∈ store → Gate.level d = Some l → d ∈ store').
  { intros d l Hd Hl. apply Keep; [done|]. left. congruence. }
  split.
  - intros j. rewrite list_elem_of_filter. split; [tauto|].
    intros Hun. split; [done|]. apply Hrem.
    by apply (relevel_unleveled _ _ _ _ _ Hst) in Hun as [? _].
  - intros x. rewrite add_outputs_spec, Hknown. split.
    + intros [[Hx|(d & l & Hd & Hx & Hl)]|(i & g' & Hi & Hg' & Hx)].
      * by left.
      * right. exists d, l. eauto.
      * right. apply Cur in Hi as (g & Hg & Hl & Hk).
        rewrite Hst, Hg in Hg'. simpl in Hg'. inversion Hg' as [Hr].
        unfold relevel in Hr. rewrite bool_decide_eq_true_2 in Hr by (apply Cur; eauto).
        exists g', lv. subst g'. split; [|done].
        apply Lev; [by eapply list_elem_of_lookup_2|done|done].
    + intros [Hx|(d' & l & Hd' & Hx & Hl)]; [by left; left|].
      apply Inv in Hd' as [[Hd _]|(g & Hg & Hgl & Hk & ->)].
      * left. right. eauto.
      * right. apply list_elem_of_lookup in Hg as [j Hj].
        exists j, (Gate.set_level g lv). split; [apply Cur; eauto|].
        split; [|done]. rewrite Hst, Hj. simpl. f_equal. unfold relevel.
        rewrite bool_decide_eq_true_2; [done|]. apply Cur; eauto.
  - lia.
  - intros g' l Hg' Hl. apply Inv in Hg' as [[Hg _]|(g & Hg & Hgl & Hk & ->)].
    + pose proof (Hrange g' l Hg Hl). lia.
    + simpl in Hl. inversion Hl; subst. lia.
  - intros g' l x Hg' Hl Hx.
    apply Inv in Hg' as [[Hg _]|(g & Hg & Hgl & Hk & ->)].
    + destruct (Hbelow g' l x Hg Hl Hx) as [?|(d & ld & Hd & Ho & Hld & Hlt)];
        [by left|].
      right. exists d, ld. eauto 6.
    + simpl in Hl, Hx. inversion Hl; subst l.
      rewrite all_known_true in Hk. apply Hk, Hknown in Hx as [?|(d & ld & Hd & Ho & Hld)];
        [by left|].
      right. exists d, ld. pose proof (Hrange d ld Hd Hld). split; [eauto|].
      split; [done|]. split; [done|]. lia.
  - intros g' l Hg' Hl Hlt.
    apply Inv in Hg' as [[Hg _]|(g & Hg & Hgl & Hk & ->)].
    + destruct (Hpred g' l Hg Hl Hlt) as (x & d & Hx & Hni & Hd & Ho & Hld).
      exists x, d. eauto 8.
    + simpl in Hl. inversion Hl; subst l.
      destruct (Hwait g Hg Hgl Hlt) as (x & Hx & Hni & Hall).
      rewrite all_known_true in Hk.
      pose proof (Hk x Hx) as Hkx. apply Hknown in Hkx as [?|(d & ld & Hd & Ho & Hld)];
        [done|].
      exists x, d. simpl. rewrite (Hall d ld Hd Ho Hld) in Hld. eauto 8.
  - intros g' Hg' Hl _.
    apply Inv in Hg' as [[Hg [Hne|Hk]]|(g & Hg & Hgl & Hk & ->)];
      [done| |simpl in Hl; done].
    apply all_known_false in Hk as (x & Hx & Hnk).
    exists x. split; [done|]. split.
    + intros Hin. apply Hnk, Hknown. by left.
    + intros d' l Hd' Ho Hld.
      apply Inv in Hd' as [[Hd _]|(g & Hg2 & Hgl & Hk & ->)].
      * exfalso. apply Hnk, Hknown. right. eauto.
      * simpl in Hld. inversion Hld. lia.
Qed.

(** When the loop ends normally the invariant holds with an empty work
    list. *)
Lemma level_loop_inv ins fuel :
  ∀ store rem known lv storeF,
    level_inv ins store rem known lv →
    level_loop fuel store rem known lv = Some (Ok storeF) →
    ∃ knownF lvF, level_inv ins storeF [] knownF lvF.
Proof.
  induction fuel as [|fuel IH]; intros store rem known lv storeF Hinv Hloop.
  - destruct rem; [|done]. simpl in Hloop. inversion Hloop; subst. eauto.
  - destruct rem as [|i rem]; [simpl in Hloop; inversion Hloop; subst; eauto|].
    simpl in Hloop.
    destruct (scan known lv (i :: rem) store) as [store' cur] eqn:Hscan.
    destruct cur as [|c cur]; [done|].
    eapply IH; [|exact Hloop]. by eapply level_inv_step.
Qed.

(** The loop changes nothing but levels. *)
Lemma level_loop_wiring {A} (f : Gate.t → A) fuel :
  (∀ g l, f (Gate.set_level g l) = f g) →
  ∀ store rem known lv storeF,
    level_loop fuel store rem known lv = Some (Ok storeF) →
    f <$> storeF = f <$> store.
Proof.
  intros Hf.
  induction fuel as [|fuel IH]; intros store rem known lv storeF Hloop.
  - destruct rem; [|done]. simpl in Hloop. by inversion Hloop.
  - destruct rem as [|i rem]; [simpl in Hloop; by inversion Hloop|].
    simpl in Hloop.
    destruct (scan known lv (i :: rem) store) as [store' cur] eqn:Hscan.
    destruct cur as [|c cur]; [done|].
    apply scan_spec in Hscan as [_ Hst].
    rewrite (IH _ _ _ _ _ Hloop).
    apply list_eq. intros j. rewrite !list_lookup_fmap, Hst.
    destruct (store !! j) as [g|]; [|done]. simpl. f_equal.
    unfold relevel. by case_bool_decide.
Qed.

Lemma assign_levels_Ok nl nl' :
  assign_levels nl = Some (Ok nl') →
  ∃ storeF,
    nl' = Netlist.set_gates nl storeF
    ∧ level_loop (length (Netlist.gates nl)) (Netlist.gates nl)
        (all_positions (Netlist.gates nl)) (list_to_set (Netlist.inputs nl)) 1
      = Some (Ok storeF).
Proof.
  unfold assign_levels, assign_levels_fuel.
  destruct (level_loop _ _ _ _ _) as [[gs|e]|]; [|done|done].
  intros H. inversion H. eauto.
Qed.

Lemma NoDup_fmap_eq {A B} (f : A → B) (l : list A) x y :
  NoDup (f <$> l) → x ∈ l → y ∈ l → f x = f y → x = y.
Proof.
  induction l as [|a l IH]; intros Hnd Hx Hy Hf.
  - by apply elem_of_nil in Hx.
  - rewrite fmap_cons in Hnd. apply NoDup_cons in Hnd as [Hna Hnd].
    apply elem_of_cons in Hx as [->|Hx]; apply elem_of_cons in Hy as [->|Hy].
    + done.
    + exfalso. apply Hna. rewrite Hf. by apply list_elem_of_fmap_2.
    + exfalso. apply Hna. rewrite <- Hf. by apply list_elem_of_fmap_2.
    + by apply IH.
Qed.

Lemma max_level_of_upper ls m :
  0 ≤ m → (∀ z, z ∈ ls → z ≤ m) → max_level_of ls ≤ m.
Proof.
  intros Hm. induction ls as [|a ls IH]; intros H; simpl; [done|].
  apply Z.max_lub.
  - apply H. apply elem_of_cons. by left.
  - apply IH. intros z Hz. apply H. apply elem_of_cons. by right.
Qed.

Lemma max_level_of_lower ls m : m ∈ ls → m ≤ max_level_of ls.
Proof.
  induction ls as [|a ls IH]; intros H; [by apply elem_of_nil in H|].
  simpl. apply elem_of_cons in H as [->|H]; [lia|].
  specialize (IH H). lia.
Qed.

Lemma elem_of_driver_levels gs g z :
  z ∈ driver_levels gs g ↔ ∃ d, d ∈ gs ∧ drives d g ∧ Gate.level d = Some z.
Proof.
  unfold driver_levels, drivers. rewrite list_elem_of_omap. split.
  - intros (d & Hd & Hl). apply list_elem_of_filter in Hd as [? ?]. eauto.
  - intros (d & Hd & Hdr & Hl). exists d. split; [|done].
    by apply list_elem_of_filter.
Qed.

(** At the end of a successful run the invariant gives the contract, when
    signals have a single driver and primary inputs have none. *)
Lemma level_inv_contract nl known lv :
  single_driver nl → inputs_undriven nl →
  level_inv (Netlist.inputs nl) (Netlist.gates nl) [] known lv →
  ∀ g, g ∈ Netlist.gates nl → level_contract nl g.
Proof.
  intros Hsd Hund [Hrem _ _ Hrange Hbelow Hpred _] g Hg.
  unfold inputs_undriven in Hund. rewrite Forall_forall in Hund.
  assert (Hl : ∃ l, Gate.level g = Some l).
  { destruct (Gate.level g) as [l|] eqn:Hl; [eauto|]. exfalso.
    apply list_elem_of_lookup in Hg as [j Hj].
    apply (elem_of_nil j), Hrem, unleveled_true. eauto. }
  destruct Hl as [l Hl]. pose proof (Hrange g l Hg Hl) as [Hl1 _].
  assert (Hstrict : ∀ d, d ∈ Netlist.gates nl → drives d g →
                         ∃ ld, Gate.level d = Some ld ∧ ld < l).
  { intros d Hd Hdr.
    destruct (Hbelow g l (Gate.output d) Hg Hl Hdr)
      as [Hin|(d' & ld & Hd' & Ho & Hld & Hlt)].
    - destruct (Hund d Hd Hin).
    - rewrite (NoDup_fmap_eq Gate.output _ d d' Hsd Hd Hd') by done. eauto. }
  exists l. split; [done|]. split; [done|]. split; [exact Hstrict|]. split.
  - intros Hne.
    assert (Hd : ∃ d, d ∈ drivers (Netlist.gates nl) g).
    { destruct (drivers (Netlist.gates nl) g) as [|d ds]; [done|].
      exists d. apply elem_of_cons. by left. }
    destruct Hd as [d Hd]. apply list_elem_of_filter in Hd as [Hdr Hd].
    destruct (Hstrict d Hd Hdr) as (ld & Hld & Hlt).
    pose proof (Hrange d ld Hd Hld) as [Hld1 _].
    destruct (Hpred g l Hg Hl) as (x & d0 & Hx & _ & Hd0 & Ho & Hl0); [lia|].
    assert (max_level_of (driver_levels (Netlist.gates nl) g) = l - 1); [|lia].
    apply Z.le_antisymm.
    + apply max_level_of_upper; [lia|]. intros z Hz.
      apply elem_of_driver_levels in Hz as (d1 & Hd1 & Hdr1 & Hz).
      destruct (Hstrict d1 Hd1 Hdr1) as (l1 & Hl1' & Hlt1).
      rewrite Hz in Hl1'. inversion Hl1'; subst. lia.
    + apply max_level_of_lower, elem_of_driver_levels.
      exists d0. split; [done|]. split; [|done]. unfold drives. by rewrite Ho.
  - intros Hall. destruct (decide (1 < l)) as [Hlt|]; [|lia].
    destruct (Hpred g l Hg Hl Hlt) as (x & d0 & Hx & Hni & _).
    destruct (Hni (Hall x Hx)).
Qed.

(** What a successful run establishes and preserves. *)
Lemma assign_levels_inv (nl nl' : Netlist.t) :
  fresh nl → assign_levels nl = Some (Ok nl') →
  ∃ known lv, level_inv (Netlist.inputs nl') (Netlist.gates nl') [] known lv.
Proof.
  intros Hfresh Hrun.
  apply assign_levels_Ok in Hrun as (storeF & -> & Hloop).
  exact (level_loop_inv _ _ _ _ _ _ _ (level_inv_init nl Hfresh) Hloop).
Qed.

Lemma outputs_preserved (nl nl' : Netlist.t) :
  assign_levels nl = Some (Ok nl') →
  Gate.output <$> Netlist.gates nl' = Gate.output <$> Netlist.gates nl
  ∧ Netlist.inputs nl' = Netlist.inputs nl.
Proof.
  intros Hrun. apply assign_levels_Ok in Hrun as (storeF & -> & Hloop).
  split; [|done]. simpl.
  exact (level_loop_wiring Gate.output _ (λ _ _, eq_refl) _ _ _ _ _ Hloop).
Qed.

Lemma single_driver_preserved (nl nl' : Netlist.t) :
  assign_levels nl = Some (Ok nl') → single_driver nl → single_driver nl'.
Proof.
  intros Hrun. destruct (outputs_preserved nl nl' Hrun) as [Hout _].
  unfold single_driver. by rewrite Hout.
Qed.

Lemma inputs_undriven_preserved (nl nl' : Netlist.t) :
  assign_levels nl = Some (Ok nl') → inputs_undriven nl → inputs_undriven nl'.
Proof.
  intros Hrun. destruct (outputs_preserved nl nl' Hrun) as [Hout Hin].
  unfold inputs_undriven. rewrite !Forall_forall, Hin. intros Hund g Hg Hi.
  assert (Ho : Gate.output g ∈ Gate.output <$> Netlist.gates nl)
    by (rewrite <- Hout; by apply list_elem_of_fmap_2).
  apply list_elem_of_fmap in Ho as (g0 & Ho & Hg0).
  apply (Hund g0 Hg0). by rewrite <- Ho.
Qed.

(** C1 (amended): on a freshly parsed netlist in which every signal has a
    single driver and no gate drives a primary input, a successful run of
    the leveler gives every gate a level >= 1 that is strictly greater than
    the level of each of its drivers, equal to 1 + the largest driver level
    when the gate has a driver, and equal to 1 when all its inputs are
    primary inputs. *)
Theorem assign_levels_contract (nl nl' : Netlist.t) :
  fresh nl → single_driver nl → inputs_undriven nl →
  assign_levels nl = Some (Ok nl') →
  ∀ g, g ∈ Netlist.gates nl' → level_contract nl' g.
Proof.
  intros Hfresh Hsd Hund Hrun.
  destruct (assign_levels_inv nl nl' Hfresh Hrun) as (known & lv & Hinv).
  apply (level_inv_contract nl' known lv).
  - by apply (single_driver_preserved nl nl').
  - by apply (inputs_undriven_preserved nl nl').
  - exact Hinv.
Qed.

(** ** Termination and cycles *)

Lemma assign_levels_total nl : ∃ r, assign_levels nl = Some r.
Proof.
  unfold assign_levels, assign_levels_fuel.
  destruct (level_loop_total (length (Netlist.gates nl)) (Netlist.gates nl)
              (all_positions (Netlist.gates nl))
              (list_to_set (Netlist.inputs nl)) 1) as [r Hr].
  - unfold all_positions. by rewrite length_seq.
  - rewrite Hr. destruct r; eauto.
Qed.

Lemma level_loop_raises fuel :
  ∀ store rem known lv e,
    level_loop fuel store rem known lv = Some (Raise e) → e = CannotResolve.
Proof.
  induction fuel as [|fuel IH]; intros store rem known lv e H.
  - destruct rem; simpl in H; [inversion H|done].
  - destruct rem as [|i rem]; [simpl in H; inversion H|].
    simpl in H. destruct (scan known lv (i :: rem) store) as [store' cur].
    destruct cur as [|c cur]; [by inversion H|]. by eapply IH.
Qed.

Lemma assign_levels_raises nl e :
  assign_levels nl = Some (Raise e) → e = CannotResolve.
Proof.
  unfold assign_levels, assign_levels_fuel.
  destruct (level_loop _ _ _ _ _) as [[gs|e']|] eqn:H; [done| |done].
  intros He. inversion He; subst. by eapply level_loop_raises.
Qed.

Lemma assign_levels_all_leveled nl nl' :
  assign_levels nl = Some (Ok nl') →
  Forall (λ g, is_Some (Gate.level g)) (Netlist.gates nl').
Proof.
  intros Hrun. apply assign_levels_Ok in Hrun as (storeF & -> & Hloop).
  simpl. apply Forall_forall. intros g Hg.
  destruct (Gate.level g) eqn:Hl; [eauto|]. exfalso.
  apply list_elem_of_lookup in Hg as [j Hj].
  apply (level_loop_all_leveled _ _ _ _ _ _) with (j := j) in Hloop.
  - apply Hloop, unleveled_true. eauto.
  - intros k Hk. apply unleveled_true in Hk as (g' & Hg' & _).
    apply lookup_lt_Some in Hg'. unfold all_positions. apply elem_of_seq. lia.
Qed.

(** Wiring of a gate: what the leveler never changes and what the
    dependency relation is made of. *)
Lemma wiring_preserved nl nl' :
  assign_levels nl = Some (Ok nl') →
  wiring <$> Netlist.gates nl' = wiring <$> Netlist.gates nl
  ∧ Netlist.inputs nl' = Netlist.inputs nl.
Proof.
  intros Hrun. apply assign_levels_Ok in Hrun as (storeF & -> & Hloop).
  split; [|done]. simpl.
  by apply (level_loop_wiring wiring _ (λ _ _, eq_refl) _ _ _ _ _ Hloop).
Qed.

Lemma wiring_counterpart (gs gs' : list Gate.t) g :
  wiring <$> gs' = wiring <$> gs → g ∈ gs →
  ∃ g', g' ∈ gs' ∧ wiring g' = wiring g.
Proof.
  intros Hw Hg. apply (list_elem_of_fmap_2 wiring) in Hg. rewrite <- Hw in Hg.
  apply list_elem_of_fmap in Hg as (g' & Heq & Hg'). eauto.
Qed.

Lemma drives_wiring d g d' g' :
  wiring d' = wiring d → wiring g' = wiring g → drives d g → drives d' g'.
Proof.
  unfold wiring, drives. intros Hd Hg. inversion Hd. inversion Hg. congruence.
Qed.

(** A dependency path of the netlist is a dependency path of the leveled
    netlist. *)
Lemma depends_on_transfer nl nl' :
  wiring <$> Netlist.gates nl' = wiring <$> Netlist.gates nl →
  ∀ g h, depends_on nl g h →
  ∀ g', g' ∈ Netlist.gates nl' → wiring g' = wiring g →
  ∃ h', h' ∈ Netlist.gates nl' ∧ wiring h' = wiring h ∧ depends_on nl' g' h'.
Proof.
  intros Hw g h Hdep. unfold depends_on in *.
  induction Hdep as [g h (Hg & Hh & Hdr)|g m h (Hg & Hm & Hdr) Hdep IH];
    intros g' Hg' Hwg.
  - destruct (wiring_counterpart _ _ h Hw Hh) as (h' & Hh' & Hwh).
    exists h'. split; [done|]. split; [done|]. apply tc_once.
    split; [done|]. split; [done|]. by eapply drives_wiring.
  - destruct (wiring_counterpart _ _ m Hw Hm) as (m' & Hm' & Hwm).
    destruct (IH m' Hm' Hwm) as (h' & Hh' & Hwh & Hdep').
    exists h'. split; [done|]. split; [done|].
    eapply tc_l; [|exact Hdep'].
    split; [done|]. split; [done|]. by eapply drives_wiring.
Qed.

(** Levels strictly decrease along dependencies when the contract holds. *)
Lemma contract_depends_on nl :
  (∀ g, g ∈ Netlist.gates nl → level_contract nl g) →
  ∀ g h, depends_on nl g h →
  ∃ lg lh, Gate.level g = Some lg ∧ Gate.level h = Some lh ∧ lh < lg.
Proof.
  intros Hc g h Hdep. unfold depends_on in Hdep.
  induction Hdep as [g h (Hg & Hh & Hdr)|g m h (Hg & Hm & Hdr) Hdep IH].
  - destruct (Hc g Hg) as (l & Hl & _ & Hstrict & _).
    destruct (Hstrict h Hh Hdr) as (ld & Hld & Hlt). eauto.
  - destruct (Hc g Hg) as (l & Hl & _ & Hstrict & _).
    destruct (Hstrict m Hm Hdr) as (lm & Hlm & Hlt).
    destruct IH as (lm' & lh & Hlm' & Hlh & Hlt').
    rewrite Hlm in Hlm'. inversion Hlm'; subst. exists l, lh.
    split; [done|]. split; [done|]. lia.
Qed.

Lemma assign_levels_fuel_enough nl fuel :
  (length (Netlist.gates nl) ≤ fuel)%nat →
  assign_levels_fuel fuel nl = assign_levels nl.
Proof.
  intros Hle. unfold assign_levels, assign_levels_fuel.
  destruct (level_loop_total (length (Netlist.gates nl)) (Netlist.gates nl)
              (all_positions (Netlist.gates nl))
              (list_to_set (Netlist.inputs nl)) 1) as [r Hr].
  - unfold all_positions. by rewrite length_seq.
  - by rewrite Hr, (level_loop_fuel_mono _ _ _ _ _ _ Hr fuel Hle).
Qed.

(** ** The round that raises *)

Lemma next_round_eq s store' cur :
  scan (r_known s) (r_level s) (r_remaining s) (r_store s) = (store', cur) →
  next_round s
  = mk_round store' (filter (λ i, unleveled store' i) (r_remaining s))
      (add_outputs store' (r_known s) cur) (r_level s + 1).
Proof. intros H. unfold next_round. by rewrite H. Qed.

Lemma level_loop_next fuel s store' c cur :
  r_remaining s ≠ [] →
  scan (r_known s) (r_level s) (r_remaining s) (r_store s) = (store', c :: cur) →
  level_loop (S fuel) (r_store s) (r_remaining s) (r_known s) (r_level s)
  = level_loop fuel (r_store (next_round s)) (r_remaining (next_round s))
      (r_known (next_round s)) (r_level (next_round s)).
Proof.
  intros Hne Hscan. rewrite (next_round_eq s _ _ Hscan).
  destruct (r_remaining s) as [|i rem]; [done|]. simpl. by rewrite Hscan.
Qed.

(** No gate of the work list is ready exactly when the scan levels none. *)
Lemma scan_levels_none s store' cur :
  scan (r_known s) (r_level s) (r_remaining s) (r_store s) = (store', cur) →
  cur = [] ↔ ∀ i, i ∈ r_remaining s → ready (r_known s) (r_store s) i = false.
Proof.
  intros Hscan. apply scan_spec in Hscan as [-> _]. split.
  - intros Hnil i Hi. destruct (ready (r_known s) (r_store s) i) eqn:Hr; [|done].
    exfalso. apply (filter_nil_not_elem_of _ _ i Hnil); [|done].
    by apply Is_true_true.
  - intros Hnone.
    destruct (filter _ _) as [|c cur] eqn:Hf; [done|]. exfalso.
    assert (Hc : c ∈ filter (λ i, ready (r_known s) (r_store s) i) (r_remaining s))
      by (rewrite Hf; apply elem_of_cons; by left).
    apply list_elem_of_filter in Hc as [Hready Hin].
    apply Is_true_true in Hready. rewrite (Hnone c Hin) in Hready. done.
Qed.

Lemma next_round_finished s :
  r_remaining s = [] → r_remaining (next_round s) = [].
Proof.
  intros Hs. unfold next_round. destruct (scan _ _ _ _) as [store' cur].
  simpl. by rewrite Hs.
Qed.

Lemma finished_stays n s :
  r_remaining s = [] → r_remaining (Nat.iter n next_round s) = [].
Proof.
  intros Hs. induction n as [|n IH]; [done|]. simpl.
  by apply next_round_finished.
Qed.

(** A run that raises has come to a round that levels no gate. *)
Lemma level_loop_raise_round fuel :
  ∀ s e,
    level_loop fuel (r_store s) (r_remaining s) (r_known s) (r_level s)
    = Some (Raise e) →
    ∃ n, levels_none (Nat.iter n next_round s).
Proof.
  induction fuel as [|fuel IH]; intros s e H.
  - destruct (r_remaining s); simpl in H; [inversion H|done].
  - destruct (decide (r_remaining s = [])) as [Hnil|Hne].
    { rewrite Hnil in H. simpl in H. inversion H. }
    destruct (scan (r_known s) (r_level s) (r_remaining s) (r_store s))
      as [store' cur] eqn:Hscan.
    destruct cur as [|c cur].
    + exists 0%nat. simpl. split; [done|].
      by apply (scan_levels_none s store' []).
    + rewrite (level_loop_next fuel s store' c cur Hne Hscan) in H.
      destruct (IH _ _ H) as [n Hn]. exists (S n).
      by rewrite Nat.iter_succ_r.
Qed.

(** A run that comes to a round that levels no gate does not succeed. *)
Lemma round_not_Ok n :
  ∀ s fuel storeF,
    levels_none (Nat.iter n next_round s) →
    level_loop fuel (r_store s) (r_remaining s) (r_known s) (r_level s)
    ≠ Some (Ok storeF).
Proof.
  induction n as [|n IH]; intros s fuel storeF Hn Hloop.
  - simpl in Hn. destruct Hn as [Hne Hnone].
    destruct fuel as [|fuel]; [by destruct (r_remaining s)|].
    destruct (scan (r_known s) (r_level s) (r_remaining s) (r_store s))
      as [store' cur] eqn:Hscan.
    apply (scan_levels_none s store' cur Hscan) in Hnone. subst cur.
    destruct (r_remaining s) as [|i rem]; [done|].
    simpl in Hloop. by rewrite Hscan in Hloop.
  - rewrite Nat.iter_succ_r in Hn.
    destruct (decide (r_remaining s = [])) as [Hnil|Hne].
    { destruct Hn as [Hn _]. by apply Hn, finished_stays, next_round_finished. }
    destruct fuel as [|fuel]; [by destruct (r_remaining s)|].
    destruct (scan (r_known s) (r_level s) (r_remaining s) (r_store s))
      as [store' cur] eqn:Hscan.
    destruct cur as [|c cur].
    + destruct (r_remaining s) as [|i rem]; [done|].
      simpl in Hloop. by rewrite Hscan in Hloop.
    + rewrite (level_loop_next fuel s store' c cur Hne Hscan) in Hloop.
      by apply (IH _ _ _ Hn Hloop).
Qed.

Lemma assign_levels_raise_round nl :
  assign_levels nl = Some (Raise CannotResolve)
  ↔ ∃ n, levels_none (after_rounds n nl).
Proof.
  split.
  - unfold assign_levels, assign_levels_fuel. intros H.
    destruct (level_loop _ _ _ _ _) as [[gs|e]|] eqn:Hloop; [done| |done].
    exact (level_loop_raise_round _ (first_round nl) e Hloop).
  - intros [n Hn]. destruct (assign_levels_total nl) as [[nl'|e] Hr].
    + exfalso. unfold assign_levels, assign_levels_fuel in Hr.
      destruct (level_loop _ _ _ _ _) as [[gs|e]|] eqn:Hloop; [|done|done].
      exact (round_not_Ok n (first_round nl) _ gs Hn Hloop).
    + apply assign_levels_raises in Hr as He. by subst.
Qed.

(** ** The work list holds the gates without a level *)

Lemma next_round_remaining s i :
  i ∈ r_remaining (next_round s)
  ↔ unleveled (r_store (next_round s)) i ∧ i ∈ r_remaining s.
Proof.
  unfold next_round. destruct (scan _ _ _ _) as [store' cur]. simpl.
  by rewrite list_elem_of_filter.
Qed.

Lemma next_round_unleveled s i :
  unleveled (r_store (next_round s)) i → unleveled (r_store s) i.
Proof.
  unfold next_round.
  destruct (scan _ _ _ _) as [store' cur] eqn:Hscan. simpl.
  apply scan_spec in Hscan as [_ Hst]. intros Hun.
  by apply (relevel_unleveled _ _ _ _ _ Hst) in Hun as [? _].
Qed.

Lemma after_rounds_cover n nl i :
  unleveled (r_store (after_rounds n nl)) i → i ∈ r_remaining (after_rounds n nl).
Proof.
  unfold after_rounds. induction n as [|n IH]; simpl; intros Hun.
  - apply unleveled_true in Hun as (g & Hg & _). apply lookup_lt_Some in Hg.
    unfold all_positions. apply elem_of_seq. lia.
  - apply next_round_remaining. split; [done|].
    by apply IH, next_round_unleveled.
Qed.

Lemma work_list_unleveled n nl i :
  (0 < n)%nat ∨ fresh nl →
  i ∈ r_remaining (after_rounds n nl) ↔ unleveled (r_store (after_rounds n nl)) i.
Proof.
  intros Hn. split; [|apply after_rounds_cover].
  destruct n as [|n].
  - destruct Hn as [Hn|Hfresh]; [lia|]. unfold after_rounds. simpl.
    unfold all_positions. intros Hi. apply elem_of_seq in Hi as [_ Hi].
    apply lookup_lt_is_Some in Hi as [g Hg].
    apply unleveled_true. exists g. split; [done|].
    unfold fresh in Hfresh. rewrite Forall_forall in Hfresh.
    apply Hfresh. by eapply list_elem_of_lookup_2.
  - unfold after_rounds. simpl. intros Hi.
    by apply next_round_remaining in Hi as [? _].
Qed.

(** C5 (amended): leveling always terminates (one round per gate is
    enough, and more rounds change nothing), with every gate leveled or
    with the unresolvable-dependency error; it raises this error exactly
    when it comes to a round that levels no gate while gates remain in the
    work list, which after the first round (on a freshly parsed netlist,
    from the start) holds exactly the gates without a level; and on a
    freshly parsed netlist in which every signal has a single driver and no
    gate drives a primary input, a gate that depends, directly or
    transitively, on its own output makes leveling raise that error. *)
Theorem assign_levels_terminates (nl : Netlist.t) :
  (∃ r, assign_levels nl = Some r
        ∧ match r with
          | Ok nl' => Forall (λ g, is_Some (Gate.level g)) (Netlist.gates nl')
          | Raise e => e = CannotResolve
          end)
  ∧ (∀ fuel, (length (Netlist.gates nl) ≤ fuel)%nat →
             assign_levels_fuel fuel nl = assign_levels nl)
  ∧ (assign_levels nl = Some (Raise CannotResolve)
     ↔ ∃ n, levels_none (after_rounds n nl))
  ∧ (∀ n i, (0 < n)%nat ∨ fresh nl →
            i ∈ r_remaining (after_rounds n nl)
            ↔ unleveled (r_store (after_rounds n nl)) i)
  ∧ (fresh nl → single_driver nl → inputs_undriven nl →
     (∃ g, g ∈ Netlist.gates nl ∧ depends_on nl g g) →
     assign_levels nl = Some (Raise CannotResolve)).
Proof.
  destruct (assign_levels_total nl) as [r Hr].
  split; [|split; [|split; [|split]]].
  - exists r. split; [done|]. destruct r as [nl'|e].
    + by apply assign_levels_all_leveled in Hr.
    + by apply assign_levels_raises in Hr.
  - intros fuel. apply assign_levels_fuel_enough.
  - apply assign_levels_raise_round.
  - intros n i. apply work_list_unleveled.
  - intros Hfresh Hsd Hund (g & Hg & Hcycle). destruct r as [nl'|e].
    + exfalso.
      destruct (assign_levels_inv nl nl' Hfresh Hr) as (known & lv & Hinv).
      pose proof (level_inv_contract nl' known lv
                    (single_driver_preserved nl nl' Hr Hsd)
                    (inputs_undriven_preserved nl nl' Hr Hund) Hinv) as Hc.
      destruct (wiring_preserved nl nl' Hr) as [Hw _].
      destruct (wiring_counterpart _ _ g Hw Hg) as (g' & Hg' & Hwg).
      destruct (depends_on_transfer nl nl' Hw g g Hcycle g' Hg' Hwg)
        as (h' & Hh' & Hwh & Hdep).
      assert (h' = g') as ->.
      { apply (NoDup_fmap_eq Gate.output (Netlist.gates nl')); [|done|done|].
        - by apply (single_driver_preserved nl nl').
        - rewrite <- Hwg in Hwh. unfold wiring in Hwh. by inversion Hwh. }
      destruct (contract_depends_on nl' Hc g' g' Hdep)
        as (l1 & l2 & H1 & H2 & Hlt).
      rewrite H1 in H2. inversion H2. lia.
    + apply assign_levels_raises in Hr as Hr'. by subst.
Qed.

(** ** Idempotence *)

Lemma filter_none {A} (P : A → Prop) `{∀ x, Decision (P x)} (l : list A) :
  (∀ x, x ∈ l → ¬ P x) → filter P l = [].
Proof.
  induction l as [|a l IH]; intros Hn; [done|].
  rewrite filter_cons_False by (apply Hn, elem_of_cons; by left).
  apply IH. intros x Hx. apply Hn, elem_of_cons. by right.
Qed.

Lemma ready_wiring known (store store' : list Gate.t) :
  Gate.inputs <$> store' = Gate.inputs <$> store →
  ∀ j, ready known store' j = ready known store j.
Proof.
  intros Hw j. unfold ready.
  assert (Hj : Gate.inputs <$> store' !! j = Gate.inputs <$> store !! j)
    by (rewrite <- !list_lookup_fmap; by rewrite Hw).
  destruct (store' !! j) as [g'|], (store !! j) as [g|]; try done.
  simpl in Hj. inversion Hj as [Hi]. unfold all_known. by rewrite Hi.
Qed.

(** C7: re-running the leveler on a netlist that a successful run has
    leveled leaves every gate with the same level. *)
Theorem assign_levels_idempotent (nl nl' : Netlist.t) :
  assign_levels nl = Some (Ok nl') → assign_levels nl' = Some (Ok nl').
Proof.
  intros Hrun.
  pose proof (assign_levels_all_leveled nl nl' Hrun) as Hall.
  apply assign_levels_Ok in Hrun as (storeF & -> & Hloop).
  simpl in Hall. rewrite Forall_forall in Hall.
  unfold assign_levels, assign_levels_fuel. simpl.
  set (store0 := Netlist.gates nl) in *.
  set (known0 := list_to_set (Netlist.inputs nl) : gset string) in *.
  assert (Hlen : length storeF = length store0).
  { pose proof (level_loop_wiring Gate.output _ (λ _ _, eq_refl) _ _ _ _ _ Hloop) as Hw.
    apply (f_equal length) in Hw. by rewrite !length_fmap in Hw. }
  assert (Hunl : ∀ j, ¬ unleveled storeF j).
  { intros j Hj. apply unleveled_true in Hj as (g & Hg & Hl).
    apply list_elem_of_lookup_2, Hall in Hg as [l Hl']. congruence. }
  unfold all_positions in *. rewrite Hlen.
  destruct (length store0) as [|f] eqn:Hn.
  { simpl in *. inversion Hloop; subst. by destruct nl. }
  change (seq 0 (S f)) with (0%nat :: seq 1 f) in *.
  simpl in Hloop |- *.
  destruct (scan known0 1 (0%nat :: seq 1 f) store0) as [store1 cur1] eqn:Hscan1.
  destruct cur1 as [|c1 cur1]; [done|].
  apply scan_spec in Hscan1 as [Hcur1 Hst1].
  destruct (scan known0 1 (0%nat :: seq 1 f) storeF) as [store2 cur2] eqn:Hscan2.
  apply scan_spec in Hscan2 as [Hcur2 Hst2].
  pose proof (level_loop_wiring Gate.inputs _ (λ _ _, eq_refl) _ _ _ _ _ Hloop) as Hwi.
  assert (Hw1 : Gate.inputs <$> store1 = Gate.inputs <$> store0).
  { apply list_eq. intros j. rewrite !list_lookup_fmap, Hst1.
    destruct (store0 !! j); [|done]. simpl. f_equal. unfold relevel.
    by case_bool_decide. }
  assert (Hcur : cur2 = c1 :: cur1).
  { rewrite Hcur1, Hcur2. apply list_filter_iff. intros j.
    rewrite (ready_wiring known0 store1 storeF) by done.
    by rewrite (ready_wiring known0 store0 store1) by done. }
  assert (Hsame : store2 = storeF).
  { apply list_eq. intros j. rewrite Hst2. unfold relevel.
    case_bool_decide as Hj; [|by destruct (storeF !! j)].
    rewrite Hcur in Hj.
    assert (Hj1 : store1 !! j = (λ g, Gate.set_level g 1) <$> store0 !! j).
    { rewrite Hst1. unfold relevel. rewrite bool_decide_eq_true_2 by done.
      by destruct (store0 !! j). }
    assert (HjF : storeF !! j = store1 !! j).
    { apply (level_loop_frame _ _ _ _ _ _ Hloop).
      intros Hin. apply list_elem_of_filter in Hin as [Hun _].
      apply unleveled_true in Hun as (g & Hg & Hl).
      rewrite Hj1 in Hg. destruct (store0 !! j); [|done].
      simpl in Hg. inversion Hg; subst. done. }
    rewrite HjF, Hj1. by destruct (store0 !! j). }
  subst store2. rewrite Hcur.
  rewrite (filter_none (λ i, unleveled storeF i)) by (intros; apply Hunl).
  destruct f; simpl; by destruct nl.
Qed.

(** * Properties of the evaluator *)

Lemma resolved_values (sv : gmap string Z) (ins : list string) (vs : list Z) :
  Forall2 (λ inp v, sv !! inp = Some v) ins vs →
  resolved (map (λ inp, sv !! inp) ins) = Some vs.
Proof.
  induction 1 as [|inp v ins vs Hv _ IH]; [done|].
  simpl. rewrite Hv, IH. done.
Qed.

Lemma resolved_missing (sv : gmap string Z) (ins : list string) (x : string) :
  x ∈ ins → sv !! x = None → resolved (map (λ inp, sv !! inp) ins) = None.
Proof.
  induction ins as [|y ins IH]; intros Hx Hn; [by apply elem_of_nil in Hx|].
  simpl. apply elem_of_cons in Hx as [->|Hx].
  - by rewrite Hn.
  - destruct (sv !! y); [|done]. by rewrite IH.
Qed.

Lemma sum_from acc vs : foldl Z.add acc vs = acc + foldr Z.add 0 vs.
Proof.
  revert acc. induction vs as [|v vs IH]; intros acc; simpl; [lia|].
  rewrite IH. lia.
Qed.

Lemma sum_bits vs :
  Forall bit vs → sum vs = Z.of_nat (length (filter (λ v, v = 1) vs)).
Proof.
  unfold sum. rewrite sum_from, Z.add_0_l.
  induction 1 as [|v vs [->| ->] _ IH]; [done| |].
  - rewrite filter_cons_False by done. simpl. lia.
  - rewrite filter_cons_True by done. simpl foldr. rewrite IH.
    change (length (1 :: ?l)) with (S (length l)). lia.
Qed.

Lemma parity_sum vs : Forall bit vs → parity vs = sum vs mod 2.
Proof.
  intros H. rewrite (sum_bits vs H). unfold parity.
  generalize (length (filter (λ v, v = 1) vs)). intros n.
  destruct (Nat.odd n) eqn:E.
  - apply Nat.odd_spec in E as [k ->].
    rewrite Nat2Z.inj_add, Nat2Z.inj_mul.
    change (Z.of_nat 2) with 2. change (Z.of_nat 1) with 1.
    by rewrite Z.add_comm, Z.mul_comm, Z_mod_plus_full.
  - assert (Hev : Nat.even n = true) by (by rewrite <- Nat.negb_odd, E).
    apply Nat.even_spec in Hev as [k ->].
    rewrite Nat2Z.inj_mul. change (Z.of_nat 2) with 2.
    by rewrite Z.mul_comm, Z_mod_mult.
Qed.

(** C8: an [xor] gate whose inputs all have 0/1 values evaluates to the
    parity of these values, the sum of the inputs modulo 2, for any number
    of inputs (one, two, three or more). *)
Theorem evaluate_gate_xor_parity (gate : Gate.t) (sv : gmap string Z) (vs : list Z) :
  Gate.gtype gate = "xor"%string →
  input_values_of sv gate vs →
  Forall bit vs →
  (1 ≤ length vs)%nat →
  evaluate_gate gate sv = Ok (parity vs)
  ∧ parity vs = foldr Z.add 0 vs mod 2.
Proof.
  intros Hty Hvs Hbits _. unfold evaluate_gate.
  rewrite (resolved_values _ _ _ Hvs), Hty. simpl.
  rewrite (parity_sum vs Hbits). split; [done|].
  unfold sum. by rewrite sum_from, Z.add_0_l.
Qed.

(** C10: a [not] gate with one or more inputs, all with 0/1 values,
    evaluates to the complement of its first input, whatever the values of
    the other inputs. *)
Theorem evaluate_gate_not_first (gate : Gate.t) (sv : gmap string Z)
    (v : Z) (vs : list Z) :
  Gate.gtype gate = "not"%string →
  input_values_of sv gate (v :: vs) →
  Forall bit (v :: vs) →
  evaluate_gate gate sv = Ok (1 - v).
Proof.
  intros Hty Hvs Hbits. unfold evaluate_gate.
  rewrite (resolved_values _ _ _ Hvs), Hty. simpl.
  apply Forall_cons in Hbits as [[->| ->] _]; done.
Qed.

(** * Properties of the simulator *)

(** ** The level buckets *)

Lemma gates_by_level_snoc gs g :
  gates_by_level (gs ++ [g]) =
  <[Gate.level g := default [] (gates_by_level gs !! Gate.level g) ++ [g]]>
    (gates_by_level gs).
Proof. unfold gates_by_level. by rewrite foldl_app. Qed.

(** The bucket of a level holds the gates of that level, in declaration
    order. *)
Lemma gates_by_level_bucket gs k :
  default [] (gates_by_level gs !! k) = filter (λ g, Gate.level g = k) gs.
Proof.
  induction gs as [|g gs IH] using rev_ind; [done|].
  rewrite gates_by_level_snoc, filter_app.
  destruct (decide (Gate.level g = k)) as [Heq|Hne].
  - rewrite Heq, lookup_insert_eq. simpl. rewrite IH.
    by rewrite (filter_cons_True _ g []).
  - rewrite lookup_insert_ne by done. rewrite IH.
    rewrite (filter_cons_False _ g []) by done. by rewrite app_nil_r.
Qed.

Lemma gates_by_level_key gs k :
  is_Some (gates_by_level gs !! k) ↔ ∃ g, g ∈ gs ∧ Gate.level g = k.
Proof.
  induction gs as [|g gs IH] using rev_ind.
  - unfold gates_by_level. simpl. rewrite lookup_empty. split.
    + by intros [? ?].
    + intros (g & Hg & _). by apply elem_of_nil in Hg.
  - rewrite gates_by_level_snoc. destruct (decide (Gate.level g = k)) as [Heq|Hne].
    + rewrite Heq, lookup_insert_eq. split; [|eauto].
      intros _. exists g. split; [|done]. apply elem_of_app. right.
      by apply list_elem_of_singleton.
    + rewrite lookup_insert_ne by done. rewrite IH. split.
      * intros (g' & Hg' & Hl). exists g'. split; [|done].
        apply elem_of_app. by left.
      * intros (g' & Hg' & Hl). apply elem_of_app in Hg' as [Hg'|Hg']; [eauto|].
        apply list_elem_of_singleton in Hg'. congruence.
Qed.

Lemma elem_of_keys gs k :
  k ∈ map fst (map_to_list (gates_by_level gs)) ↔ ∃ g, g ∈ gs ∧ Gate.level g = k.
Proof.
  rewrite <- gates_by_level_key. change (map fst ?l) with (l.*1).
  rewrite list_elem_of_fmap. split.
  - intros ([k' l] & -> & Hin). apply elem_of_map_to_list in Hin. simpl. eauto.
  - intros [l Hl]. exists (k, l). split; [done|]. by apply elem_of_map_to_list.
Qed.

(** ** The largest level *)

Lemma resolved_all (ks : list (option Z)) :
  Forall is_Some ks → ∃ zs, resolved ks = Some zs ∧ ks = Some <$> zs.
Proof.
  induction 1 as [|k ks [z ->] _ (zs & Hr & ->)]; [by exists []|].
  exists (z :: zs). simpl. by rewrite Hr.
Qed.

Lemma foldl_max_ge zs : ∀ z, z ≤ foldl Z.max z zs ∧ ∀ y, y ∈ zs → y ≤ foldl Z.max z zs.
Proof.
  induction zs as [|a zs IH]; intros z; simpl.
  - split; [lia|]. intros y Hy. by apply elem_of_nil in Hy.
  - destruct (IH (Z.max z a)) as [H1 H2]. split; [lia|].
    intros y Hy. apply elem_of_cons in Hy as [->|Hy]; [lia|auto].
Qed.

Lemma max_key_numbers (ks : list (option Z)) :
  ks ≠ [] → Forall is_Some ks →
  ∃ m, max_key ks = Ok (Some m) ∧ ∀ z, Some z ∈ ks → z ≤ m.
Proof.
  intros Hne Hall. destruct (resolved_all ks Hall) as (zs & Hr & ->).
  destruct zs as [|z zs]; [done|].
  destruct (foldl_max_ge zs z) as [H1 H2].
  assert (Hin : ∀ y, Some y ∈ Some <$> (z :: zs) → y ≤ foldl Z.max z zs).
  { intros y Hy. apply list_elem_of_fmap in Hy as (y' & Hy' & Hy).
    inversion Hy'; subst y'. apply elem_of_cons in Hy as [->|Hy]; auto. }
  destruct zs as [|z' zs].
  - exists z. split; [done|]. exact Hin.
  - exists (foldl Z.max z (z' :: zs)). split; [|exact Hin].
    unfold max_key. rewrite Hr. done.
Qed.

(** ** Running the gates *)

Lemma run_gate_Raise l e : foldl run_gate (Raise e) l = Raise e.
Proof. by induction l. Qed.

Lemma run_level_Raise by_level lvls e :
  foldl (run_level by_level) (Raise e) lvls = Raise e.
Proof.
  induction lvls as [|l lvls IH]; [done|]. simpl.
  unfold run_level at 2. by rewrite run_gate_Raise.
Qed.

Lemma evaluate_gate_error g sv e :
  evaluate_gate g sv = Raise e → evaluation_error e.
Proof.
  unfold evaluate_gate.
  destruct (resolved _) as [vs|]; [|by inversion 1].
  repeat (destruct (String.eqb _ _); [by inversion 1|]).
  destruct (String.eqb _ _).
  - destruct vs; by inversion 1.
  - by inversion 1.
Qed.

Section Run.
Variables (nl : Netlist.t) (iv : gmap string Z).

(** Running a list of gates of the netlist: either an evaluation raises,
    or every gate of the list was evaluated with success, in a state that
    knows only reachable names. *)
Lemma run_gates_spec (l : list Gate.t) :
  ∀ sv, names_ok nl iv sv → (∀ g, g ∈ l → g ∈ Netlist.gates nl) →
  match foldl run_gate (Ok sv) l with
  | Ok sv' =>
      names_ok nl iv sv'
      ∧ ∀ g, g ∈ l → ∃ sv0 v, names_ok nl iv sv0 ∧ evaluate_gate g sv0 = Ok v
  | Raise e => evaluation_error e
  end.
Proof.
  induction l as [|g l IH]; intros sv Hsv Hl; simpl.
  - split; [done|]. intros g Hg. by apply elem_of_nil in Hg.
  - destruct (evaluate_gate g sv) as [v|e] eqn:Hev; simpl.
    + assert (Hsv' : names_ok nl iv (<[Gate.output g := v]> sv)).
      { unfold names_ok, reachable_names in *. rewrite dom_insert_L.
        apply union_subseteq. split; [|done].
        apply singleton_subseteq_l, elem_of_union. right.
        apply elem_of_list_to_set, list_elem_of_fmap_2, Hl.
        apply elem_of_cons. by left. }
      specialize (IH _ Hsv' (λ g' Hg', Hl g' (proj2 (elem_of_cons _ _ _) (or_intror Hg')))).
      destruct (foldl run_gate _ l) as [sv'|e]; [|done].
      destruct IH as [Hn Hgs]. split; [done|].
      intros g' Hg'. apply elem_of_cons in Hg' as [->|Hg']; eauto.
    + rewrite run_gate_Raise. by eapply evaluate_gate_error.
Qed.

Lemma run_levels_spec (lvls : list Z) :
  ∀ sv, names_ok nl iv sv →
  match foldl (run_level (gates_by_level (Netlist.gates nl))) (Ok sv) lvls with
  | Ok sv' =>
      names_ok nl iv sv'
      ∧ ∀ lvl g, lvl ∈ lvls → g ∈ Netlist.gates nl → Gate.level g = Some lvl →
          ∃ sv0 v, names_ok nl iv sv0 ∧ evaluate_gate g sv0 = Ok v
  | Raise e => evaluation_error e
  end.
Proof.
  induction lvls as [|lvl lvls IH]; intros sv Hsv; simpl.
  - split; [done|]. intros lvl g Hl. by apply elem_of_nil in Hl.
  - unfold run_level at 2. rewrite gates_by_level_bucket.
    pose proof (run_gates_spec
                  (filter (λ g, Gate.level g = Some lvl) (Netlist.gates nl)) sv Hsv)
      as Hrun.
    destruct (foldl run_gate (Ok sv) _) as [sv1|e].
    + destruct Hrun as [Hsv1 Hgs].
      { intros g Hg. by apply list_elem_of_filter in Hg as [_ ?]. }
      specialize (IH sv1 Hsv1).
      destruct (foldl (run_level _) (Ok sv1) lvls) as [sv'|e]; [|done].
      destruct IH as [Hn Hrest]. split; [done|].
      intros lvl' g Hl Hg Hgl. apply elem_of_cons in Hl as [->|Hl].
      * apply Hgs. by apply list_elem_of_filter.
      * eauto.
    + rewrite run_level_Raise. apply Hrun.
      intros g Hg. by apply list_elem_of_filter in Hg as [_ ?].
Qed.

Lemma names_ok_init : names_ok nl iv iv.
Proof. unfold names_ok, reachable_names. apply union_subseteq_l. Qed.
End Run.

Lemma read_outputs_lookup sv outs out :
  out ∈ outs → read_outputs sv outs !! out = Some (sv !! out).
Proof.
  unfold read_outputs. induction outs as [|o outs IH] using rev_ind.
  - intros H. by apply elem_of_nil in H.
  - intros H. rewrite foldl_app. simpl.
    destruct (decide (o = out)) as [->|Hne]; [by rewrite lookup_insert_eq|].
    rewrite lookup_insert_ne by done. apply IH.
    apply elem_of_app in H as [H|H]; [done|].
    apply list_elem_of_singleton in H. congruence.
Qed.

Lemma not_reachable nl iv (sv : gmap string Z) x :
  dom sv ⊆ reachable_names nl iv →
  x ∉ dom iv → Forall (λ d, Gate.output d ≠ x) (Netlist.gates nl) →
  sv !! x = None.
Proof.
  intros Hsv Hiv Hout. apply not_elem_of_dom. intros Hx.
  apply Hsv in Hx. unfold reachable_names in Hx.
  apply elem_of_union in Hx as [Hx|Hx]; [done|].
  apply elem_of_list_to_set, list_elem_of_fmap in Hx as (d & Hd & Hin).
  rewrite Forall_forall in Hout. by apply (Hout d Hin).
Qed.

(** C3 (amended): [simulate] does not compare [input_values] with the
    declared primary inputs.  When every gate has a level >= 1 and some gate
    reads a name that [input_values] lacks and that no gate drives, the
    simulation fails with an error raised by the evaluation of a gate, and
    returns no output values. *)
Theorem simulate_missing_input (nl : Netlist.t) (iv : gmap string Z)
    (g : Gate.t) (x : string) :
  Forall (λ g, ∃ l, Gate.level g = Some l ∧ 1 ≤ l) (Netlist.gates nl) →
  g ∈ Netlist.gates nl → x ∈ Gate.inputs g →
  x ∉ dom iv → Forall (λ d, Gate.output d ≠ x) (Netlist.gates nl) →
  ∃ e, simulate nl iv = Raise e ∧ evaluation_error e.
Proof.
  intros Hlev Hg Hx Hiv Hout. rewrite Forall_forall in Hlev.
  destruct (Hlev g Hg) as (lg & Hlg & Hlg1).
  destruct (max_key_numbers (map fst (map_to_list (gates_by_level (Netlist.gates nl)))))
    as (m & Hm & Hmax).
  - intros Hnil. assert (Hk : Some lg ∈ map fst (map_to_list (gates_by_level (Netlist.gates nl))))
      by (apply elem_of_keys; eauto).
    rewrite Hnil in Hk. by apply elem_of_nil in Hk.
  - apply Forall_forall. intros k Hk. apply elem_of_keys in Hk as (g' & Hg' & <-).
    destruct (Hlev g' Hg') as (l & -> & _). eauto.
  - unfold simulate. rewrite Hm. simpl.
    pose proof (run_levels_spec nl iv (seqZ 1 m) iv (names_ok_init nl iv)) as Hrun.
    destruct (foldl _ (Ok iv) (seqZ 1 m)) as [sv|e]; simpl; [|eauto].
    exfalso. destruct Hrun as [_ Hgs].
    destruct (Hgs lg g) as (sv0 & v & Hsv0 & Hev); [|done|done|].
    + apply elem_of_seqZ. split; [done|].
      assert (lg ≤ m) by (apply Hmax, elem_of_keys; eauto). lia.
    + unfold evaluate_gate in Hev.
      rewrite (resolved_missing sv0 _ x Hx) in Hev; [done|].
      by eapply not_reachable.
Qed.

(** ** The simulation of a leveled netlist returns *)

Lemma resolved_present (sv : gmap string Z) (ins : list string) :
  (∀ x, x ∈ ins → x ∈ dom sv) →
  ∃ vs, resolved (map (λ inp, sv !! inp) ins) = Some vs ∧ length vs = length ins.
Proof.
  induction ins as [|y ins IH]; intros H; [by exists []|].
  destruct IH as (vs & Hvs & Hlen).
  { intros x Hx. apply H, elem_of_cons. by right. }
  assert (Hy : y ∈ dom sv) by (apply H, elem_of_cons; by left).
  apply elem_of_dom in Hy as [v Hv].
  exists (v :: vs). simpl. rewrite Hv, Hvs. simpl. by rewrite Hlen.
Qed.

Lemma evaluate_gate_returns g (sv : gmap string Z) :
  supported g → (∀ x, x ∈ Gate.inputs g → x ∈ dom sv) →
  ∃ v, evaluate_gate g sv = Ok v.
Proof.
  intros Hsup Hin. unfold evaluate_gate.
  destruct (resolved_present sv (Gate.inputs g) Hin) as (vs & -> & Hlen).
  destruct Hsup as [Hty|[Hty Hne]].
  - repeat (apply elem_of_cons in Hty as [->|Hty]; [simpl; eauto|]).
    by apply elem_of_nil in Hty.
  - rewrite Hty. simpl. destruct vs as [|v vs]; [|eauto].
    destruct (Gate.inputs g); [done|simpl in Hlen; lia].
Qed.

Lemma run_gates_returns (l : list Gate.t) :
  ∀ sv : gmap string Z,
    (∀ g, g ∈ l → supported g ∧ ∀ x, x ∈ Gate.inputs g → x ∈ dom sv) →
    ∃ sv', foldl run_gate (Ok sv) l = Ok sv'
           ∧ dom sv ⊆ dom sv' ∧ ∀ g, g ∈ l → Gate.output g ∈ dom sv'.
Proof.
  induction l as [|g l IH]; intros sv H; simpl.
  - exists sv. split; [done|]. split; [done|].
    intros g Hg. by apply elem_of_nil in Hg.
  - destruct (H g) as [Hsup Hin]; [apply elem_of_cons; by left|].
    destruct (evaluate_gate_returns g sv Hsup Hin) as [v Hv].
    rewrite Hv. simpl.
    destruct (IH (<[Gate.output g := v]> sv)) as (sv' & Hrun & Hsub & Hout).
    { intros g' Hg'. destruct (H g') as [Hsup' Hin']; [apply elem_of_cons; by right|].
      split; [done|]. intros x Hx. rewrite dom_insert_L.
      apply elem_of_union. right. by apply Hin'. }
    rewrite dom_insert_L in Hsub.
    exists sv'. split; [done|]. split.
    + intros x Hx. apply Hsub, elem_of_union. by right.
    + intros g' Hg'. apply elem_of_cons in Hg' as [->|Hg']; [|by apply Hout].
      apply Hsub, elem_of_union. left. by apply elem_of_singleton.
Qed.

Section Returns.
Variables (nl : Netlist.t) (iv : gmap string Z) (known : gset string) (lv : Z).
Hypothesis Hinv : level_inv (Netlist.inputs nl) (Netlist.gates nl) [] known lv.
Hypothesis Hsup : Forall supported (Netlist.gates nl).
Hypothesis Hiv : list_to_set (Netlist.inputs nl) ⊆ dom iv.

Lemma run_level_returns (k : Z) (sv : gmap string Z) :
  knows_up_to nl iv k sv →
  ∃ sv', run_level (gates_by_level (Netlist.gates nl)) (Ok sv) (k + 1) = Ok sv'
         ∧ knows_up_to nl iv (k + 1) sv'.
Proof.
  intros [Hdom Hk]. unfold run_level. rewrite gates_by_level_bucket.
  destruct (run_gates_returns
              (filter (λ g, Gate.level g = Some (k + 1)) (Netlist.gates nl)) sv)
    as (sv' & Hrun & Hsub & Hout).
  - intros g Hg. apply list_elem_of_filter in Hg as [Hl Hg].
    rewrite Forall_forall in Hsup. split; [by apply Hsup|].
    intros x Hx.
    destruct (inv_below _ _ _ _ _ Hinv g (k + 1) x Hg Hl Hx)
      as [Hin|(d & ld & Hd & <- & Hld & Hlt)].
    + apply Hdom, Hiv. by apply elem_of_list_to_set.
    + apply (Hk d ld Hd Hld). lia.
  - exists sv'. split; [done|]. split; [set_solver|].
    intros d ld Hd Hld Hle. destruct (decide (ld = k + 1)) as [->|Hne].
    + apply Hout. by apply list_elem_of_filter.
    + apply Hsub, (Hk d ld Hd Hld). lia.
Qed.

Lemma run_levels_returns (n : nat) :
  ∀ (k : Z) (sv : gmap string Z),
    knows_up_to nl iv k sv →
    ∃ sv', foldl (run_level (gates_by_level (Netlist.gates nl))) (Ok sv)
             (seqZ (k + 1) (Z.of_nat n)) = Ok sv'.
Proof.
  induction n as [|n IH]; intros k sv Hk.
  - exists sv. done.
  - rewrite seqZ_cons by lia. simpl.
    destruct (run_level_returns k sv Hk) as (sv1 & -> & Hk1).
    replace (Z.pred (Z.of_nat (S n))) with (Z.of_nat n) by lia.
    replace (Z.succ (k + 1)) with (k + 1 + 1) by lia.
    by apply IH.
Qed.

Lemma simulate_leveled_returns :
  Netlist.gates nl ≠ [] → ∃ r, simulate nl iv = Ok r.
Proof.
  intros Hne.
  assert (Hlev : ∀ g, g ∈ Netlist.gates nl → ∃ l, Gate.level g = Some l ∧ 1 ≤ l).
  { intros g Hg. destruct (Gate.level g) as [l|] eqn:Hl.
    - exists l. split; [done|]. by destruct (inv_range _ _ _ _ _ Hinv g l Hg Hl).
    - exfalso. apply list_elem_of_lookup in Hg as [j Hj].
      apply (elem_of_nil j), (inv_rem _ _ _ _ _ Hinv), unleveled_true. eauto. }
  destruct (max_key_numbers (map fst (map_to_list (gates_by_level (Netlist.gates nl)))))
    as (m & Hm & Hmax).
  - destruct (Netlist.gates nl) as [|g gs] eqn:Hgs; [done|].
    destruct (Hlev g) as (l & Hl & _); [apply elem_of_cons; by left|].
    intros Hnil.
    assert (Hk : Some l ∈ map fst (map_to_list (gates_by_level (g :: gs)))).
    { apply elem_of_keys. exists g. split; [apply elem_of_cons; by left|done]. }
    rewrite Hnil in Hk. by apply elem_of_nil in Hk.
  - apply Forall_forall. intros k Hk. apply elem_of_keys in Hk as (g & Hg & <-).
    destruct (Hlev g Hg) as (l & -> & _). eauto.
  - unfold simulate. rewrite Hm. simpl.
    destruct (Z_le_gt_dec 0 m) as [Hpos|Hneg].
    + destruct (run_levels_returns (Z.to_nat m) 0 iv) as (sv & Hsv).
      { split; [done|]. intros d ld Hd Hld Hle.
        destruct (Hlev d Hd) as (l & Hl & Hl1). rewrite Hld in Hl.
        inversion Hl; subst. lia. }
      rewrite Z2Nat.id in Hsv by done. change (0 + 1) with 1 in Hsv.
      rewrite Hsv. simpl. eauto.
    + rewrite seqZ_nil by lia. simpl. eauto.
Qed.
End Returns.

(** A netlist leveled by a successful run, with at least one gate, only
    supported gates and a value for every primary input, is simulated
    without an error. *)
Lemma simulate_returns (nl nl' : Netlist.t) (iv : gmap string Z) :
  fresh nl → assign_levels nl = Some (Ok nl') →
  Netlist.gates nl' ≠ [] → Forall supported (Netlist.gates nl') →
  list_to_set (Netlist.inputs nl') ⊆ dom iv →
  ∃ r, simulate nl' iv = Ok r.
Proof.
  intros Hfresh Hrun Hne Hsup Hiv.
  destruct (assign_levels_inv nl nl' Hfresh Hrun) as (known & lv & Hinv).
  by eapply simulate_leveled_returns.
Qed.

(** * Properties of the parser *)

Lemma append_gate_gates st ty nm ids :
  l_gates (append_gate st ty nm ids)
  = l_gates st ++ l_gates (append_gate (mk_lists [] [] [] []) ty nm ids).
Proof. destruct ids; simpl; [by rewrite app_nil_r|done]. Qed.

(** A statement only ever appends to the gate sequence. *)
Lemma parse_statement_gates st stmt :
  l_gates (parse_statement st stmt) = l_gates st ++ gates_of_statement stmt.
Proof.
  unfold gates_of_statement, parse_statement.
  destruct (_ || _); [by rewrite app_nil_r|].
  destruct (re_match re_declaration stmt).
  - repeat (destruct (String.eqb _ _); [by rewrite app_nil_r|]).
    by rewrite app_nil_r.
  - destruct (re_match re_named_gate stmt); [apply append_gate_gates|].
    destruct (re_match re_anonymous_gate stmt); [apply append_gate_gates|].
    by rewrite app_nil_r.
Qed.

Lemma foldl_parse_statement_gates stmts :
  ∀ st, l_gates (foldl parse_statement st stmts)
        = l_gates st ++ concat (gates_of_statement <$> stmts).
Proof.
  induction stmts as [|s stmts IH]; intros st; simpl; [by rewrite app_nil_r|].
  by rewrite IH, parse_statement_gates, <- app_assoc.
Qed.

Lemma gates_of_statements_concat stmts :
  gates_of_statements stmts = concat (gates_of_statement <$> stmts).
Proof.
  unfold gates_of_statements, parse_statements.
  by rewrite foldl_parse_statement_gates.
Qed.

Lemma parse_gates text :
  Netlist.gates (parse_netlist_text text)
  = concat (gates_of_statement <$> statements_of text).
Proof. unfold parse_netlist_text. simpl. apply gates_of_statements_concat. Qed.

(** A statement with the shape of a gate instantiation and no identifier
    between its parentheses adds no gate. *)
Lemma empty_port_list_no_gate stmt ports :
  port_list stmt = Some ports → find_identifiers ports = [] →
  gates_of_statement stmt = [].
Proof.
  unfold port_list, gates_of_statement, parse_statement. intros Hp Hids.
  destruct (_ || _); [done|].
  destruct (re_match re_declaration stmt).
  { repeat (destruct (String.eqb _ _); [done|]). done. }
  destruct (re_match re_named_gate stmt) as [mg|].
  { inversion Hp as [Hg]. by rewrite Hg, Hids. }
  destruct (re_match re_anonymous_gate stmt) as [mg2|]; [|done].
  inversion Hp as [Hg]. by rewrite Hg, Hids.
Qed.

(** Every gate that the parser builds is unleveled. *)
Lemma gates_of_statement_fresh stmt g :
  g ∈ gates_of_statement stmt → Gate.level g = None.
Proof.
  unfold gates_of_statement, parse_statement.
  destruct (_ || _); [by intros ?%elem_of_nil|].
  destruct (re_match re_declaration stmt).
  { repeat (destruct (String.eqb _ _); [by intros ?%elem_of_nil|]).
    by intros ?%elem_of_nil. }
  assert (Happ : ∀ ty nm ids,
             g ∈ l_gates (append_gate (mk_lists [] [] [] []) ty nm ids) →
             Gate.level g = None).
  { intros ty nm [|out ins]; simpl; [by intros ?%elem_of_nil|].
    by intros ->%list_elem_of_singleton. }
  destruct (re_match re_named_gate stmt); [apply Happ|].
  destruct (re_match re_anonymous_gate stmt); [apply Happ|].
  by intros ?%elem_of_nil.
Qed.

Lemma parse_fresh text : fresh (parse_netlist_text text).
Proof.
  unfold fresh. rewrite parse_gates. apply Forall_forall. intros g Hg.
  apply list_elem_of_In, in_concat in Hg as (gs & Hgs & Hg).
  apply list_elem_of_In, list_elem_of_fmap in Hgs as (stmt & -> & _).
  apply list_elem_of_In in Hg. by eapply gates_of_statement_fresh.
Qed.

(** C6: a statement of the text that has the shape of a gate instantiation
    and whose parenthesized port list contains no identifier adds no gate:
    the gate sequence of the parsed netlist is the one built from the other
    statements. *)
Theorem empty_port_list_dropped (text : string)
    (before after : list (list ascii)) (stmt ports : list ascii) :
  statements_of text = before ++ stmt :: after →
  port_list stmt = Some ports →
  find_identifiers ports = [] →
  Netlist.gates (parse_netlist_text text) = gates_of_statements (before ++ after).
Proof.
  intros Hst Hp Hids.
  rewrite parse_gates, gates_of_statements_concat, Hst.
  rewrite !fmap_app, fmap_cons, !concat_app, concat_cons.
  by rewrite (empty_port_list_no_gate stmt ports Hp Hids).
Qed.

(** C2 (amended): the parser raises no duplicate-driver error.  When two
    statements of the text instantiate gates with the same output signal,
    both gates are in the gate sequence of the parsed netlist, the first
    before the second. *)
Theorem duplicate_driver_accepted (text : string)
    (before between after : list (list ascii)) (s1 s2 : list ascii)
    (g1 g2 : Gate.t) :
  statements_of text = before ++ s1 :: between ++ s2 :: after →
  gates_of_statement s1 = [g1] →
  gates_of_statement s2 = [g2] →
  Gate.output g1 = Gate.output g2 →
  Netlist.gates (parse_netlist_text text)
  = gates_of_statements before ++ g1 :: gates_of_statements between
      ++ g2 :: gates_of_statements after.
Proof.
  intros Hst H1 H2 _.
  rewrite parse_gates, !gates_of_statements_concat, Hst.
  rewrite !fmap_app, !fmap_cons, !concat_app, !concat_cons, H1.
  rewrite !fmap_app, !fmap_cons, !concat_app, !concat_cons, H2.
  done.
Qed.

(** * The claims on concrete netlists *)

(** Comments are removed before the text is split at semicolons. *)
Example statements_of_commented :
  string_of_list_ascii <$>
    statements_of "input a, /* x ; y */ b; // c ; d
 nand G1 (); NOT (q, a) ;;"
  = ["input a,  b"; "nand G1 ()"; "NOT (q, a)"]%string.
Proof. vm_compute. reflexivity. Qed.

(** Identifiers start at a letter or an underscore. *)
Example find_identifiers_ports :
  find_identifiers (list_ascii_of_string " w , 3x, y_1 ") = ["w"; "x"; "y_1"]%string.
Proof. vm_compute. reflexivity. Qed.

(** A gate with one port has an output and no input. *)
Example parse_one_port :
  Netlist.gates (parse_netlist_text "not G (x);")
  = [Gate.new "not" (Some "G") "x" []].
Proof. vm_compute. reflexivity. Qed.

Example parse_c17 : parse_netlist_text c17_example = c17.
Proof. vm_compute. reflexivity. Qed.

Example level_c17 : assign_levels (parse_netlist_text c17_example) = Some (Ok c17_leveled).
Proof. vm_compute. reflexivity. Qed.

(** C4 (as stated) fails: the simulation of the example network with
    N1=1, N2=0, N3=1, N6=0, N7=0 does not yield N22=0 and N23=1. *)
Lemma c17_not_0_1 :
  ¬ ∃ r, simulate c17_leveled c17_values = Ok r
         ∧ r !! "N22"%string = Some (Some 0)
         ∧ r !! "N23"%string = Some (Some 1).
Proof.
  intros (r & Hr & H22 & _).
  assert (Hsim : simulate c17_leveled c17_values
                 = Ok (<["N22"%string := Some 1]> {["N23"%string := Some 0]}))
    by (vm_compute; reflexivity).
  rewrite Hsim in Hr. inversion Hr; subst r.
  vm_compute in H22. discriminate H22.
Qed.

(** C4 (amended): parsing, leveling and simulating the example network with
    N1=1, N2=0, N3=1, N6=0, N7=0 yields N22=1 and N23=0. *)
Theorem c17_simulation :
  assign_levels (parse_netlist_text c17_example) = Some (Ok c17_leveled)
  ∧ simulate c17_leveled c17_values
    = Ok (<["N22"%string := Some 1]> {["N23"%string := Some 0]}).
Proof. split; vm_compute; reflexivity. Qed.

(** C1 (as stated) fails: leveling succeeds on a netlist in which [x] has
    two drivers, and gate G2 (level 2) reads [x], which G3 (level 3)
    drives. *)
Lemma feedback_breaks_contract :
  assign_levels (parse_netlist_text feedback_text) = Some (Ok feedback_leveled)
  ∧ leveled "not" "G2" "y" ["x"%string] 2 ∈ Netlist.gates feedback_leveled
  ∧ ¬ level_contract feedback_leveled (leveled "not" "G2" "y" ["x"%string] 2).
Proof.
  split; [vm_compute; reflexivity|]. split; [compute_done|].
  intros (l & Hl & _ & Hstrict & _).
  destruct (Hstrict (leveled "not" "G3" "x" ["y"%string] 3)) as (ld & Hld & Hlt).
  - compute_done.
  - compute_done.
  - simpl in Hl, Hld. inversion Hl. inversion Hld. lia.
Qed.

Lemma assign_levels_contract_c17 :
  level_contract c17_leveled (leveled "nand" "NAND2_5" "N22" ["N10"; "N16"]%string 3).
Proof.
  apply (assign_levels_contract (parse_netlist_text c17_example) c17_leveled).
  - compute_done.
  - compute_done.
  - compute_done.
  - vm_compute. reflexivity.
  - compute_done.
Defined.

(** C2 (as stated) fails: the text instantiates two gates with output [x];
    the parser returns a netlist that holds both. *)
Lemma two_drivers_parsed :
  parse_netlist_text two_drivers_text = two_drivers
  ∧ Gate.output <$> Netlist.gates two_drivers = ["x"; "x"]%string.
Proof. split; vm_compute; reflexivity. Qed.

Lemma duplicate_driver_accepted_two_drivers :
  Netlist.gates (parse_netlist_text two_drivers_text)
  = gates_of_statements
      [list_ascii_of_string "input a, b"; list_ascii_of_string "output x"]
    ++ Gate.new "and" (Some "G1") "x" ["a"; "b"]%string
    :: gates_of_statements []
    ++ Gate.new "or" (Some "G2") "x" ["a"; "b"]%string
    :: gates_of_statements [].
Proof.
  apply (duplicate_driver_accepted two_drivers_text
           [list_ascii_of_string "input a, b"; list_ascii_of_string "output x"]
           [] [] (list_ascii_of_string "and G1 (x, a, b)")
           (list_ascii_of_string "or G2 (x, a, b)")).
  - vm_compute. reflexivity.
  - vm_compute. reflexivity.
  - vm_compute. reflexivity.
  - reflexivity.
Defined.

(** C3 (as stated) fails: an assignment that lacks the declared input [b],
    and one that names the undeclared [q], are both simulated without an
    error. *)
Lemma simulate_accepts_other_names :
  "b"%string ∈ Netlist.inputs inverter_leveled
  ∧ simulate inverter_leveled {["a"%string := 1]}
    = Ok (<["y"%string := Some 0]> {["z"%string := None]})
  ∧ ("q"%string ∉ Netlist.inputs inverter_leveled)
  ∧ simulate inverter_leveled
      (<["q"%string := 1]> (<["b"%string := 0]> {["a"%string := 1]}))
    = Ok (<["y"%string := Some 0]> {["z"%string := None]}).
Proof.
  split; [compute_done|]. split; [vm_compute; reflexivity|].
  split; [compute_done|]. vm_compute. reflexivity.
Qed.

Lemma simulate_missing_input_c17 :
  ∃ e, simulate c17_leveled ∅ = Raise e ∧ evaluation_error e.
Proof.
  apply (simulate_missing_input c17_leveled ∅
           (leveled "nand" "NAND2_1" "N10" ["N1"; "N3"]%string 1) "N1"%string).
  - repeat constructor; eexists; (split; [reflexivity|lia]).
  - compute_done.
  - compute_done.
  - compute_done.
  - compute_done.
Defined.

(** C5 (as stated) fails: gate G reads its own output [a], which is also a
    primary input, and leveling gives it level 1 without an error. *)
Lemma self_loop_not_detected :
  Netlist.gates (parse_netlist_text self_loop_text) = [self_loop_gate]
  ∧ depends_on (parse_netlist_text self_loop_text) self_loop_gate self_loop_gate
  ∧ assign_levels (parse_netlist_text self_loop_text) = Some (Ok self_loop_leveled).
Proof.
  split; [vm_compute; reflexivity|]. split; [|vm_compute; reflexivity].
  apply tc_once. repeat split; compute_done.
Qed.

Lemma assign_levels_terminates_ring :
  assign_levels (parse_netlist_text ring_text) = Some (Raise CannotResolve).
Proof.
  apply (proj2 (proj2 (proj2 (proj2 (assign_levels_terminates (parse_netlist_text ring_text)))))).
  - compute_done.
  - compute_done.
  - compute_done.
  - exists (Gate.new "nand" (Some "G1") "y" ["a"; "x"]%string).
    split; [compute_done|].
    apply tc_l with (Gate.new "not" (Some "G2") "x" ["y"]%string).
    + repeat split; compute_done.
    + apply tc_once. repeat split; compute_done.
Defined.

Lemma empty_port_list_dropped_G1 :
  Netlist.gates (parse_netlist_text empty_ports_text)
  = gates_of_statements
      ([list_ascii_of_string "input a"] ++ [list_ascii_of_string "not G2 (y, a)"]).
Proof.
  apply (empty_port_list_dropped empty_ports_text
           [list_ascii_of_string "input a"]
           [list_ascii_of_string "not G2 (y, a)"]
           (list_ascii_of_string "nand G1 ()") []).
  - vm_compute. reflexivity.
  - vm_compute. reflexivity.
  - vm_compute. reflexivity.
Defined.

Lemma assign_levels_idempotent_c17 :
  assign_levels c17_leveled = Some (Ok c17_leveled).
Proof.
  apply (assign_levels_idempotent (parse_netlist_text c17_example) c17_leveled).
  vm_compute. reflexivity.
Defined.

Lemma evaluate_gate_xor_parity_xor3 :
  evaluate_gate xor3 abc_values = Ok (parity [1; 1; 1])
  ∧ parity [1; 1; 1] = foldr Z.add 0 [1; 1; 1] mod 2.
Proof.
  apply (evaluate_gate_xor_parity xor3 abc_values [1; 1; 1]).
  - reflexivity.
  - unfold input_values_of. compute_done.
  - unfold bit. compute_done.
  - simpl. lia.
Defined.

Lemma evaluate_gate_not_first_not2 : evaluate_gate not2 ab_values = Ok (1 - 0).
Proof.
  apply (evaluate_gate_not_first not2 ab_values 0 [1]).
  - reflexivity.
  - unfold input_values_of. compute_done.
  - unfold bit. compute_done.
Defined.


(** The rounds of the leveler on the example network: three rounds level
    every gate. *)
Example c17_rounds :
  r_remaining (after_rounds 3 c17) = []
  ∧ r_store (after_rounds 3 c17) = Netlist.gates c17_leveled.
Proof. split; vm_compute; reflexivity. Qed.

(** The first round levels G1; in the second, G2 waits for [w], no gate is
    leveled, and the leveler raises. *)
Example waiting_rounds :
  ¬ levels_none (after_rounds 0 (parse_netlist_text waiting_text))
  ∧ levels_none (after_rounds 1 (parse_netlist_text waiting_text))
  ∧ assign_levels (parse_netlist_text waiting_text) = Some (Raise CannotResolve).
Proof.
  split; [|split; [split|]].
  - intros [_ H]. specialize (H 0%nat). revert H. vm_compute.
    intros H. discriminate H. apply elem_of_cons. by left.
  - vm_compute. discriminate.
  - apply Forall_forall. vm_compute. repeat constructor.
  - vm_compute. reflexivity.
Qed.

(** * Further properties of the parser *)

(** ** [unique_preserve] *)

Lemma unique_preserve_from (l : list string) :
  ∀ (seen : gset string) (out : list string),
    (∀ x, x ∈ seen ↔ x ∈ out) →
    (foldl (fun st x =>
              if bool_decide (x ∈ st.1) then st
              else ({[x]} ∪ st.1, st.2 ++ [x]))
           (seen, out) l).2
    = out ++ filter (λ y, y ∉ out) (first_occurrences l).
Proof.
  induction l as [|x l IH]; intros seen out Hseen; simpl.
  - by rewrite filter_nil, app_nil_r.
  - case_bool_decide as Hx.
    + rewrite (IH seen out Hseen).
      rewrite filter_cons_False by (intros Hn; apply Hn; by apply Hseen).
      f_equal. rewrite list_filter_filter. apply list_filter_iff.
      intros y. split; [|tauto]. intros Hy. split; [done|].
      intros ->. apply Hy. by apply Hseen.
    + rewrite (IH ({[x]} ∪ seen) (out ++ [x])).
      * rewrite filter_cons_True by (intros Hn; apply Hx; by apply Hseen).
        rewrite <- app_assoc. simpl. do 2 f_equal.
        rewrite list_filter_filter. apply list_filter_iff.
        intros y. rewrite elem_of_app, list_elem_of_singleton. tauto.
      * intros y. rewrite elem_of_union, elem_of_singleton, elem_of_app,
          list_elem_of_singleton, Hseen. tauto.
Qed.

Lemma unique_preserve_first_occurrences l :
  unique_preserve l = first_occurrences l.
Proof.
  unfold unique_preserve. rewrite (unique_preserve_from l ∅ []).
  - simpl. induction (first_occurrences l) as [|y ys IH]; [done|].
    rewrite filter_cons_True by apply not_elem_of_nil. by rewrite IH.
  - intros x. rewrite elem_of_empty, elem_of_nil. tauto.
Qed.

Lemma elem_of_first_occurrences l x : x ∈ first_occurrences l ↔ x ∈ l.
Proof.
  induction l as [|a l IH]; simpl; [done|].
  rewrite !elem_of_cons, list_elem_of_filter, IH. simpl.
  destruct (decide (x = a)); naive_solver.
Qed.

Lemma NoDup_first_occurrences l : NoDup (first_occurrences l).
Proof.
  induction l as [|a l IH]; simpl; [constructor|].
  apply NoDup_cons. split.
  - rewrite list_elem_of_filter. tauto.
  - by apply NoDup_filter.
Qed.

Lemma first_occurrences_NoDup l : NoDup l → first_occurrences l = l.
Proof.
  induction 1 as [|a l Ha _ IH]; simpl; [done|].
  rewrite IH. f_equal. clear IH.
  induction l as [|b l IH]; [done|].
  apply not_elem_of_cons in Ha as [Hab Ha].
  rewrite filter_cons_True by done. by rewrite IH.
Qed.

(** X1: [unique_preserve] returns the distinct elements of its argument in
    the order of their first occurrence: the result has no duplicates and
    the same elements, its head is the head of the argument, which is
    removed from what follows, and a list without duplicates is returned
    as it is. *)
Theorem unique_preserve_spec (l : list string) :
  NoDup (unique_preserve l)
  ∧ (∀ x, x ∈ unique_preserve l ↔ x ∈ l)
  ∧ (∀ x l', l = x :: l' →
       unique_preserve l = x :: filter (λ y, y ≠ x) (unique_preserve l'))
  ∧ (NoDup l → unique_preserve l = l).
Proof.
  rewrite unique_preserve_first_occurrences. split; [|split; [|split]].
  - apply NoDup_first_occurrences.
  - apply elem_of_first_occurrences.
  - intros x l' ->. by rewrite unique_preserve_first_occurrences.
  - apply first_occurrences_NoDup.
Qed.

(** X2: the input, output and wire lists of a parsed netlist have no
    duplicates. *)
Theorem parse_names_NoDup (text : string) :
  NoDup (Netlist.inputs (parse_netlist_text text))
  ∧ NoDup (Netlist.outputs (parse_netlist_text text))
  ∧ NoDup (Netlist.wires (parse_netlist_text text)).
Proof.
  unfold parse_netlist_text. simpl.
  rewrite !unique_preserve_first_occurrences.
  repeat split; apply NoDup_first_occurrences.
Qed.

(** ** [remove_comments] *)

Lemma sub_scan_sublist r s : ∀ prev skip, sub_scan r prev skip s `sublist_of` s.
Proof.
  induction s as [|c s IH]; intros prev skip; simpl; [done|].
  destruct skip as [|n]; [|by apply sublist_cons].
  destruct (match_length r prev (c :: s)) as [[|n]|].
  - by apply sublist_skip.
  - by apply sublist_cons.
  - by apply sublist_skip.
Qed.

Lemma sub_scan_no_match r s :
  (∀ prev c s', c ≠ slash → match_length r prev (c :: s') = None) →
  slash ∉ s → ∀ prev, sub_scan r prev 0 s = s.
Proof.
  intros Hr. induction s as [|c s IH]; intros Hs prev; simpl; [done|].
  apply not_elem_of_cons in Hs as [Hc Hs].
  rewrite (Hr prev c s) by done. by rewrite IH.
Qed.

Lemma line_comment_starts_with_slash prev c s :
  c ≠ slash → match_length re_line_comment prev (c :: s) = None.
Proof.
  intros Hc. unfold match_length, re_line_comment.
  change (lits lit "//") with (Cat (lit slash) (Cat (lit slash) Empty)).
  cbn [rmatch lit]. by rewrite (proj2 (Ascii.eqb_neq slash c)).
Qed.

Lemma block_comment_starts_with_slash prev c s :
  c ≠ slash → match_length re_block_comment prev (c :: s) = None.
Proof.
  intros Hc. unfold match_length, re_block_comment.
  change (lits lit "/*") with (Cat (lit slash) (Cat (lit "*"%char) Empty)).
  cbn [rmatch lit]. by rewrite (proj2 (Ascii.eqb_neq slash c)).
Qed.

(** X3: [remove_comments] only deletes characters, the characters it keeps
    stay in their order, and a text without a slash is returned as it
    is. *)
Theorem remove_comments_deletes_only (text : list ascii) :
  remove_comments text `sublist_of` text
  ∧ (slash ∉ text → remove_comments text = text).
Proof.
  unfold remove_comments, re_sub_empty. split.
  - etrans; apply sub_scan_sublist.
  - intros Hs.
    rewrite (sub_scan_no_match re_line_comment text
               line_comment_starts_with_slash Hs).
    by rewrite (sub_scan_no_match re_block_comment text
                  block_comment_starts_with_slash Hs).
Qed.

(** ** [statements] *)

Lemma split_pieces sep s : ∀ piece, piece ∈ split sep s → sep ∉ piece.
Proof.
  induction s as [|c s IH]; simpl; intros piece Hp.
  - apply list_elem_of_singleton in Hp as ->. apply not_elem_of_nil.
  - destruct (Ascii.eqb_spec c sep) as [->|Hne].
    + apply elem_of_cons in Hp as [->|Hp]; [apply not_elem_of_nil|by apply IH].
    + destruct (split sep s) as [|p ps] eqn:Hsp.
      * apply list_elem_of_singleton in Hp as ->.
        apply not_elem_of_cons. split; [done|apply not_elem_of_nil].
      * apply elem_of_cons in Hp as [->|Hp].
        -- apply not_elem_of_cons. split; [done|].
           apply IH, elem_of_cons. by left.
        -- apply IH, elem_of_cons. by right.
Qed.

Lemma lstrip_suffix s : lstrip s `suffix_of` s.
Proof.
  induction s as [|c s IH]; simpl; [done|].
  destruct (is_space c); [by apply suffix_cons_r|done].
Qed.

Lemma lstrip_head s : from_option (λ c, is_space c = false) True (head (lstrip s)).
Proof.
  induction s as [|c s IH]; simpl; [done|].
  destruct (is_space c) eqn:Hc; [done|]. simpl. done.
Qed.

Lemma lstrip_id s :
  from_option (λ c, is_space c = false) True (head s) → lstrip s = s.
Proof. destruct s as [|c s]; simpl; [done|]. by intros ->. Qed.

Lemma lstrip_elem s x : x ∈ lstrip s → x ∈ s.
Proof.
  destruct (lstrip_suffix s) as [k Hk]. intros Hx. rewrite Hk.
  apply elem_of_app. by right.
Qed.

Lemma strip_elem s x : x ∈ strip s → x ∈ s.
Proof.
  unfold strip. intros Hx.
  apply list_elem_of_In, in_rev, list_elem_of_In, lstrip_elem in Hx.
  apply list_elem_of_In, in_rev, list_elem_of_In in Hx.
  by apply lstrip_elem.
Qed.

Lemma head_rev_last {A} (l : list A) : head (rev l) = last l.
Proof.
  induction l as [|a l IH] using rev_ind; [done|].
  by rewrite rev_unit, last_snoc.
Qed.

Lemma strip_ends s :
  from_option (λ c, is_space c = false) True (head (strip s))
  ∧ from_option (λ c, is_space c = false) True (last (strip s)).
Proof.
  unfold strip. split.
  - destruct (lstrip_suffix (rev (lstrip s))) as [pre Hpre].
    pose proof (lstrip_head s) as Hh.
    apply (f_equal (@rev ascii)) in Hpre.
    rewrite rev_involutive, rev_app_distr in Hpre.
    destruct (rev (lstrip (rev (lstrip s)))) as [|c t]; [done|].
    rewrite Hpre in Hh. exact Hh.
  - rewrite <- head_rev_last, rev_involutive. apply lstrip_head.
Qed.

(** X4: every statement that the parser processes is non-empty, contains
    no semicolon, and neither starts nor ends with a white-space
    character. *)
Theorem statements_trimmed (text stmt : list ascii) :
  stmt ∈ statements text →
  stmt ≠ []
  ∧ semicolon ∉ stmt
  ∧ from_option (λ c, is_space c = false) True (head stmt)
  ∧ from_option (λ c, is_space c = false) True (last stmt).
Proof.
  unfold statements. intros Hin.
  apply list_elem_of_In, in_map_iff in Hin as (piece & <- & Hin).
  apply filter_In in Hin as [Hin Hne]. apply list_elem_of_In in Hin.
  split; [|split].
  - by destruct (strip piece).
  - intros Hs. apply (split_pieces _ _ _ Hin). by apply strip_elem.
  - apply strip_ends.
Qed.

(** ** [find_identifiers] *)

Lemma span_length_le p s : (span_length p s ≤ length s)%nat.
Proof. induction s as [|c s IH]; simpl; [lia|]. destruct (p c); simpl; lia. Qed.

(** A greedy repetition followed by nothing takes the longest run. *)
Lemma many_greedy_length p (n : nat) s :
  ∀ prev,
    many_greedy p (λ _ s', Some (n - length s')%nat) prev s
    = Some (n - (length s - span_length p s))%nat.
Proof.
  induction s as [|c s IH]; intros prev; simpl.
  - f_equal; lia.
  - destruct (p c).
    + rewrite IH. pose proof (span_length_le p s). f_equal; lia.
    + f_equal; lia.
Qed.

Lemma match_length_identifier prev c s :
  match_length re_identifier prev (c :: s)
  = if ident_start c then Some (S (span_length ident_char s)) else None.
Proof.
  unfold match_length, re_identifier. cbn [rmatch].
  destruct (ident_start c); [|done].
  rewrite many_greedy_length.
  pose proof (span_length_le ident_char s).
  change (length (c :: s)) with (S (length s)). f_equal; lia.
Qed.

Lemma match_length_identifier_nil prev : match_length re_identifier prev [] = None.
Proof. reflexivity. Qed.

(** The scan does not look at the character before the position. *)
Lemma findall_identifier_prev s :
  ∀ prev prev' skip,
    findall_scan re_identifier prev skip s
    = findall_scan re_identifier prev' skip s.
Proof.
  induction s as [|c s IH]; intros prev prev' skip; [done|].
  cbn [findall_scan]. destruct skip as [|n]; [|done].
  by rewrite !match_length_identifier.
Qed.

Lemma findall_identifier_skip skipped rest :
  ∀ prev,
    findall_scan re_identifier prev (length skipped) (skipped ++ rest)
    = findall_scan re_identifier None 0 rest.
Proof.
  induction skipped as [|c cs IH]; intros prev; simpl.
  - apply findall_identifier_prev.
  - apply IH.
Qed.

Lemma span_length_all p cs rest :
  Forall (λ c, p c = true) cs →
  match rest with c :: _ => p c = false | [] => True end →
  span_length p (cs ++ rest) = length cs.
Proof.
  intros Hcs Hrest. induction Hcs as [|c cs Hc _ IH]; simpl.
  - destruct rest as [|c rest]; [done|]. simpl. by rewrite Hrest.
  - by rewrite Hc, IH.
Qed.

Lemma span_length_Forall p s : Forall (λ c, p c = true) (take (span_length p s) s).
Proof.
  induction s as [|c s IH]; simpl; [constructor|].
  destruct (p c) eqn:Hc; simpl; [by constructor|constructor].
Qed.

Lemma findall_identifier_shape s :
  ∀ prev skip x, x ∈ findall_scan re_identifier prev skip s → identifier x.
Proof.
  induction s as [|c s IH]; intros prev skip x Hx.
  - by apply elem_of_nil in Hx.
  - cbn [findall_scan] in Hx. destruct skip as [|n]; [|by eapply IH].
    rewrite match_length_identifier in Hx.
    destruct (ident_start c) eqn:Hc; [|by eapply IH].
    apply elem_of_cons in Hx as [->|Hx]; [|by eapply IH].
    simpl. split; [done|]. apply span_length_Forall.
Qed.

Lemma find_identifiers_identifier s x :
  x ∈ find_identifiers s → identifier (list_ascii_of_string x).
Proof.
  unfold find_identifiers, re_findall. intros Hx.
  apply list_elem_of_In, in_map_iff in Hx as (cs & <- & Hcs).
  rewrite list_ascii_of_string_of_list_ascii.
  apply list_elem_of_In in Hcs. by eapply findall_identifier_shape.
Qed.

(** X5: [find_identifiers] is a tokenizer: every name it returns is an
    identifier (it starts with a letter or an underscore); a character that
    cannot start an identifier is skipped; and an identifier followed by
    the end of the text or by a character that cannot continue it is
    returned whole, before the identifiers of the rest. *)
Theorem find_identifiers_tokens :
  (∀ s x, x ∈ find_identifiers s → identifier (list_ascii_of_string x))
  ∧ (∀ c rest, ident_start c = false →
       find_identifiers (c :: rest) = find_identifiers rest)
  ∧ (∀ name rest, identifier name → ends_identifier rest →
       find_identifiers (name ++ rest)
       = string_of_list_ascii name :: find_identifiers rest).
Proof.
  split; [exact find_identifiers_identifier|].
  unfold find_identifiers, re_findall. split.
  - intros c rest Hc. cbn [findall_scan].
    rewrite match_length_identifier, Hc.
    by rewrite (findall_identifier_prev rest (Some c) None).
  - intros [|c cs] rest Hname Hrest; [done|]. destruct Hname as [Hc Hcs].
    change ((c :: cs) ++ rest) with (c :: (cs ++ rest)).
    cbn [findall_scan]. rewrite match_length_identifier, Hc.
    rewrite (span_length_all ident_char cs rest Hcs)
      by (by destruct rest).
    rewrite findall_identifier_skip. simpl. do 3 f_equal.
    by rewrite take_app_length.
Qed.

(** ** The gates that the parser builds *)

Lemma lower_char_not_upper c : is_upper (lower_char c) = false.
Proof. destruct c as [[] [] [] [] [] [] [] []]; reflexivity. Qed.

Lemma gates_of_statement_shape stmt g :
  g ∈ gates_of_statement stmt →
  ∃ ty nm ports out ins,
    g = Gate.new (string_of_list_ascii (lower ty)) nm out ins
    ∧ find_identifiers ports = out :: ins.
Proof.
  unfold gates_of_statement, parse_statement.
  destruct (_ || _); [by intros ?%elem_of_nil|].
  destruct (re_match re_declaration stmt).
  { repeat (destruct (String.eqb _ _); [by intros ?%elem_of_nil|]).
    by intros ?%elem_of_nil. }
  assert (Happ : ∀ ty nm ports,
             g ∈ l_gates (append_gate (mk_lists [] [] [] []) (lower ty) nm
                            (find_identifiers ports)) →
             ∃ ty nm ports out ins,
               g = Gate.new (string_of_list_ascii (lower ty)) nm out ins
               ∧ find_identifiers ports = out :: ins).
  { intros ty nm ports. destruct (find_identifiers ports) as [|out ins] eqn:Hids;
      simpl; [by intros ?%elem_of_nil|].
    intros ->%list_elem_of_singleton. by exists ty, nm, ports, out, ins. }
  destruct (re_match re_named_gate stmt); [apply Happ|].
  destruct (re_match re_anonymous_gate stmt); [apply Happ|].
  by intros ?%elem_of_nil.
Qed.

(** X6: every gate of a parsed netlist is unleveled and without values, its
    type holds no upper-case letter [A-Z], and its output and its inputs
    are identifiers. *)
Theorem parsed_gate_shape (text : string) (g : Gate.t) :
  g ∈ Netlist.gates (parse_netlist_text text) →
  Gate.level g = None ∧ Gate.value_inp g = [] ∧ Gate.value_out g = None
  ∧ Forall (λ c, is_upper c = false) (list_ascii_of_string (Gate.gtype g))
  ∧ Forall (λ x, identifier (list_ascii_of_string x))
      (Gate.output g :: Gate.inputs g).
Proof.
  rewrite parse_gates. intros Hg.
  apply list_elem_of_In, in_concat in Hg as (gs & Hgs & Hg).
  apply list_elem_of_In, list_elem_of_fmap in Hgs as (stmt & -> & _).
  apply list_elem_of_In, gates_of_statement_shape in Hg
    as (ty & nm & ports & out & ins & -> & Hids).
  simpl. repeat split.
  - rewrite list_ascii_of_string_of_list_ascii. unfold lower.
    apply Forall_forall. intros c Hc.
    apply list_elem_of_In, in_map_iff in Hc as (c' & <- & _).
    apply lower_char_not_upper.
  - rewrite <- Hids. apply Forall_forall. intros x Hx.
    by apply (find_identifiers_identifier ports).
Qed.

(** * Properties of the fan-out graph *)

Lemma wire_to_gate_snoc gs g :
  wire_to_gate (gs ++ [g]) = <[Gate.output g := Gate.name g]> (wire_to_gate gs).
Proof. unfold wire_to_gate. by rewrite foldl_app. Qed.

Lemma filter_snoc_True {A} (P : A → Prop) `{∀ x, Decision (P x)} l x :
  P x → filter P (l ++ [x]) = filter P l ++ [x].
Proof. intros Hx. by rewrite filter_app, (filter_cons_True _ x []). Qed.

Lemma filter_snoc_False {A} (P : A → Prop) `{∀ x, Decision (P x)} l x :
  ¬ P x → filter P (l ++ [x]) = filter P l.
Proof.
  intros Hx. rewrite filter_app, (filter_cons_False _ x []) by done.
  apply app_nil_r.
Qed.

Lemma wire_to_gate_lookup gs x :
  wire_to_gate gs !! x = Gate.name <$> last_driver gs x.
Proof.
  unfold last_driver. induction gs as [|g gs IH] using rev_ind; [done|].
  rewrite wire_to_gate_snoc.
  destruct (decide (Gate.output g = x)) as [Heq|Hne].
  - rewrite filter_snoc_True by done.
    rewrite last_snoc, Heq, lookup_insert_eq. done.
  - rewrite filter_snoc_False by done.
    rewrite lookup_insert_ne by done. exact IH.
Qed.

Lemma last_driver_single gs x d :
  NoDup (Gate.output <$> gs) →
  last_driver gs x = Some d ↔ d ∈ gs ∧ Gate.output d = x.
Proof.
  intros Hnd. unfold last_driver. split.
  - intros Hl. apply last_Some in Hl as [l' Hl].
    assert (Hd : d ∈ filter (λ g, Gate.output g = x) gs).
    { rewrite Hl. apply elem_of_app. right. by apply list_elem_of_singleton. }
    apply list_elem_of_filter in Hd as [? ?]. done.
  - intros [Hd Hx].
    assert (Hin : d ∈ filter (λ g, Gate.output g = x) gs)
      by (by apply list_elem_of_filter).
    destruct (last (filter (λ g, Gate.output g = x) gs)) as [d'|] eqn:Hl.
    + f_equal. apply last_Some in Hl as [l' Hl].
      assert (Hd' : d' ∈ filter (λ g, Gate.output g = x) gs).
      { rewrite Hl. apply elem_of_app. right. by apply list_elem_of_singleton. }
      apply list_elem_of_filter in Hd' as [Hx' Hd'].
      apply (NoDup_fmap_eq Gate.output gs); [done|done|done|congruence].
    + apply last_None in Hl. rewrite Hl in Hin. by apply elem_of_nil in Hin.
Qed.

(** X7: in [build_graph], the driver recorded for a signal is the name of
    the last gate of the netlist with that output: a later gate silently
    replaces an earlier one, and a signal that no gate drives has no
    entry. *)
Theorem wire_to_gate_last (gs : list Gate.t) (x : string) :
  wire_to_gate gs !! x = Gate.name <$> last_driver gs x
  ∧ (wire_to_gate gs !! x = None ↔ ∀ g, g ∈ gs → Gate.output g ≠ x)
  ∧ (∀ before g after,
       gs = before ++ g :: after → Gate.output g = x →
       Forall (λ h, Gate.output h ≠ x) after →
       wire_to_gate gs !! x = Some (Gate.name g)).
Proof.
  split; [apply wire_to_gate_lookup|]. split.
  - rewrite wire_to_gate_lookup. unfold last_driver. split.
    + intros Hn g Hg Hx.
      destruct (last (filter (λ g, Gate.output g = x) gs)) eqn:Hl; [done|].
      apply last_None in Hl.
      assert (Hin : g ∈ filter (λ g, Gate.output g = x) gs)
        by (by apply list_elem_of_filter).
      rewrite Hl in Hin. by apply elem_of_nil in Hin.
    + intros Hall.
      rewrite (filter_none (λ g, Gate.output g = x) gs); [done|].
      intros g Hg Hx. by apply (Hall g).
  - intros before g after -> Hx Hafter.
    rewrite wire_to_gate_lookup. unfold last_driver.
    rewrite filter_app, filter_cons_True by done.
    rewrite (filter_none (λ g, Gate.output g = x) after).
    + by rewrite last_snoc.
    + rewrite Forall_forall in Hafter. intros h Hh. by apply Hafter.
Qed.

(** The edges that the inputs [ins] of [gate] add under the key [k]. *)
Lemma add_edges_lookup w2g gate k ins :
  ∀ graph,
    default [] (foldl (add_edge w2g gate) graph ins !! k)
    = default [] (graph !! k)
      ++ ((λ _, Gate.name gate) <$> filter (λ inp, w2g !! inp = Some k) ins).
Proof.
  induction ins as [|inp ins IH]; intros graph.
  - simpl. by rewrite app_nil_r.
  - cbn [foldl]. rewrite IH. unfold add_edge at 1.
    destruct (w2g !! inp) as [d|] eqn:Hd.
    + destruct (decide (d = k)) as [->|Hne].
      * rewrite lookup_insert_eq, filter_cons_True by done. simpl.
        by rewrite <- app_assoc.
      * rewrite lookup_insert_ne by done.
        rewrite filter_cons_False by congruence. done.
    + rewrite filter_cons_False by congruence. done.
Qed.

Lemma add_edges_key w2g gate k ins :
  ∀ graph,
    is_Some (foldl (add_edge w2g gate) graph ins !! k)
    ↔ is_Some (graph !! k) ∨ ∃ inp, inp ∈ ins ∧ w2g !! inp = Some k.
Proof.
  induction ins as [|inp ins IH]; intros graph; simpl.
  - split; [auto|]. intros [H|(inp & Hin & _)]; [done|].
    by apply elem_of_nil in Hin.
  - rewrite IH. unfold add_edge at 1.
    destruct (w2g !! inp) as [d|] eqn:Hd.
    + destruct (decide (d = k)) as [->|Hne].
      * rewrite lookup_insert_eq. split; [|eauto].
        intros _. right. exists inp. split; [apply elem_of_cons; by left|done].
      * rewrite lookup_insert_ne by done. split.
        -- intros [H|(i & Hi & Hk)]; [by left|].
           right. exists i. split; [apply elem_of_cons; by right|done].
        -- intros [H|(i & Hi & Hk)]; [by left|].
           apply elem_of_cons in Hi as [->|Hi]; [congruence|]. right. eauto.
    + split.
      * intros [H|(i & Hi & Hk)]; [by left|].
        right. exists i. split; [apply elem_of_cons; by right|done].
      * intros [H|(i & Hi & Hk)]; [by left|].
        apply elem_of_cons in Hi as [->|Hi]; [congruence|]. right. eauto.
Qed.

Lemma build_graph_edges w2g k gs :
  ∀ graph s,
    s ∈ default [] (foldl (fun graph gate =>
                            foldl (add_edge w2g gate) graph (Gate.inputs gate))
                         graph gs !! k)
    ↔ s ∈ default [] (graph !! k)
      ∨ ∃ g x, g ∈ gs ∧ Gate.name g = s ∧ x ∈ Gate.inputs g ∧ w2g !! x = Some k.
Proof.
  induction gs as [|g gs IH]; intros graph s; simpl.
  - split; [auto|]. intros [H|(g & x & Hg & _)]; [done|].
    by apply elem_of_nil in Hg.
  - rewrite IH, add_edges_lookup, elem_of_app, list_elem_of_fmap. split.
    + intros [[H|(x & -> & Hx)]|(g' & x & Hg' & Hs & Hx & Hk)].
      * by left.
      * apply list_elem_of_filter in Hx as [Hk Hx].
        right. exists g, x. split; [apply elem_of_cons; by left|done].
      * right. exists g', x. split; [apply elem_of_cons; by right|done].
    + intros [H|(g' & x & Hg' & Hs & Hx & Hk)]; [by left; left|].
      apply elem_of_cons in Hg' as [->|Hg'].
      * left. right. exists x. split; [done|]. by apply list_elem_of_filter.
      * right. eauto 8.
Qed.

Lemma build_graph_keys w2g k gs :
  ∀ graph,
    is_Some (foldl (fun graph gate =>
                      foldl (add_edge w2g gate) graph (Gate.inputs gate))
                   graph gs !! k)
    ↔ is_Some (graph !! k)
      ∨ ∃ g x, g ∈ gs ∧ x ∈ Gate.inputs g ∧ w2g !! x = Some k.
Proof.
  induction gs as [|g gs IH]; intros graph; simpl.
  - split; [auto|]. intros [H|(g & x & Hg & _)]; [done|].
    by apply elem_of_nil in Hg.
  - rewrite IH, add_edges_key. split.
    + intros [[H|(x & Hx & Hk)]|(g' & x & Hg' & Hx & Hk)].
      * by left.
      * right. exists g, x. split; [apply elem_of_cons; by left|done].
      * right. exists g', x. split; [apply elem_of_cons; by right|done].
    + intros [H|(g' & x & Hg' & Hx & Hk)]; [by left; left|].
      apply elem_of_cons in Hg' as [->|Hg']; [left; right; eauto|].
      right. eauto 8.
Qed.

(** X8: [build_graph] lists the name of a gate under the key [k] exactly
    when the gate reads a signal whose last driver is named [k]; a key is
    present exactly when some gate reads such a signal. *)
Theorem build_graph_fanout (nl : Netlist.t) (k s : option string) :
  (s ∈ default [] (build_graph nl !! k)
   ↔ ∃ g x d, g ∈ Netlist.gates nl ∧ Gate.name g = s ∧ x ∈ Gate.inputs g
              ∧ last_driver (Netlist.gates nl) x = Some d ∧ Gate.name d = k)
  ∧ (is_Some (build_graph nl !! k)
     ↔ ∃ g x d, g ∈ Netlist.gates nl ∧ x ∈ Gate.inputs g
                ∧ last_driver (Netlist.gates nl) x = Some d ∧ Gate.name d = k).
Proof.
  unfold build_graph. split.
  - rewrite build_graph_edges, lookup_empty. simpl. split.
    + intros [H|(g & x & Hg & Hs & Hx & Hk)]; [by apply elem_of_nil in H|].
      rewrite wire_to_gate_lookup in Hk.
      destruct (last_driver (Netlist.gates nl) x) as [d|] eqn:Hd; [|done].
      simpl in Hk. inversion Hk. exists g, x, d. done.
    + intros (g & x & d & Hg & Hs & Hx & Hd & Hk). right.
      exists g, x. rewrite wire_to_gate_lookup, Hd. simpl. by rewrite Hk.
  - rewrite build_graph_keys, lookup_empty. split.
    + intros [[? H]|(g & x & Hg & Hx & Hk)]; [done|].
      rewrite wire_to_gate_lookup in Hk.
      destruct (last_driver (Netlist.gates nl) x) as [d|] eqn:Hd; [|done].
      simpl in Hk. inversion Hk. exists g, x, d. done.
    + intros (g & x & d & Hg & Hx & Hd & Hk). right.
      exists g, x. rewrite wire_to_gate_lookup, Hd. simpl. by rewrite Hk.
Qed.

(** X9: when every signal has a single driver, [build_graph] is the
    fan-out relation on gate names: [s] is listed under [k] exactly when a
    gate named [k] drives a gate named [s]. *)
Theorem build_graph_drives (nl : Netlist.t) (k s : option string) :
  single_driver nl →
  (s ∈ default [] (build_graph nl !! k)
   ↔ ∃ d g, d ∈ Netlist.gates nl ∧ g ∈ Netlist.gates nl
            ∧ Gate.name d = k ∧ Gate.name g = s ∧ drives d g).
Proof.
  intros Hsd. unfold build_graph.
  rewrite build_graph_edges, lookup_empty. simpl. split.
  - intros [H|(g & x & Hg & Hs & Hx & Hk)]; [by apply elem_of_nil in H|].
    rewrite wire_to_gate_lookup in Hk.
    destruct (last_driver (Netlist.gates nl) x) as [d|] eqn:Hd; [|done].
    simpl in Hk. inversion Hk.
    apply (last_driver_single _ _ _ Hsd) in Hd as [Hd Ho].
    exists d, g. unfold drives. rewrite Ho. done.
  - intros (d & g & Hd & Hg & Hk & Hs & Hdr). right.
    exists g, (Gate.output d). split; [done|]. split; [done|]. split; [done|].
    rewrite wire_to_gate_lookup.
    rewrite (proj2 (last_driver_single _ (Gate.output d) d Hsd)) by done.
    simpl. by rewrite Hk.
Qed.

(** * Further properties of the leveler *)

Lemma fmap_eq_Forall2 {A B} (f : A → B) (l : list A) :
  ∀ l', f <$> l' = f <$> l → Forall2 (λ a a', f a' = f a) l l'.
Proof.
  induction l as [|a l IH]; intros [|a' l'] Heq; try done.
  rewrite !fmap_cons in Heq. inversion Heq. constructor; [done|by apply IH].
Qed.

(** X10: a successful run of the leveler changes nothing but levels: the
    name lists of the netlist are the same, and the gates are the same, in
    the same order, except for their [level] field. *)
Theorem assign_levels_frame (nl nl' : Netlist.t) :
  assign_levels nl = Some (Ok nl') →
  Netlist.inputs nl' = Netlist.inputs nl
  ∧ Netlist.outputs nl' = Netlist.outputs nl
  ∧ Netlist.wires nl' = Netlist.wires nl
  ∧ Forall2 (λ g g', g' = with_level g (Gate.level g'))
      (Netlist.gates nl) (Netlist.gates nl').
Proof.
  intros Hrun. apply assign_levels_Ok in Hrun as (storeF & -> & Hloop).
  repeat split. simpl.
  pose proof (level_loop_wiring (λ g, with_level g None) _ (λ _ _, eq_refl)
                _ _ _ _ _ Hloop) as Hw.
  apply fmap_eq_Forall2 in Hw.
  eapply Forall2_impl; [exact Hw|]. simpl.
  intros [] [] Heq. unfold with_level in *. simpl in *. by inversion Heq.
Qed.

(** Levels written by the loop lie between the level number at its start
    and that number plus the length of the work list. *)
Lemma level_loop_bound fuel :
  ∀ store rem known lv storeF,
    level_loop fuel store rem known lv = Some (Ok storeF) →
    ∀ j g l, storeF !! j = Some g → Gate.level g = Some l →
      (∃ g0, store !! j = Some g0 ∧ Gate.level g0 = Some l)
      ∨ (lv ≤ l < lv + Z.of_nat (length rem)).
Proof.
  induction fuel as [|fuel IH]; intros store rem known lv storeF Hloop j g l Hj Hl.
  - destruct rem; [|done]. simpl in Hloop. inversion Hloop; subst. eauto.
  - destruct rem as [|i rem]; [simpl in Hloop; inversion Hloop; subst; eauto|].
    simpl in Hloop.
    destruct (scan known lv (i :: rem) store) as [store' cur] eqn:Hscan.
    destruct cur as [|c cur]; [done|].
    pose proof (round_shrinks _ _ _ _ _ _ _ Hscan) as Hshrink.
    apply scan_spec in Hscan as [Hcur Hst].
    destruct (IH _ _ _ _ _ Hloop j g l Hj Hl) as [(g1 & Hg1 & Hl1)|Hrange].
    + rewrite Hst in Hg1. destruct (store !! j) as [g0|]; [|done].
      simpl in Hg1. inversion Hg1 as [Hr]. unfold relevel in Hr.
      case_bool_decide.
      * right. subst g1. simpl in Hl1. inversion Hl1; subst.
        change (length (i :: rem)) with (S (length rem)). lia.
      * left. exists g0. by subst.
    + right. change (length (i :: rem)) with (S (length rem)) in *. lia.
Qed.

(** X11: after a successful run on a freshly parsed netlist every level is
    at least 1 and at most the number of gates. *)
Theorem assign_levels_bounds (nl nl' : Netlist.t) (g : Gate.t) (l : Z) :
  fresh nl → assign_levels nl = Some (Ok nl') →
  g ∈ Netlist.gates nl' → Gate.level g = Some l →
  1 ≤ l ≤ Z.of_nat (length (Netlist.gates nl')).
Proof.
  intros Hfresh Hrun Hg Hl.
  apply assign_levels_Ok in Hrun as (storeF & -> & Hloop). simpl in *.
  apply list_elem_of_lookup in Hg as [j Hj].
  pose proof (level_loop_wiring Gate.output _ (λ _ _, eq_refl) _ _ _ _ _ Hloop) as Hw.
  apply (f_equal length) in Hw. rewrite !length_fmap in Hw.
  destruct (level_loop_bound _ _ _ _ _ _ Hloop j g l Hj Hl)
    as [(g0 & Hg0 & Hl0)|Hrange].
  - unfold fresh in Hfresh. rewrite Forall_forall in Hfresh.
    apply list_elem_of_lookup_2, Hfresh in Hg0. congruence.
  - unfold all_positions in Hrange. rewrite length_seq in Hrange. lia.
Qed.

(** X12: after a successful run on a freshly parsed netlist, whatever its
    wiring: every input of a gate is a primary input or the output of a
    gate of a smaller level; a gate has level 1 exactly when all its inputs
    are primary inputs; and a gate of level [l > 1] reads the output of a
    gate of level [l - 1]. *)
Theorem assign_levels_rounds (nl nl' : Netlist.t) (g : Gate.t) (l : Z) :
  fresh nl → assign_levels nl = Some (Ok nl') →
  g ∈ Netlist.gates nl' → Gate.level g = Some l →
  (∀ x, x ∈ Gate.inputs g →
     x ∈ Netlist.inputs nl'
     ∨ ∃ d ld, d ∈ Netlist.gates nl' ∧ Gate.output d = x
               ∧ Gate.level d = Some ld ∧ ld < l)
  ∧ (l = 1 ↔ ∀ x, x ∈ Gate.inputs g → x ∈ Netlist.inputs nl')
  ∧ (1 < l → ∃ d, d ∈ Netlist.gates nl' ∧ drives d g
                  ∧ Gate.level d = Some (l - 1)).
Proof.
  intros Hfresh Hrun Hg Hl.
  destruct (assign_levels_inv nl nl' Hfresh Hrun) as (known & lv & Hinv).
  destruct Hinv as [_ _ _ Hrange Hbelow Hpred _].
  split; [|split].
  - intros x Hx. exact (Hbelow g l x Hg Hl Hx).
  - split.
    + intros -> x Hx.
      destruct (Hbelow g 1 x Hg Hl Hx) as [?|(d & ld & Hd & _ & Hld & Hlt)]; [done|].
      pose proof (Hrange d ld Hd Hld). lia.
    + intros Hall. pose proof (Hrange g l Hg Hl) as [H1 _].
      destruct (decide (1 < l)) as [Hlt|]; [|lia].
      destruct (Hpred g l Hg Hl Hlt) as (x & d & Hx & Hni & _).
      destruct (Hni (Hall x Hx)).
  - intros Hlt. destruct (Hpred g l Hg Hl Hlt) as (x & d & Hx & _ & Hd & Ho & Hld).
    exists d. split; [done|]. split; [|done]. unfold drives. by rewrite Ho.
Qed.

(** X13: a freshly parsed netlist in which a gate reads a signal that is
    neither a primary input nor the output of a gate cannot be leveled: the
    leveler raises the unresolvable-dependency error. *)
Theorem assign_levels_missing_signal (nl : Netlist.t) (x : string) :
  fresh nl → missing_signal nl x →
  assign_levels nl = Some (Raise CannotResolve).
Proof.
  intros Hfresh ((g & Hg & Hx) & Hni & Hund).
  destruct (assign_levels_total nl) as [[nl'|e] Hr].
  - exfalso.
    destruct (assign_levels_inv nl nl' Hfresh Hr) as (known & lv & Hinv).
    destruct (wiring_preserved nl nl' Hr) as [Hw Hins].
    destruct (wiring_counterpart _ _ g Hw Hg) as (g' & Hg' & Hwg).
    pose proof (assign_levels_all_leveled nl nl' Hr) as Hall.
    rewrite Forall_forall in Hall. destruct (Hall g' Hg') as [l Hl].
    assert (Hx' : x ∈ Gate.inputs g')
      by (unfold wiring in Hwg; inversion Hwg as [[Ho Hi]]; by rewrite Hi).
    destruct (inv_below _ _ _ _ _ Hinv g' l x Hg' Hl Hx')
      as [Hin|(d' & ld & Hd' & Ho & _)].
    + apply Hni. by rewrite <- Hins.
    + symmetry in Hw.
      destruct (wiring_counterpart _ _ d' Hw Hd') as (d & Hd & Hwd).
      apply (Hund d Hd). unfold wiring in Hwd. inversion Hwd. congruence.
  - apply assign_levels_raises in Hr as He. by subst.
Qed.

(** ** The error is raised only for a missing signal or a cycle *)

Lemma tc_sub {A} (R R' : relation A) :
  (∀ x y, R' x y → tc R x y) → ∀ x y, tc R' x y → tc R x y.
Proof.
  intros H x y Ht. induction Ht as [x y Hxy|x y z Hxy _ IH]; [by apply H|].
  etrans; [by apply H|done].
Qed.

(** In a finite non-empty set in which every element has a successor, some
    element reaches itself. *)
Lemma finite_cycle {A} (l : list A) :
  ∀ R : relation A,
    l ≠ [] → (∀ x, x ∈ l → ∃ y, y ∈ l ∧ R x y) → ∃ x, x ∈ l ∧ tc R x x.
Proof.
  induction l as [|a l IH]; intros R Hne Hsucc; [done|].
  destruct (Hsucc a) as (c & Hc & Rac); [apply elem_of_cons; by left|].
  apply elem_of_cons in Hc as [->|Hc].
  { exists a. split; [apply elem_of_cons; by left|by apply tc_once]. }
  destruct (IH (λ x y, R x y ∨ (R x a ∧ R a y))) as (x & Hx & Htc).
  - intros ->. by apply elem_of_nil in Hc.
  - intros x Hx.
    destruct (Hsucc x) as (b & Hb & Rxb); [apply elem_of_cons; by right|].
    apply elem_of_cons in Hb as [->|Hb].
    + exists c. split; [done|]. by right.
    + exists b. split; [done|]. by left.
  - exists x. split; [apply elem_of_cons; by right|].
    eapply tc_sub; [|exact Htc].
    intros u v [Huv|[Hua Hav]]; [by apply tc_once|].
    eapply tc_l; [exact Hua|by apply tc_once].
Qed.

Lemma depends_on_counterparts nl nl' :
  wiring <$> Netlist.gates nl' = wiring <$> Netlist.gates nl →
  ∀ g h, depends_on nl g h →
  ∀ g' h', g' ∈ Netlist.gates nl' → h' ∈ Netlist.gates nl' →
           wiring g' = wiring g → wiring h' = wiring h →
           depends_on nl' g' h'.
Proof.
  intros Hw g h Hdep. unfold depends_on in *.
  induction Hdep as [g h (Hg & Hh & Hdr)|g m h (Hg & Hm & Hdr) Hdep IH];
    intros g' h' Hg' Hh' Hwg Hwh.
  - apply tc_once. split; [done|]. split; [done|]. by eapply drives_wiring.
  - destruct (wiring_counterpart _ _ m Hw Hm) as (m' & Hm' & Hwm).
    eapply tc_l; [|by apply (IH m' h')].
    split; [done|]. split; [done|]. by eapply drives_wiring.
Qed.

(** A run that raises has reached a round in which no gate of the work
    list is ready. *)
Lemma level_loop_stuck ins fuel :
  ∀ store rem known lv e,
    level_inv ins store rem known lv →
    level_loop fuel store rem known lv = Some (Raise e) →
    ∃ store' rem' known' lv',
      level_inv ins store' rem' known' lv'
      ∧ rem' ≠ []
      ∧ (∀ i, i ∈ rem' → ¬ ready known' store' i)
      ∧ wiring <$> store' = wiring <$> store.
Proof.
  induction fuel as [|fuel IH]; intros store rem known lv e Hinv Hloop.
  - destruct rem; simpl in Hloop; [inversion Hloop|done].
  - destruct rem as [|i rem]; [simpl in Hloop; inversion Hloop|].
    simpl in Hloop.
    destruct (scan known lv (i :: rem) store) as [store1 cur] eqn:Hscan.
    destruct cur as [|c cur].
    + apply scan_spec in Hscan as [Hcur _].
      exists store, (i :: rem), known, lv. split; [done|]. split; [done|].
      split; [|done]. intros j Hj Hready.
      by apply (filter_nil_not_elem_of (λ i, ready known store i) (i :: rem) j).
    + pose proof (level_inv_step _ _ _ _ _ _ _ _ Hinv Hscan) as Hinv1.
      destruct (IH _ _ _ _ _ Hinv1 Hloop)
        as (store' & rem' & known' & lv' & Hinv' & Hne & Hstuck & Hw).
      exists store', rem', known', lv'.
      split; [done|]. split; [done|]. split; [done|].
      rewrite Hw. apply scan_spec in Hscan as [_ Hst].
      apply list_eq. intros j. rewrite !list_lookup_fmap, Hst.
      destruct (store !! j) as [g|]; [|done]. simpl. f_equal.
      unfold relevel. by case_bool_decide.
Qed.

(** X14: when the leveler raises on a freshly parsed netlist, some gate
    reads a signal that is neither a primary input nor driven by a gate, or
    some gate depends, directly or transitively, on its own output. *)
Theorem assign_levels_raise_cause (nl : Netlist.t) :
  fresh nl →
  assign_levels nl = Some (Raise CannotResolve) →
  (∃ x, missing_signal nl x)
  ∨ (∃ g, g ∈ Netlist.gates nl ∧ depends_on nl g g).
Proof.
  intros Hfresh Hrun. unfold assign_levels, assign_levels_fuel in Hrun.
  destruct (level_loop _ _ _ _ _) as [[gs|e]|] eqn:Hloop; [done| |done].
  destruct (level_loop_stuck _ _ _ _ _ _ _ (level_inv_init nl Hfresh) Hloop)
    as (store & rem & known & lv & Hinv & Hne & Hstuck & Hw).
  set (U := filter (λ g, Gate.level g = None) store).
  set (undriven := λ x : string,
         x ∉ known ∧ ¬ Exists (λ d, Gate.output d = x) store).
  assert (Hwait : ∀ g, g ∈ U → ∃ x, x ∈ Gate.inputs g ∧ x ∉ known).
  { intros g Hg. apply list_elem_of_filter in Hg as [Hl Hg].
    apply list_elem_of_lookup in Hg as [j Hj].
    assert (Hj' : j ∈ rem)
      by (apply (inv_rem _ _ _ _ _ Hinv), unleveled_true; eauto).
    destruct (all_known known g) eqn:Hk.
    - destruct (Hstuck j Hj'). apply ready_true. eauto.
    - by apply all_known_false. }
  destruct (decide (Exists (λ g, Exists undriven (Gate.inputs g)) U))
    as [Hmiss|Hdriven].
  - left. apply Exists_exists in Hmiss as (g & Hg & Hx).
    apply Exists_exists in Hx as (x & Hx & Hnk & Hnd).
    apply list_elem_of_filter in Hg as [_ Hg].
    exists x. split; [|split].
    + symmetry in Hw.
      destruct (wiring_counterpart _ _ g Hw Hg) as (g0 & Hg0 & Hwg).
      exists g0. split; [done|]. unfold wiring in Hwg. inversion Hwg. congruence.
    + intros Hin. apply Hnk, (inv_known _ _ _ _ _ Hinv). by left.
    + intros d Hd Ho.
      destruct (wiring_counterpart _ _ d Hw Hd) as (d' & Hd' & Hwd).
      apply Hnd, Exists_exists. exists d'. split; [done|].
      unfold wiring in Hwd. inversion Hwd. congruence.
  - right.
    destruct (finite_cycle U (λ g d, g ∈ store ∧ d ∈ store ∧ drives d g))
      as (g & Hg & Hcycle).
    + destruct rem as [|i rem']; [done|].
      assert (Hi : unleveled store i)
        by (apply (inv_rem _ _ _ _ _ Hinv), elem_of_cons; by left).
      apply unleveled_true in Hi as (g & Hg & Hl). intros HU.
      assert (Hin : g ∈ U)
        by (apply list_elem_of_filter; split;
            [done|by eapply list_elem_of_lookup_2]).
      rewrite HU in Hin. by apply elem_of_nil in Hin.
    + intros g Hg. destruct (Hwait g Hg) as (x & Hx & Hnk).
      destruct (decide (Exists (λ d, Gate.output d = x) store)) as [Hd|Hnd].
      * apply Exists_exists in Hd as (d & Hd & Ho).
        apply list_elem_of_filter in Hg as [_ Hg].
        exists d. split; [|split; [done|split; [done|]]].
        -- apply list_elem_of_filter. split; [|done].
           destruct (Gate.level d) as [ld|] eqn:Hld; [|done].
           destruct Hnk. apply (inv_known _ _ _ _ _ Hinv). right. eauto.
        -- unfold drives. by rewrite Ho.
      * destruct Hdriven. apply Exists_exists. exists g. split; [done|].
        apply Exists_exists. exists x. done.
    + apply list_elem_of_filter in Hg as [_ Hg].
      symmetry in Hw.
      destruct (wiring_counterpart _ _ g Hw Hg) as (g0 & Hg0 & Hwg).
      exists g0. split; [done|].
      apply (depends_on_counterparts (Netlist.set_gates nl store) nl Hw g g);
        done.
Qed.

(** * Further properties of the evaluator *)

Lemma resolved_Some_iff (sv : gmap string Z) (ins : list string) :
  is_Some (resolved (map (λ inp, sv !! inp) ins)) ↔ ∀ x, x ∈ ins → x ∈ dom sv.
Proof.
  split.
  - induction ins as [|y ins IH]; simpl; intros Hr x Hx.
    + by apply elem_of_nil in Hx.
    + destruct (sv !! y) as [v|] eqn:Hy; [|by destruct Hr].
      apply elem_of_cons in Hx as [->|Hx]; [apply elem_of_dom; eauto|].
      apply IH; [|done]. destruct (resolved _); [eauto|by destruct Hr].
  - intros H. destruct (resolved_present sv ins H) as (vs & -> & _). eauto.
Qed.

Lemma evaluate_gate_missing (g : Gate.t) (sv : gmap string Z) :
  ¬ inputs_valued sv g →
  evaluate_gate g sv = Raise (MissingInputSignal (Gate.name g)).
Proof.
  intros Hn. unfold evaluate_gate.
  destruct (resolved _) as [vs|] eqn:Hr; [|done].
  destruct Hn. unfold inputs_valued.
  refine (proj1 (resolved_Some_iff sv (Gate.inputs g)) _).
  rewrite Hr. eauto.
Qed.

(** X15: [evaluate_gate] returns a value exactly when the gate is of one of
    the five variadic types, or a [not] with at least one input, and all
    its inputs have values.  A missing value is reported first, whatever
    the type of the gate; then an unknown type; a [not] without inputs
    fails on [inputs[0]]. *)
Theorem evaluate_gate_outcomes (g : Gate.t) (sv : gmap string Z) :
  ((∃ v, evaluate_gate g sv = Ok v) ↔ supported g ∧ inputs_valued sv g)
  ∧ (¬ inputs_valued sv g →
     evaluate_gate g sv = Raise (MissingInputSignal (Gate.name g)))
  ∧ (inputs_valued sv g → Gate.gtype g ∉ known_types →
     evaluate_gate g sv = Raise (UnsupportedGateType (Gate.gtype g)))
  ∧ (Gate.gtype g = "not"%string → Gate.inputs g = [] →
     evaluate_gate g sv = Raise IndexError).
Proof.
  split; [|split; [|split]].
  - split.
    + intros [v Hv]. unfold evaluate_gate in Hv.
      destruct (resolved _) as [vs|] eqn:Hr; [|done].
      assert (Hin : inputs_valued sv g).
      { unfold inputs_valued.
        refine (proj1 (resolved_Some_iff sv (Gate.inputs g)) _).
        rewrite Hr. eauto. }
      split; [|done].
      destruct (resolved_present sv (Gate.inputs g) Hin) as (vs' & Hr' & Hlen).
      rewrite Hr in Hr'. inversion Hr'; subst vs'. unfold supported.
      destruct (String.eqb_spec (Gate.gtype g) "nand") as [->|_];
        [left; compute_done|].
      destruct (String.eqb_spec (Gate.gtype g) "and") as [->|_];
        [left; compute_done|].
      destruct (String.eqb_spec (Gate.gtype g) "or") as [->|_];
        [left; compute_done|].
      destruct (String.eqb_spec (Gate.gtype g) "nor") as [->|_];
        [left; compute_done|].
      destruct (String.eqb_spec (Gate.gtype g) "xor") as [->|_];
        [left; compute_done|].
      destruct (String.eqb_spec (Gate.gtype g) "not") as [Hty|_]; [|done].
      right. split; [done|]. intros Hnil. rewrite Hnil in Hlen.
      by destruct vs.
    + intros [Hsup Hin]. by apply evaluate_gate_returns.
  - apply evaluate_gate_missing.
  - intros Hin Hty. unfold evaluate_gate.
    destruct (resolved_present sv (Gate.inputs g) Hin) as (vs & -> & _).
    unfold known_types in Hty.
    repeat (apply not_elem_of_cons in Hty as [Hne Hty];
            apply String.eqb_neq in Hne; rewrite Hne; clear Hne).
    done.
  - intros Hty Hnil. unfold evaluate_gate. rewrite Hnil, Hty. done.
Qed.

(** X16: whatever integers the inputs hold, the value that
    [evaluate_gate] returns is 0 or 1. *)
Theorem evaluate_gate_bit (g : Gate.t) (sv : gmap string Z) (v : Z) :
  evaluate_gate g sv = Ok v → bit v.
Proof.
  unfold evaluate_gate, bit. destruct (resolved _) as [vs|]; [|done].
  destruct (String.eqb _ _).
  { intros [= <-]. destruct (forallb truthy vs); auto. }
  destruct (String.eqb _ _).
  { intros [= <-]. destruct (forallb truthy vs); auto. }
  destruct (String.eqb _ _).
  { intros [= <-]. destruct (existsb truthy vs); auto. }
  destruct (String.eqb _ _).
  { intros [= <-]. destruct (existsb truthy vs); auto. }
  destruct (String.eqb _ _).
  { intros [= <-]. pose proof (Z.mod_pos_bound (sum vs) 2). lia. }
  destruct (String.eqb _ _); [|done].
  destruct vs as [|v0 vs]; [done|]. intros [= <-]. destruct (truthy v0); auto.
Qed.

(** X17: [nand] is the complement of [and] and [nor] the complement of
    [or], on every state, errors included. *)
Theorem evaluate_gate_complement (g : Gate.t) (sv : gmap string Z) :
  (Gate.gtype g = "nand"%string →
   evaluate_gate g sv = evaluate_gate (with_type g "and") sv ≫= λ v, Ok (1 - v))
  ∧ (Gate.gtype g = "nor"%string →
     evaluate_gate g sv = evaluate_gate (with_type g "or") sv ≫= λ v, Ok (1 - v)).
Proof.
  split; intros Hty; unfold evaluate_gate; rewrite Hty; simpl;
    destruct (resolved _) as [vs|]; simpl; try done.
  - by destruct (forallb truthy vs).
  - by destruct (existsb truthy vs).
Qed.

Lemma resolved_Permutation (l l' : list (option Z)) :
  l ≡ₚ l' →
  match resolved l, resolved l' with
  | Some vs, Some vs' => vs ≡ₚ vs'
  | None, None => True
  | _, _ => False
  end.
Proof.
  induction 1 as [|o l l' _ IH|o1 o2 l|l1 l2 l3 _ IH1 _ IH2]; simpl.
  - done.
  - destruct o; [|done].
    destruct (resolved l), (resolved l'); simpl; try done. by constructor.
  - destruct o1, o2; try done; destruct (resolved l); simpl; try done.
    apply Permutation_swap.
  - destruct (resolved l1), (resolved l2), (resolved l3); try done.
    by etrans.
Qed.

Lemma forallb_Permutation {A} (p : A → bool) l l' :
  l ≡ₚ l' → forallb p l = forallb p l'.
Proof.
  induction 1 as [|a l l' _ IH|a b l|l1 l2 l3 _ IH1 _ IH2]; simpl;
    [done|by rewrite IH| |congruence].
  destruct (p a), (p b); done.
Qed.

Lemma existsb_Permutation {A} (p : A → bool) l l' :
  l ≡ₚ l' → existsb p l = existsb p l'.
Proof.
  induction 1 as [|a l l' _ IH|a b l|l1 l2 l3 _ IH1 _ IH2]; simpl;
    [done|by rewrite IH| |congruence].
  destruct (p a), (p b); done.
Qed.

Lemma sum_Permutation l l' : l ≡ₚ l' → sum l = sum l'.
Proof.
  unfold sum. rewrite !sum_from.
  induction 1 as [|a l l' _ IH|a b l|l1 l2 l3 _ IH1 _ IH2]; simpl; lia.
Qed.

(** X18: except for [not], the result of [evaluate_gate] does not depend
    on the order of the inputs of the gate. *)
Theorem evaluate_gate_order (g g' : Gate.t) (sv : gmap string Z) :
  Gate.gtype g' = Gate.gtype g → Gate.name g' = Gate.name g →
  Gate.inputs g' ≡ₚ Gate.inputs g →
  Gate.gtype g ≠ "not"%string →
  evaluate_gate g' sv = evaluate_gate g sv.
Proof.
  intros Hty Hnm Hperm Hnot. unfold evaluate_gate. rewrite Hty, Hnm.
  pose proof (resolved_Permutation
                (map (λ inp, sv !! inp) (Gate.inputs g'))
                (map (λ inp, sv !! inp) (Gate.inputs g))
                (fmap_Permutation _ _ _ Hperm)) as Hr.
  destruct (resolved (map _ (Gate.inputs g'))) as [vs'|],
           (resolved (map _ (Gate.inputs g))) as [vs|]; try done.
  rewrite (forallb_Permutation truthy vs' vs Hr).
  rewrite (existsb_Permutation truthy vs' vs Hr).
  rewrite (sum_Permutation vs' vs Hr).
  apply String.eqb_neq in Hnot. by rewrite Hnot.
Qed.

(** * Further properties of the simulator *)

Lemma simulate_final_values nl iv :
  simulate nl iv
  = final_values nl iv ≫= λ sv, Ok (read_outputs sv (Netlist.outputs nl)).
Proof.
  unfold simulate, final_values.
  destruct (max_key _) as [[m|]|e]; reflexivity.
Qed.

Lemma read_outputs_dom sv outs :
  dom (read_outputs sv outs) = list_to_set outs.
Proof.
  unfold read_outputs. induction outs as [|o outs IH] using rev_ind.
  - simpl. apply dom_empty_L.
  - rewrite foldl_app. simpl. rewrite dom_insert_L, IH, list_to_set_app_L.
    simpl. set_solver.
Qed.

Lemma read_outputs_None sv outs out :
  out ∉ outs → read_outputs sv outs !! out = None.
Proof.
  intros Hn. apply not_elem_of_dom. rewrite read_outputs_dom.
  by rewrite elem_of_list_to_set.
Qed.

(** X19: the result of [simulate] has exactly the declared outputs as
    keys. *)
Theorem simulate_keys (nl : Netlist.t) (iv : gmap string Z)
    (r : gmap string (option Z)) :
  simulate nl iv = Ok r →
  dom r = list_to_set (Netlist.outputs nl).
Proof.
  rewrite simulate_final_values. destruct (final_values nl iv) as [sv|e]; [|done].
  simpl. intros [= <-]. apply read_outputs_dom.
Qed.

(** ** Names that no gate drives keep their value *)

Lemma run_gates_frame (l : list Gate.t) x :
  (∀ g, g ∈ l → Gate.output g ≠ x) →
  ∀ sv sv', foldl run_gate (Ok sv) l = Ok sv' → sv' !! x = sv !! x.
Proof.
  induction l as [|g l IH]; intros Hl sv sv' Hrun; simpl in Hrun.
  - by inversion Hrun.
  - destruct (evaluate_gate g sv) as [v|e]; simpl in Hrun;
      [|by rewrite run_gate_Raise in Hrun].
    rewrite (IH (λ g' Hg', Hl g' (proj2 (elem_of_cons _ _ _) (or_intror Hg')))
               _ _ Hrun).
    apply lookup_insert_ne, Hl, elem_of_cons. by left.
Qed.

Lemma run_levels_frame gs (lvls : list Z) x :
  (∀ g, g ∈ gs → Gate.output g ≠ x) →
  ∀ sv sv', foldl (run_level (gates_by_level gs)) (Ok sv) lvls = Ok sv' →
            sv' !! x = sv !! x.
Proof.
  intros Hgs. induction lvls as [|lvl lvls IH]; intros sv sv' Hrun; simpl in Hrun.
  - by inversion Hrun.
  - unfold run_level at 2 in Hrun. rewrite gates_by_level_bucket in Hrun.
    destruct (foldl run_gate (Ok sv) _) as [sv1|e] eqn:H1;
      [|by rewrite run_level_Raise in Hrun].
    rewrite (IH _ _ Hrun). apply (run_gates_frame _ x) in H1; [done|].
    intros g Hg. apply list_elem_of_filter in Hg as [_ Hg]. by apply Hgs.
Qed.

Lemma final_values_frame nl iv sv x :
  (∀ g, g ∈ Netlist.gates nl → Gate.output g ≠ x) →
  final_values nl iv = Ok sv → sv !! x = iv !! x.
Proof.
  intros Hx. unfold final_values.
  destruct (max_key _) as [[m|]|e]; simpl; [|done|done].
  by apply run_levels_frame.
Qed.

(** X20: a declared output that no gate drives is returned with the value
    that [input_values] gives it: the value of the primary input of that
    name, or [None] when there is none. *)
Theorem simulate_passes_undriven (nl : Netlist.t) (iv : gmap string Z)
    (out : string) (r : gmap string (option Z)) :
  simulate nl iv = Ok r →
  out ∈ Netlist.outputs nl →
  (∀ g, g ∈ Netlist.gates nl → Gate.output g ≠ out) →
  r !! out = Some (iv !! out).
Proof.
  rewrite simulate_final_values.
  destruct (final_values nl iv) as [sv|e] eqn:Hsv; [|done].
  simpl. intros [= <-] Hout Hund.
  rewrite read_outputs_lookup by done.
  by rewrite (final_values_frame nl iv sv out Hund Hsv).
Qed.

(** ** Errors before any gate is evaluated *)

Lemma resolved_None (ks : list (option Z)) : None ∈ ks → resolved ks = None.
Proof.
  induction ks as [|k ks IH]; intros H; [by apply elem_of_nil in H|].
  apply elem_of_cons in H as [<-|H]; [done|].
  simpl. destruct k; [|done]. by rewrite IH.
Qed.

Lemma gates_by_level_nil : map fst (map_to_list (gates_by_level [])) = [].
Proof. unfold gates_by_level. simpl. by rewrite map_to_list_empty. Qed.

(** X21: [simulate] fails before it evaluates any gate when the netlist has
    no gate ([max] of an empty sequence) and when some gate has no level
    (a [None] level compared or added to). *)
Theorem simulate_not_ready (nl : Netlist.t) (iv : gmap string Z) :
  (Netlist.gates nl = [] → simulate nl iv = Raise EmptyMax)
  ∧ (Exists (λ g, Gate.level g = None) (Netlist.gates nl) →
     simulate nl iv = Raise TypeError).
Proof.
  split.
  - intros Hnil. unfold simulate. by rewrite Hnil, gates_by_level_nil.
  - intros Hex. apply Exists_exists in Hex as (g & Hg & Hl).
    assert (Hk : None ∈ map fst (map_to_list (gates_by_level (Netlist.gates nl))))
      by (apply elem_of_keys; eauto).
    unfold simulate.
    destruct (map fst (map_to_list (gates_by_level (Netlist.gates nl))))
      as [|k1 [|k2 ks]] eqn:Hks.
    + by apply elem_of_nil in Hk.
    + apply list_elem_of_singleton in Hk as <-. done.
    + unfold max_key. by rewrite (resolved_None _ Hk).
Qed.

(** ** Only the observed names matter *)

Lemma evaluate_gate_ext g (sv sv' : gmap string Z) :
  (∀ x, x ∈ Gate.inputs g → sv !! x = sv' !! x) →
  evaluate_gate g sv = evaluate_gate g sv'.
Proof.
  intros H. unfold evaluate_gate.
  replace (map (λ inp, sv !! inp) (Gate.inputs g))
    with (map (λ inp, sv' !! inp) (Gate.inputs g)); [done|].
  apply map_ext_in. intros x Hx. symmetry. by apply H, list_elem_of_In.
Qed.

Section Observed.
Variable nl : Netlist.t.

Lemma run_gates_agree (l : list Gate.t) :
  (∀ g, g ∈ l → g ∈ Netlist.gates nl) →
  ∀ sv1 sv2, agree nl sv1 sv2 →
  match foldl run_gate (Ok sv1) l, foldl run_gate (Ok sv2) l with
  | Ok sv1', Ok sv2' => agree nl sv1' sv2'
  | Raise e1, Raise e2 => e1 = e2
  | _, _ => False
  end.
Proof.
  induction l as [|g l IH]; intros Hl sv1 sv2 Hag; simpl; [done|].
  assert (Hg : g ∈ Netlist.gates nl) by (apply Hl, elem_of_cons; by left).
  rewrite (evaluate_gate_ext g sv1 sv2).
  - destruct (evaluate_gate g sv2) as [v|e]; simpl.
    + apply IH.
      * intros g' Hg'. apply Hl, elem_of_cons. by right.
      * intros x Hx. destruct (decide (Gate.output g = x)) as [->|Hne].
        -- by rewrite !lookup_insert_eq.
        -- rewrite !lookup_insert_ne by done. by apply Hag.
    + by rewrite !run_gate_Raise.
  - intros x Hx. apply Hag. right. eauto.
Qed.

Lemma run_level_agree (lvl : Z) sv1 sv2 :
  agree nl sv1 sv2 →
  match run_level (gates_by_level (Netlist.gates nl)) (Ok sv1) lvl,
        run_level (gates_by_level (Netlist.gates nl)) (Ok sv2) lvl with
  | Ok sv1', Ok sv2' => agree nl sv1' sv2'
  | Raise e1, Raise e2 => e1 = e2
  | _, _ => False
  end.
Proof.
  intros Hag. unfold run_level. rewrite gates_by_level_bucket.
  apply run_gates_agree; [|done].
  intros g Hg. by apply list_elem_of_filter in Hg as [_ ?].
Qed.

Lemma run_levels_agree (lvls : list Z) :
  ∀ sv1 sv2, agree nl sv1 sv2 →
  match foldl (run_level (gates_by_level (Netlist.gates nl))) (Ok sv1) lvls,
        foldl (run_level (gates_by_level (Netlist.gates nl))) (Ok sv2) lvls with
  | Ok sv1', Ok sv2' => agree nl sv1' sv2'
  | Raise e1, Raise e2 => e1 = e2
  | _, _ => False
  end.
Proof.
  induction lvls as [|lvl lvls IH]; intros sv1 sv2 Hag; simpl; [done|].
  pose proof (run_level_agree lvl sv1 sv2 Hag) as H.
  destruct (run_level _ (Ok sv1) lvl) as [sv1'|e1],
           (run_level _ (Ok sv2) lvl) as [sv2'|e2]; try done.
  - by apply IH.
  - rewrite !run_level_Raise. done.
Qed.

Lemma read_outputs_agree sv1 sv2 :
  agree nl sv1 sv2 →
  read_outputs sv1 (Netlist.outputs nl) = read_outputs sv2 (Netlist.outputs nl).
Proof.
  intros Hag. apply map_eq. intros x.
  destruct (decide (x ∈ Netlist.outputs nl)) as [Hx|Hx].
  - rewrite !read_outputs_lookup by done. f_equal. apply Hag. by left.
  - by rewrite !read_outputs_None.
Qed.

End Observed.

(** X22: the outcome of [simulate], values and errors alike, depends only
    on the values that [input_values] gives to the declared outputs and to
    the inputs of the gates: two assignments that agree on these names are
    simulated alike, so names that nothing reads are ignored. *)
Theorem simulate_observed_only (nl : Netlist.t) (iv iv' : gmap string Z) :
  (∀ x, observed nl x → iv !! x = iv' !! x) →
  simulate nl iv = simulate nl iv'.
Proof.
  intros Hag. unfold simulate.
  destruct (max_key _) as [[m|]|e]; simpl; try done.
  pose proof (run_levels_agree nl (seqZ 1 m) iv iv' Hag) as H.
  destruct (foldl _ (Ok iv) _) as [sv1|e1], (foldl _ (Ok iv') _) as [sv2|e2];
    try done; simpl.
  - f_equal. by apply read_outputs_agree.
  - by subst.
Qed.

(** ** The simulation of a leveled netlist is consistent *)

Lemma evaluated_step iv (done : Gate.t → Prop) sv h v :
  evaluated iv done sv →
  evaluate_gate h sv = Ok v →
  (∀ g, done g → ¬ drives h g) → ¬ drives h h →
  (∀ g, done g → Gate.output g ≠ Gate.output h) →
  evaluated iv (λ g, done g ∨ g = h) (<[Gate.output h := v]> sv).
Proof.
  intros [Hdone Hrest] Hv Hfan Hself Hout. split.
  - intros g [Hg| ->].
    + destruct (Hdone g Hg) as (vg & Hvg & Hg_out). exists vg. split.
      * rewrite <- Hvg. apply evaluate_gate_ext. intros x Hx.
        apply lookup_insert_ne. intros <-. by apply (Hfan g Hg).
      * rewrite lookup_insert_ne; [done|]. intros Heq. by apply (Hout g Hg).
    + exists v. split; [|by rewrite lookup_insert_eq].
      rewrite <- Hv. apply evaluate_gate_ext. intros x Hx.
      apply lookup_insert_ne. by intros <-.
  - intros x Hx. rewrite lookup_insert_ne by (apply Hx; by right).
    apply Hrest. intros g Hg. apply Hx. by left.
Qed.

Lemma evaluated_iff iv (done done' : Gate.t → Prop) sv :
  (∀ g, done g ↔ done' g) → evaluated iv done sv → evaluated iv done' sv.
Proof.
  intros Hiff [Hdone Hrest]. split.
  - intros g Hg. by apply Hdone, Hiff.
  - intros x Hx. apply Hrest. intros g Hg. by apply Hx, Hiff.
Qed.

Section Consistent.
Variables (nl : Netlist.t) (iv : gmap string Z).
Hypothesis Hcontract : ∀ g, g ∈ Netlist.gates nl → level_contract nl g.
Hypothesis Hsingle : single_driver nl.

Lemma strictly_below d g ld lg :
  d ∈ Netlist.gates nl → g ∈ Netlist.gates nl →
  Gate.level d = Some ld → Gate.level g = Some lg → drives d g → ld < lg.
Proof.
  intros Hd Hg Hld Hlg Hdr.
  destruct (Hcontract g Hg) as (l & Hl & _ & Hstrict & _).
  destruct (Hstrict d Hd Hdr) as (ld' & Hld' & Hlt). congruence.
Qed.

Lemma run_bucket_consistent (k : Z) (l : list Gate.t) :
  ∀ (done : Gate.t → Prop) sv sv',
    NoDup l →
    (∀ h, h ∈ l → h ∈ Netlist.gates nl ∧ Gate.level h = Some k) →
    (∀ g, done g → g ∈ Netlist.gates nl
                   ∧ ∃ lg, Gate.level g = Some lg ∧ lg ≤ k) →
    (∀ h, h ∈ l → ¬ done h) →
    evaluated iv done sv →
    foldl run_gate (Ok sv) l = Ok sv' →
    evaluated iv (λ g, done g ∨ g ∈ l) sv'.
Proof.
  induction l as [|h l IH]; intros done sv sv' Hnd Hl Hdone Hfresh Hev Hrun.
  - simpl in Hrun. inversion Hrun; subst.
    eapply evaluated_iff; [|exact Hev]. intros g. split; [by left|].
    intros [?|Hg]; [done|]. by apply elem_of_nil in Hg.
  - simpl in Hrun. apply NoDup_cons in Hnd as [Hh Hnd].
    destruct (Hl h) as [Hhin Hhl]; [apply elem_of_cons; by left|].
    destruct (evaluate_gate h sv) as [v|e] eqn:Hv; simpl in Hrun;
      [|by rewrite run_gate_Raise in Hrun].
    eapply evaluated_iff;
      [|apply (IH (λ g, done g ∨ g = h) (<[Gate.output h := v]> sv) sv')].
    + intros g. rewrite elem_of_cons. tauto.
    + done.
    + intros h' Hh'. apply Hl, elem_of_cons. by right.
    + intros g [Hg| ->]; [by apply Hdone|].
      split; [done|]. exists k. split; [done|lia].
    + intros h' Hh' [Hd| ->]; [|done].
      apply (Hfresh h'); [apply elem_of_cons; by right|done].
    + apply evaluated_step; [done|done| | |].
      * intros g Hg Hdr. destruct (Hdone g Hg) as (Hgin & lg & Hlg & Hle).
        pose proof (strictly_below h g k lg Hhin Hgin Hhl Hlg Hdr). lia.
      * intros Hdr. pose proof (strictly_below h h k k Hhin Hhin Hhl Hhl Hdr). lia.
      * intros g Hg Heq. destruct (Hdone g Hg) as (Hgin & _).
        apply (Hfresh h); [apply elem_of_cons; by left|].
        by rewrite <- (NoDup_fmap_eq Gate.output _ g h Hsingle Hgin Hhin Heq).
    + done.
Qed.

Lemma run_levels_consistent (n : nat) :
  ∀ (k : Z) sv sv',
    1 ≤ k →
    evaluated iv (below_level nl k) sv →
    foldl (run_level (gates_by_level (Netlist.gates nl))) (Ok sv)
      (seqZ k (Z.of_nat n)) = Ok sv' →
    evaluated iv (below_level nl (k + Z.of_nat n)) sv'.
Proof.
  induction n as [|n IH]; intros k sv sv' Hk Hev Hrun.
  - simpl in Hrun. inversion Hrun; subst. by rewrite Z.add_0_r.
  - rewrite seqZ_cons in Hrun by lia. simpl in Hrun.
    unfold run_level at 2 in Hrun. rewrite gates_by_level_bucket in Hrun.
    destruct (foldl run_gate (Ok sv) _) as [sv1|e] eqn:Hbucket;
      [|by rewrite run_level_Raise in Hrun].
    replace (Z.pred (Z.of_nat (S n))) with (Z.of_nat n) in Hrun by lia.
    replace (k + Z.of_nat (S n)) with (Z.succ k + Z.of_nat n) by lia.
    apply (IH (Z.succ k) sv1 sv'); [lia| |done].
    set (bucket := filter (λ g, Gate.level g = Some k) (Netlist.gates nl)) in *.
    assert (H1 : evaluated iv (λ g, below_level nl k g ∨ g ∈ bucket) sv1).
    { apply (run_bucket_consistent k bucket (below_level nl k) sv sv1);
        [| | | |exact Hev|exact Hbucket].
      - apply NoDup_filter. unfold single_driver in Hsingle.
        by apply NoDup_fmap_1 in Hsingle.
      - intros h Hh. apply list_elem_of_filter in Hh as [? ?]. done.
      - intros g (Hg & l & Hl & Hr). split; [done|].
        exists l. split; [done|lia].
      - intros h Hh (_ & l & Hl & Hr).
        apply list_elem_of_filter in Hh as [Hk' _].
        rewrite Hk' in Hl. inversion Hl. lia. }
    eapply evaluated_iff; [|exact H1].
    intros g. unfold below_level, bucket. rewrite list_elem_of_filter. split.
    + intros [(Hg & l & Hl & Hr)|[Hl Hg]].
      * split; [done|]. exists l. split; [done|lia].
      * split; [done|]. exists k. split; [done|lia].
    + intros (Hg & l & Hl & Hr). destruct (decide (l = k)) as [->|Hne].
      * right. done.
      * left. split; [done|]. exists l. split; [done|lia].
Qed.

Lemma final_values_consistent sv :
  final_values nl iv = Ok sv →
  evaluated iv (λ g, g ∈ Netlist.gates nl) sv.
Proof.
  unfold final_values.
  assert (Hlev : ∀ g, g ∈ Netlist.gates nl → ∃ l, Gate.level g = Some l ∧ 1 ≤ l).
  { intros g Hg. destruct (Hcontract g Hg) as (l & Hl & H1 & _). eauto. }
  assert (Hcase : Netlist.gates nl = [] ∨ ∃ g0, g0 ∈ Netlist.gates nl).
  { destruct (Netlist.gates nl) as [|g0 gs]; [by left|].
    right. exists g0. apply elem_of_cons. by left. }
  destruct Hcase as [Hnil|[g0 Hg0]].
  { rewrite Hnil, gates_by_level_nil. done. }
  destruct (Hlev g0 Hg0) as (l0 & Hl0 & Hl01).
  assert (Hk0 : Some l0 ∈ map fst (map_to_list (gates_by_level (Netlist.gates nl))))
    by (apply elem_of_keys; eauto).
  destruct (max_key_numbers (map fst (map_to_list (gates_by_level (Netlist.gates nl)))))
    as (m & Hm & Hmax).
  - intros Hnil. rewrite Hnil in Hk0. by apply elem_of_nil in Hk0.
  - apply Forall_forall. intros k Hk. apply elem_of_keys in Hk as (g & Hg & <-).
    destruct (Hlev g Hg) as (l & -> & _). eauto.
  - rewrite Hm. simpl. intros Hrun.
    assert (Hm1 : 1 ≤ m) by (pose proof (Hmax l0 Hk0); lia).
    rewrite <- (Z2Nat.id m) in Hrun by lia.
    apply (run_levels_consistent (Z.to_nat m) 1 iv sv) in Hrun; [|lia|].
    + eapply evaluated_iff; [|exact Hrun]. intros g. unfold below_level. split.
      * by intros [? _].
      * intros Hg. split; [done|]. destruct (Hlev g Hg) as (l & Hl & Hl1).
        exists l. split; [done|].
        assert (l ≤ m) by (apply Hmax, elem_of_keys; eauto). lia.
    + split.
      * intros g (_ & l & _ & Hr). lia.
      * done.
Qed.
End Consistent.

(** X23: on a netlist leveled by a successful run on a freshly parsed
    netlist, in which every signal has a single driver and no gate drives a
    primary input, the values at the end of a simulation are consistent
    with the circuit: the output of every gate holds the value of the gate
    on the final values of its inputs, every name that no gate drives holds
    its initial value, and [simulate] returns these values for the declared
    outputs. *)
Theorem simulate_consistent (nl nl' : Netlist.t) (iv sv : gmap string Z) :
  fresh nl → single_driver nl → inputs_undriven nl →
  assign_levels nl = Some (Ok nl') →
  final_values nl' iv = Ok sv →
  (∀ g, g ∈ Netlist.gates nl' →
     ∃ v, evaluate_gate g sv = Ok v ∧ sv !! Gate.output g = Some v)
  ∧ (∀ x, (∀ g, g ∈ Netlist.gates nl' → Gate.output g ≠ x) →
          sv !! x = iv !! x)
  ∧ simulate nl' iv = Ok (read_outputs sv (Netlist.outputs nl'))
  ∧ (∀ out, out ∈ Netlist.outputs nl' →
            read_outputs sv (Netlist.outputs nl') !! out = Some (sv !! out)).
Proof.
  intros Hfresh Hsd Hund Hrun Hsv.
  destruct (assign_levels_inv nl nl' Hfresh Hrun) as (known & lv & Hinv).
  pose proof (single_driver_preserved nl nl' Hrun Hsd) as Hsd'.
  pose proof (level_inv_contract nl' known lv Hsd'
                (inputs_undriven_preserved nl nl' Hrun Hund) Hinv) as Hc.
  destruct (final_values_consistent nl' iv Hc Hsd' sv Hsv) as [Hgates Hrest].
  split; [exact Hgates|]. split; [exact Hrest|]. split.
  - by rewrite simulate_final_values, Hsv.
  - intros out Hout. by apply read_outputs_lookup.
Qed.
(** * Values of the driven outputs *)

Lemma evaluate_gate_range g (sv : gmap string Z) v :
  evaluate_gate g sv = Ok v → 0 ≤ v ≤ 1.
Proof.
  unfold evaluate_gate. destruct (resolved _) as [vs|]; [|done].
  pose proof (Z.mod_pos_bound (sum vs) 2).
  do 2 (destruct (String.eqb _ _);
        [intros [= <-]; destruct (forallb truthy vs); lia|]).
  do 2 (destruct (String.eqb _ _);
        [intros [= <-]; destruct (existsb truthy vs); lia|]).
  destruct (String.eqb _ _); [intros [= <-]; lia|].
  destruct (String.eqb _ _); [|done].
  destruct vs as [|v0 vs]; [done|]. intros [= <-]. destruct (truthy v0); lia.
Qed.

Lemma holds_bit_insert (sv : gmap string Z) g v x :
  evaluate_gate g sv = Ok v →
  holds_bit sv x ∨ x = Gate.output g →
  holds_bit (<[Gate.output g := v]> sv) x.
Proof.
  intros Hv Hx. unfold holds_bit.
  destruct (decide (x = Gate.output g)) as [->|Hne].
  - exists v. rewrite lookup_insert_eq. split; [done|].
    apply evaluate_gate_range in Hv. unfold bit. lia.
  - rewrite lookup_insert_ne by done. by destruct Hx.
Qed.

(** Running a list of gates leaves a 0/1 value at the output of each of
    them, and at every name that held one. *)
Lemma run_gates_bits (l : list Gate.t) :
  ∀ sv sv', foldl run_gate (Ok sv) l = Ok sv' →
  ∀ x, holds_bit sv x ∨ (∃ g, g ∈ l ∧ Gate.output g = x) → holds_bit sv' x.
Proof.
  induction l as [|g l IH]; intros sv sv' Hrun x Hx; simpl in Hrun.
  - inversion Hrun; subst sv'. destruct Hx as [Hx|(g & Hg & _)]; [done|].
    by apply elem_of_nil in Hg.
  - destruct (evaluate_gate g sv) as [v|e] eqn:Hv; simpl in Hrun;
      [|by rewrite run_gate_Raise in Hrun].
    apply (IH _ _ Hrun).
    destruct Hx as [Hx|(g' & Hg' & Hout)].
    + left. apply holds_bit_insert; auto.
    + apply elem_of_cons in Hg' as [->|Hg']; [|eauto].
      left. apply holds_bit_insert; auto.
Qed.

Lemma run_levels_bits gs (lvls : list Z) :
  ∀ sv sv', foldl (run_level (gates_by_level gs)) (Ok sv) lvls = Ok sv' →
  ∀ x, holds_bit sv x
       ∨ (∃ g lvl, g ∈ gs ∧ Gate.level g = Some lvl ∧ lvl ∈ lvls
                   ∧ Gate.output g = x) →
       holds_bit sv' x.
Proof.
  induction lvls as [|lvl lvls IH]; intros sv sv' Hrun x Hx; simpl in Hrun.
  - inversion Hrun; subst sv'. destruct Hx as [Hx|(g & l & _ & _ & Hl & _)]; [done|].
    by apply elem_of_nil in Hl.
  - unfold run_level at 2 in Hrun. rewrite gates_by_level_bucket in Hrun.
    destruct (foldl run_gate (Ok sv) _) as [sv1|e] eqn:H1;
      [|by rewrite run_level_Raise in Hrun].
    apply (IH _ _ Hrun).
    destruct Hx as [Hx|(g & l & Hg & Hgl & Hl & Hout)].
    + left. apply (run_gates_bits _ _ _ H1). by left.
    + apply elem_of_cons in Hl as [->|Hl].
      * left. apply (run_gates_bits _ _ _ H1). right. exists g.
        split; [|done]. by apply list_elem_of_filter.
      * right. exists g, l. eauto.
Qed.

Lemma resolved_fmap (ks : list (option Z)) zs :
  resolved ks = Some zs → ks = Some <$> zs.
Proof.
  revert zs. induction ks as [|[k|] ks IH]; intros zs; simpl; [by intros [= <-]| |done].
  destruct (resolved ks) as [zs'|]; [|done]. simpl. intros [= <-].
  by rewrite (IH zs').
Qed.

Lemma max_key_upper (ks : list (option Z)) m z :
  max_key ks = Ok (Some m) → Some z ∈ ks → z ≤ m.
Proof.
  destruct ks as [|k [|k' ks]]; [done| |].
  - intros [= ->] Hz. apply list_elem_of_singleton in Hz. inversion Hz. lia.
  - unfold max_key. destruct (resolved _) as [[|z0 zs]|] eqn:Hr; [done| |done].
    intros [= <-] Hz. apply resolved_fmap in Hr. rewrite Hr in Hz.
    apply list_elem_of_fmap in Hz as (z' & [= <-] & Hz).
    destruct (foldl_max_ge zs z0) as [H1 H2].
    apply elem_of_cons in Hz as [->|Hz]; auto.
Qed.

Lemma final_values_bits nl iv sv g l :
  final_values nl iv = Ok sv →
  g ∈ Netlist.gates nl → Gate.level g = Some l → 1 ≤ l →
  holds_bit sv (Gate.output g).
Proof.
  unfold final_values. intros Hrun Hg Hl Hl1.
  destruct (max_key _) as [[m|]|e] eqn:Hm; simpl in Hrun; [|done|done].
  apply (run_levels_bits _ _ _ _ Hrun). right. exists g, l.
  split; [done|]. split; [done|]. split; [|done].
  apply elem_of_seqZ. split; [done|].
  assert (l ≤ m); [|lia].
  apply (max_key_upper _ _ _ Hm), elem_of_keys. eauto.
Qed.

(** X24: whenever [simulate] returns, a declared output that is driven by
    a gate of a level >= 1 is returned with a value, and this value is 0
    or 1, whatever integers [input_values] holds. *)
Theorem simulate_driven_output_bit (nl : Netlist.t) (iv : gmap string Z)
    (r : gmap string (option Z)) (g : Gate.t) (l : Z) :
  simulate nl iv = Ok r →
  g ∈ Netlist.gates nl → Gate.level g = Some l → 1 ≤ l →
  Gate.output g ∈ Netlist.outputs nl →
  ∃ v, r !! Gate.output g = Some (Some v) ∧ bit v.
Proof.
  rewrite simulate_final_values.
  destruct (final_values nl iv) as [sv|e] eqn:Hsv; [|done].
  simpl. intros [= <-] Hg Hl Hl1 Hout.
  destruct (final_values_bits nl iv sv g l Hsv Hg Hl Hl1) as (v & Hv & Hbit).
  exists v. split; [|done]. rewrite read_outputs_lookup by done. by rewrite Hv.
Qed.

(** X25: a netlist leveled by a successful run, with at least one gate,
    only supported gates and a value for every primary input, is simulated
    without an error, and every declared output that a gate drives is
    returned with the value 0 or 1. *)
Theorem simulate_succeeds (nl nl' : Netlist.t) (iv : gmap string Z) :
  fresh nl → assign_levels nl = Some (Ok nl') →
  Netlist.gates nl' ≠ [] → Forall supported (Netlist.gates nl') →
  list_to_set (Netlist.inputs nl') ⊆ dom iv →
  ∃ r, simulate nl' iv = Ok r
       ∧ ∀ g, g ∈ Netlist.gates nl' → Gate.output g ∈ Netlist.outputs nl' →
              ∃ v, r !! Gate.output g = Some (Some v) ∧ bit v.
Proof.
  intros Hfresh Hrun Hne Hsup Hiv.
  destruct (simulate_returns nl nl' iv Hfresh Hrun Hne Hsup Hiv) as [r Hr].
  exists r. split; [done|]. intros g Hg Hout.
  rewrite simulate_final_values in Hr.
  destruct (final_values nl' iv) as [sv|e] eqn:Hsv; [|done].
  simpl in Hr. inversion Hr; subst r.
  destruct (assign_levels_inv nl nl' Hfresh Hrun) as (known & lv & Hinv).
  destruct (Gate.level g) as [l|] eqn:Hl.
  - destruct (inv_range _ _ _ _ _ Hinv g l Hg Hl) as [Hl1 _].
    destruct (final_values_bits nl' iv sv g l Hsv Hg Hl Hl1) as (v & Hv & Hbit).
    exists v. split; [|done]. rewrite read_outputs_lookup by done. by rewrite Hv.
  - exfalso. apply list_elem_of_lookup in Hg as [j Hj].
    apply (elem_of_nil j), (inv_rem _ _ _ _ _ Hinv), unleveled_true. eauto.
Qed.
(** * Outputs that no gate drives *)



(** * Statements that the parser recognises *)

(** ** Characters *)

Lemma lower_char_ident c : ident_char (lower_char c) = ident_char c.
Proof. destruct c as [[] [] [] [] [] [] [] []]; vm_compute; reflexivity. Qed.

Lemma ident_char_word c : ident_char c = true → is_word c = true.
Proof. unfold is_word. intros ->. reflexivity. Qed.

Lemma space_not_ident c : is_space c = true → ident_char c = false.
Proof. destruct c as [[] [] [] [] [] [] [] []]; vm_compute; congruence. Qed.

Lemma ident_start_char c : ident_start c = true → ident_char c = true.
Proof. unfold ident_char. intros ->. reflexivity. Qed.

Lemma identifier_chars s : identifier s → Forall (λ c, ident_char c = true) s.
Proof.
  destruct s as [|c cs]; [done|]. intros [Hc Hcs].
  constructor; [by apply ident_start_char|done].
Qed.

(** ** Lists of characters *)

Lemma last_or_cons prev c cs : last_or prev (c :: cs) = last_or (Some c) cs.
Proof.
  unfold last_or. destruct cs as [|c' cs]; [done|].
  rewrite last_cons_cons. destruct (last (c' :: cs)) eqn:Hl; [done|].
  by apply last_None in Hl.
Qed.

Lemma last_or_snoc prev cs c : last_or prev (cs ++ [c]) = Some c.
Proof. unfold last_or. by rewrite last_snoc. Qed.

Lemma last_or_last prev cs : cs ≠ [] → last_or prev cs = last cs.
Proof.
  unfold last_or. destruct (last cs) eqn:Hl; [done|].
  apply last_None in Hl. done.
Qed.

Lemma take_app_suffix {A} (pre rest : list A) :
  take (length (pre ++ rest) - length rest) (pre ++ rest) = pre.
Proof.
  rewrite length_app.
  replace (length pre + length rest - length rest)%nat with (length pre) by lia.
  by rewrite take_app_length.
Qed.

(** Two runs of characters of a class that end at a character outside it,
    or at the end of the text, are the same run. *)
Lemma run_unique (p : ascii → bool) (pre pre' s s' : list ascii) :
  pre ++ s = pre' ++ s' →
  Forall (λ c, p c = true) pre → Forall (λ c, p c = true) pre' →
  match s with c :: _ => p c = false | [] => True end →
  match s' with c :: _ => p c = false | [] => True end →
  pre = pre' ∧ s = s'.
Proof.
  revert pre'. induction pre as [|c pre IH]; intros pre' Heq Hp Hp' Hs Hs'.
  - destruct pre' as [|c' pre']; [done|]. simpl in Heq. subst s.
    apply Forall_cons in Hp' as [Hc' _]. congruence.
  - apply Forall_cons in Hp as [Hc Hp]. destruct pre' as [|c' pre'].
    + simpl in Heq. subst s'. congruence.
    + apply Forall_cons in Hp' as [_ Hp']. simpl in Heq.
      injection Heq as -> Heq. destruct (IH pre' Heq Hp Hp' Hs Hs') as [-> ->].
      done.
Qed.

(** ** The matcher, forwards: what a pattern does on a given text *)

Section Forwards.
Context {A : Type}.
Implicit Types (k : captures → option ascii → list ascii → option A).

(** A greedy repetition takes a whole run when the rest of the pattern
    matches after it. *)
Lemma many_greedy_run p (k' : option ascii → list ascii → option A) cs :
  ∀ prev rest a,
    Forall (λ c, p c = true) cs →
    match rest with c :: _ => p c = false | [] => True end →
    k' (last_or prev cs) rest = Some a →
    many_greedy p k' prev (cs ++ rest) = Some a.
Proof.
  induction cs as [|c cs IH]; intros prev rest a Hcs Hrest Hk.
  - simpl. destruct rest as [|c rest]; [exact Hk|]. simpl. rewrite Hrest. exact Hk.
  - apply Forall_cons in Hcs as [Hc Hcs]. simpl. rewrite Hc.
    rewrite (IH (Some c) rest a); [done|done|done|].
    by rewrite <- (last_or_cons prev).
Qed.

(** A greedy repetition gives back the last character when the rest of
    the pattern needs it. *)
Lemma many_greedy_back p (k' : option ascii → list ascii → option A) cs :
  ∀ prev x a,
    Forall (λ c, p c = true) cs →
    (∀ prev', k' prev' [] = None) →
    k' (last_or prev cs) [x] = Some a →
    many_greedy p k' prev (cs ++ [x]) = Some a.
Proof.
  induction cs as [|c cs IH]; intros prev x a Hcs Hnil Hk.
  - simpl. rewrite Hnil. destruct (p x); exact Hk.
  - apply Forall_cons in Hcs as [Hc Hcs]. simpl. rewrite Hc.
    rewrite (IH (Some c) x a); [done|done|done|].
    by rewrite <- (last_or_cons prev).
Qed.

Lemma rmatch_many k p caps prev cs rest a :
  Forall (λ c, p c = true) cs →
  match rest with c :: _ => p c = false | [] => True end →
  k caps (last_or prev cs) rest = Some a →
  rmatch (Many true p) k caps prev (cs ++ rest) = Some a.
Proof. intros. by apply many_greedy_run. Qed.

Lemma rmatch_some_of k p caps prev cs rest a :
  cs ≠ [] → Forall (λ c, p c = true) cs →
  match rest with c :: _ => p c = false | [] => True end →
  k caps (last cs) rest = Some a →
  rmatch (some_of p) k caps prev (cs ++ rest) = Some a.
Proof.
  intros Hne Hcs Hrest Hk. destruct cs as [|c cs]; [done|].
  apply Forall_cons in Hcs as [Hc Hcs].
  unfold some_of. cbn [rmatch app]. rewrite Hc.
  apply many_greedy_run; [done|done|].
  by rewrite <- (last_or_cons prev), last_or_last.
Qed.

Lemma rmatch_identifier k caps prev ty rest a :
  identifier ty → ends_identifier rest →
  k caps (last ty) rest = Some a →
  rmatch re_identifier k caps prev (ty ++ rest) = Some a.
Proof.
  intros Hty Hrest Hk. destruct ty as [|c cs]; [done|]. destruct Hty as [Hc Hcs].
  unfold re_identifier. cbn [rmatch app]. rewrite Hc.
  apply many_greedy_run; [done|done|].
  by rewrite <- (last_or_cons prev), last_or_last.
Qed.

Lemma rmatch_group k n r caps prev pre rest a :
  rmatch r (λ caps' prev' s', k ((n, take (length (pre ++ rest) - length s')
                                        (pre ++ rest)) :: caps') prev' s')
    caps prev (pre ++ rest) = Some a →
  rmatch (Group n r) k caps prev (pre ++ rest) = Some a.
Proof. done. Qed.
End Forwards.
Lemma paren_not_space : is_space "("%char = false.
Proof. reflexivity. Qed.
Lemma paren_not_ident : ident_char "("%char = false.
Proof. reflexivity. Qed.

Lemma ends_identifier_blank sp rest :
  blank sp → ends_identifier (sp ++ "("%char :: rest).
Proof.
  intros Hsp. destruct sp as [|w ws]; [reflexivity|].
  simpl. apply space_not_ident, (Forall_inv Hsp).
Qed.

Lemma named_gate_match ty sp1 nm sp2 ports :
  identifier ty → sp1 ≠ [] → blank sp1 → word nm → blank sp2 →
  re_match re_named_gate (named_gate_text ty sp1 nm sp2 ports)
  = Some [(3%nat, ports); (2%nat, nm); (1%nat, ty)].
Proof.
  intros Hty Hne1 Hsp1 [Hne Hnm] Hsp2.
  destruct sp1 as [|w ws]; [done|]. destruct nm as [|n ns]; [done|].
  pose proof (Forall_inv Hsp1) as Hw. pose proof (Forall_inv Hnm) as Hn.
  unfold re_match, re_named_gate, named_gate_text.
  cbn [rmatch].
  apply rmatch_identifier; [done|by apply space_not_ident|].
  cbn beta. rewrite take_app_suffix.
  apply rmatch_some_of; [done|done| |].
  { simpl. destruct (is_space n) eqn:Hs; [|done].
    apply space_not_ident in Hs. simpl in Hn. congruence. }
  apply rmatch_some_of; [done|done|by apply ends_identifier_blank|].
  rewrite take_app_suffix.
  apply many_greedy_run; [done|apply paren_not_space|].
  cbn [rmatch lits lit foldr list_ascii_of_string]. rewrite Ascii.eqb_refl.
  apply many_greedy_back.
  - apply Forall_forall. reflexivity.
  - reflexivity.
  - cbn [rmatch lits lit foldr list_ascii_of_string]. rewrite Ascii.eqb_refl.
    by rewrite take_app_suffix.
Qed.

Lemma anonymous_gate_match ty sp ports :
  identifier ty → blank sp →
  re_match re_anonymous_gate (anonymous_gate_text ty sp ports)
  = Some [(2%nat, ports); (1%nat, ty)].
Proof.
  intros Hty Hsp.
  unfold re_match, re_anonymous_gate, anonymous_gate_text.
  cbn [rmatch].
  apply rmatch_identifier; [done|by apply ends_identifier_blank|].
  cbn beta. rewrite take_app_suffix.
  apply many_greedy_run; [done|apply paren_not_space|].
  cbn [rmatch lits lit foldr list_ascii_of_string]. rewrite Ascii.eqb_refl.
  apply many_greedy_back.
  - apply Forall_forall. reflexivity.
  - reflexivity.
  - cbn [rmatch lits lit foldr list_ascii_of_string]. rewrite Ascii.eqb_refl.
    by rewrite take_app_suffix.
Qed.

(** ** The matcher, backwards: what a match says about the text *)

Section Backwards.
Context {A : Type}.
Implicit Types (k : captures → option ascii → list ascii → option A).

Lemma many_greedy_inv p (k' : option ascii → list ascii → option A) s :
  ∀ prev a, many_greedy p k' prev s = Some a →
  ∃ pre s', s = pre ++ s' ∧ Forall (λ c, p c = true) pre
            ∧ k' (last_or prev pre) s' = Some a.
Proof.
  induction s as [|c s IH]; intros prev a H; simpl in H.
  - by exists [], [].
  - destruct (p c) eqn:Hc; [|by exists [], (c :: s)].
    destruct (many_greedy p k' (Some c) s) as [a'|] eqn:Hm;
      [|by exists [], (c :: s)].
    inversion H; subst a'.
    destruct (IH _ _ Hm) as (pre & s' & -> & Hpre & Hk).
    exists (c :: pre), s'. split; [done|]. split; [by constructor|].
    by rewrite last_or_cons.
Qed.

Lemma many_lazy_inv p (k' : option ascii → list ascii → option A) s :
  ∀ prev a, many_lazy p k' prev s = Some a →
  ∃ pre s', s = pre ++ s' ∧ Forall (λ c, p c = true) pre
            ∧ k' (last_or prev pre) s' = Some a.
Proof.
  induction s as [|c s IH]; intros prev a H; simpl in H.
  - destruct (k' prev []) eqn:Hk; [|done]. inversion H; subst. by exists [], [].
  - destruct (k' prev (c :: s)) eqn:Hk.
    { inversion H; subst. by exists [], (c :: s). }
    destruct (p c) eqn:Hc; [|done].
    destruct (IH _ _ H) as (pre & s' & -> & Hpre & Hk').
    exists (c :: pre), s'. split; [done|]. split; [by constructor|].
    by rewrite last_or_cons.
Qed.

(** A match runs the rest of the pattern on a suffix of the text. *)
Lemma rmatch_reaches r :
  ∀ k caps prev s a, rmatch r k caps prev s = Some a →
  ∃ caps' prev' s', s' `suffix_of` s ∧ k caps' prev' s' = Some a.
Proof.
  induction r as [|p|r1 IH1 r2 IH2|r1 IH1 r2 IH2|[] p|n r IH| | |];
    intros k caps prev s a H; simpl in H.
  - by exists caps, prev, s.
  - destruct s as [|c s]; [done|]. destruct (p c); [|done].
    exists caps, (Some c), s. split; [apply suffix_cons_r; done|done].
  - apply IH1 in H as (caps1 & prev1 & s1 & Hs1 & H).
    apply IH2 in H as (caps2 & prev2 & s2 & Hs2 & H).
    exists caps2, prev2, s2. split; [by etrans|done].
  - destruct (rmatch r1 k caps prev s) as [a'|] eqn:H1.
    + inversion H; subst a'. by apply IH1 in H1.
    + by apply IH2 in H.
  - apply many_greedy_inv in H as (pre & s' & -> & _ & H).
    exists caps, (last_or prev pre), s'. split; [by apply suffix_app_r|done].
  - apply many_lazy_inv in H as (pre & s' & -> & _ & H).
    exists caps, (last_or prev pre), s'. split; [by apply suffix_app_r|done].
  - apply IH in H as (caps' & prev' & s' & Hs' & H). eauto.
  - destruct prev; [done|]. by exists caps, None, s.
  - exists caps, prev, s. split; [done|].
    destruct s as [|c [|c' s]]; [done| |done]. by destruct (Ascii.eqb c newline).
  - destruct (xorb _ _); [|done]. by exists caps, prev, s.
Qed.

Lemma rmatch_tail r1 r2 k caps prev s a :
  rmatch (Cat r1 r2) k caps prev s = Some a →
  ∃ caps' prev' s', s' `suffix_of` s ∧ rmatch r2 k caps' prev' s' = Some a.
Proof. simpl. apply rmatch_reaches. Qed.

Lemma rmatch_identifier_inv k caps prev s a :
  rmatch re_identifier k caps prev s = Some a →
  ∃ pre s', s = pre ++ s' ∧ identifier pre ∧ k caps (last pre) s' = Some a.
Proof.
  unfold re_identifier. cbn [rmatch]. destruct s as [|c s]; [done|].
  destruct (ident_start c) eqn:Hc; [|done]. intros H.
  apply many_greedy_inv in H as (pre & s' & -> & Hpre & H).
  exists (c :: pre), s'. split; [done|]. split; [done|].
  by rewrite <- (last_or_last None), last_or_cons.
Qed.

Lemma rmatch_some_of_inv k p caps prev s a :
  rmatch (some_of p) k caps prev s = Some a →
  ∃ c pre s', s = c :: pre ++ s' ∧ p c = true ∧ Forall (λ c, p c = true) pre
              ∧ k caps (last (c :: pre)) s' = Some a.
Proof.
  unfold some_of. cbn [rmatch]. destruct s as [|c s]; [done|].
  destruct (p c) eqn:Hc; [|done]. intros H.
  apply many_greedy_inv in H as (pre & s' & -> & Hpre & H).
  exists c, pre, s'. split; [done|]. split; [done|]. split; [done|].
  by rewrite <- (last_or_last None), last_or_cons.
Qed.
End Backwards.

(** ** The two gate patterns *)

Lemma rmatch_tail_of {A} r1 r2 (k : captures → option ascii → list ascii → option A)
    caps prev s s0 a :
  s `suffix_of` s0 →
  rmatch (Cat r1 r2) k caps prev s = Some a →
  ∃ caps' prev' s', s' `suffix_of` s0 ∧ rmatch r2 k caps' prev' s' = Some a.
Proof.
  intros Hs H. apply rmatch_tail in H as (caps' & prev' & s' & Hs' & H).
  exists caps', prev', s'. split; [by etrans|done].
Qed.

Lemma closing_paren_inv {A} (k : captures → option ascii → list ascii → option A)
    caps prev s a :
  rmatch (Cat (lits lit ")") Eos) k caps prev s = Some a →
  s = [")"%char] ∨ s = [")"%char; newline].
Proof.
  cbn [rmatch lits lit foldr list_ascii_of_string].
  destruct s as [|c s]; [done|].
  destruct (Ascii.eqb_spec ")"%char c) as [<-|]; [|done].
  destruct s as [|c' [|c'' s]]; [by left| |done].
  destruct (Ascii.eqb_spec c' newline) as [->|]; [by right|done].
Qed.

(** A statement that one of the gate patterns matches ends with a closing
    parenthesis (a line break may follow it). *)
Lemma gate_pattern_paren s :
  is_Some (re_match re_named_gate s) ∨ is_Some (re_match re_anonymous_gate s) →
  [")"%char] `suffix_of` s ∨ [")"%char; newline] `suffix_of` s.
Proof.
  assert (Hs : s `suffix_of` s) by done.
  intros [[m H]|[m H]]; unfold re_match in H.
  - unfold re_named_gate in H.
    do 7 (let Hs' := fresh in
          destruct (rmatch_tail_of _ _ _ _ _ _ _ _ Hs H) as (? & ? & ? & Hs' & H');
          clear Hs H; rename Hs' into Hs; rename H' into H).
    apply closing_paren_inv in H as [->| ->]; auto.
  - unfold re_anonymous_gate in H.
    do 5 (let Hs' := fresh in
          destruct (rmatch_tail_of _ _ _ _ _ _ _ _ Hs H) as (? & ? & ? & Hs' & H');
          clear Hs H; rename Hs' into Hs; rename H' into H).
    apply closing_paren_inv in H as [->| ->]; auto.
Qed.

(** The pattern with an instance name does not match a statement without
    one. *)
Lemma named_gate_no_match ty sp ports :
  identifier ty → blank sp →
  re_match re_named_gate (anonymous_gate_text ty sp ports) = None.
Proof.
  intros Hty Hsp. destruct (re_match _ _) as [m|] eqn:H; [exfalso|done].
  unfold re_match, re_named_gate in H. cbn [rmatch] in H.
  apply rmatch_identifier_inv in H as (pre & s1 & Heq & Hpre & H).
  apply rmatch_some_of_inv in H as (w & ws & s2 & -> & Hw & Hws & H).
  apply rmatch_some_of_inv in H as (n & ns & s3 & -> & Hn & _ & _).
  unfold anonymous_gate_text in Heq.
  apply run_unique with (p := ident_char) in Heq as [_ Heq];
    [|by apply identifier_chars|by apply identifier_chars
     |by apply ends_identifier_blank|by apply space_not_ident].
  change (w :: ws ++ n :: ns ++ s3) with ((w :: ws) ++ n :: ns ++ s3) in Heq.
  assert (Hns : is_space n = false).
  { destruct (is_space n) eqn:Hs; [|done]. apply space_not_ident in Hs. congruence. }
  apply run_unique with (p := is_space) in Heq as [_ Heq];
    [|done|by constructor|reflexivity|done].
  injection Heq as <- _. done.
Qed.

(** ** The declaration pattern *)

Section Keyword.
Context {A : Type}.
Implicit Types (k : captures → option ascii → list ascii → option A).

(** A keyword under [re.I] matches the texts that are equal to it in
    lower case. *)
Lemma lits_i_match w k caps s :
  ∀ kw prev, lower kw = lower (list_ascii_of_string w) →
  rmatch (lits lit_i w) k caps prev (kw ++ s) = k caps (last_or prev kw) s.
Proof.
  unfold lits. induction (list_ascii_of_string w) as [|x l IH];
    intros kw prev Hkw; destruct kw as [|c kw]; try done.
  injection Hkw as Hc Hkw. cbn [rmatch foldr lit_i app].
  rewrite Hc, Ascii.eqb_refl, (IH kw (Some c) Hkw). by rewrite last_or_cons.
Qed.

Lemma lits_i_inv w k caps :
  ∀ prev s a, rmatch (lits lit_i w) k caps prev s = Some a →
  ∃ kw s', s = kw ++ s' ∧ lower kw = lower (list_ascii_of_string w)
           ∧ k caps (last_or prev kw) s' = Some a.
Proof.
  unfold lits. induction (list_ascii_of_string w) as [|x l IH]; intros prev s a H.
  - by exists [], s.
  - cbn [rmatch foldr lit_i] in H. destruct s as [|c s]; [done|].
    destruct (Ascii.eqb_spec (lower_char c) (lower_char x)) as [Hc|]; [|done].
    apply IH in H as (kw & s' & -> & Hkw & H).
    exists (c :: kw), s'. split; [done|]. split; [by simpl; rewrite Hc, Hkw|].
    by rewrite last_or_cons.
Qed.
End Keyword.

Lemma keyword_chars kw :
  lower kw ∈ keywords → kw ≠ [] ∧ Forall (λ c, ident_char c = true) kw.
Proof.
  intros Hkw.
  assert (Hl : lower kw ≠ [] ∧ Forall (λ c, ident_char c = true) (lower kw)).
  { unfold keywords in Hkw.
    repeat (apply elem_of_cons in Hkw as [->|Hkw];
            [split; [done|by repeat constructor]|]).
    by apply elem_of_nil in Hkw. }
  destruct Hl as [Hne Hall]. split; [by destruct kw|].
  unfold lower in Hall. apply Forall_forall. intros c Hc.
  rewrite <- lower_char_ident. rewrite Forall_forall in Hall.
  apply Hall. change (map lower_char kw) with (lower_char <$> kw).
  by apply list_elem_of_fmap_2.
Qed.

Lemma last_or_word prev cs :
  cs ≠ [] → Forall (λ c, ident_char c = true) cs →
  is_word_opt (last_or prev cs) = true.
Proof.
  intros Hne Hcs. rewrite last_or_last by done.
  destruct (last cs) as [c|] eqn:Hl; [|by apply last_None in Hl].
  simpl. apply ident_char_word. rewrite Forall_forall in Hcs.
  apply Hcs. apply last_Some in Hl as [l' ->]. apply elem_of_app. right.
  by apply list_elem_of_singleton.
Qed.

Lemma ends_word_head s : ends_word s ↔ is_word_opt (head s) = false.
Proof. by destruct s. Qed.

Lemma ends_word_identifier s : ends_word s → ends_identifier s.
Proof.
  destruct s as [|c s]; [done|]. simpl. intros Hw.
  destruct (ident_char c) eqn:Hc; [|done]. apply ident_char_word in Hc. congruence.
Qed.

(** Two keywords that match at the same place are the same keyword. *)
Lemma keyword_unique kw kw' s s' :
  lower kw ∈ keywords → lower kw' ∈ keywords →
  kw ++ s = kw' ++ s' → lower kw = lower kw'.
Proof.
  intros Hkw Hkw' Heq.
  destruct kw as [|c kw]; [by apply keyword_chars in Hkw as [? _]|].
  destruct kw' as [|c' kw']; [by apply keyword_chars in Hkw' as [? _]|].
  injection Heq as <- _. unfold keywords in Hkw, Hkw'.
  repeat (apply elem_of_cons in Hkw as [Hkw|Hkw]);
    [| | |by apply elem_of_nil in Hkw];
    (repeat (apply elem_of_cons in Hkw' as [Hkw'|Hkw']);
     [| | |by apply elem_of_nil in Hkw']);
    rewrite Hkw, Hkw'; try reflexivity;
    simpl in Hkw, Hkw'; injection Hkw as Hc _; injection Hkw' as Hc' _;
    rewrite Hc in Hc'; discriminate Hc'.
Qed.

(** [input|output|wire] under [re.I] *)
Lemma keyword_match {A} (k : captures → option ascii → list ascii → option A)
    caps prev kw s a :
  lower kw ∈ keywords →
  k caps (last_or prev kw) s = Some a →
  rmatch (Or (lits lit_i "input") (Or (lits lit_i "output") (lits lit_i "wire")))
    k caps prev (kw ++ s) = Some a.
Proof.
  intros Hkw Hk.
  assert (Hno : ∀ w, list_ascii_of_string w ∈ keywords →
                     lower kw ≠ list_ascii_of_string w →
                     rmatch (lits lit_i w) k caps prev (kw ++ s) = None).
  { intros w Hw Hne. destruct (rmatch (lits lit_i w) _ _ _ _) eqn:H; [|done].
    apply lits_i_inv in H as (kw' & s' & Heq & Hkw' & _).
    assert (Hlw : lower (list_ascii_of_string w) = list_ascii_of_string w).
    { unfold keywords in Hw.
      repeat (apply elem_of_cons in Hw as [->|Hw]; [reflexivity|]).
      by apply elem_of_nil in Hw. }
    rewrite Hlw in Hkw'. destruct Hne. rewrite <- Hkw'.
    apply (keyword_unique kw kw' s s'); [done|by rewrite Hkw'|done]. }
  cbn [rmatch]. unfold keywords in Hkw.
  apply elem_of_cons in Hkw as [Hkw|Hkw].
  { by rewrite (lits_i_match "input"), Hk. }
  rewrite (Hno "input"%string);
    [|compute_done|rewrite ?Hkw; intros Heq; rewrite Heq in Hkw; revert Hkw; compute_done].
  apply elem_of_cons in Hkw as [Hkw|Hkw].
  { by rewrite (lits_i_match "output"), Hk. }
  apply list_elem_of_singleton in Hkw.
  rewrite (Hno "output"%string); [|compute_done|by rewrite Hkw].
  by rewrite (lits_i_match "wire").
Qed.

Lemma keyword_inv {A} (k : captures → option ascii → list ascii → option A)
    caps prev s a :
  rmatch (Or (lits lit_i "input") (Or (lits lit_i "output") (lits lit_i "wire")))
    k caps prev s = Some a →
  ∃ kw s', s = kw ++ s' ∧ lower kw ∈ keywords
           ∧ k caps (last_or prev kw) s' = Some a.
Proof.
  cbn [rmatch]. intros H.
  assert (Hin : ∀ w, list_ascii_of_string w ∈ keywords →
                     rmatch (lits lit_i w) k caps prev s = Some a →
                     ∃ kw s', s = kw ++ s' ∧ lower kw ∈ keywords
                              ∧ k caps (last_or prev kw) s' = Some a).
  { intros w Hw Hm. apply lits_i_inv in Hm as (kw & s' & -> & Hkw & Hm).
    exists kw, s'. split; [done|]. split; [|done]. rewrite Hkw.
    unfold keywords in *.
    repeat (apply elem_of_cons in Hw as [->|Hw]; [compute_done|]).
    by apply elem_of_nil in Hw. }
  destruct (rmatch (lits lit_i "input") _ _ _ _) as [a'|] eqn:H1.
  { inversion H; subst a'. apply (Hin "input"%string); [compute_done|done]. }
  destruct (rmatch (lits lit_i "output") _ _ _ _) as [a'|] eqn:H2.
  { inversion H; subst a'. apply (Hin "output"%string); [compute_done|done]. }
  apply (Hin "wire"%string); [compute_done|done].
Qed.

Lemma dot_newline cs : Forall (λ c, dot c = true) cs ↔ newline ∉ cs.
Proof.
  rewrite Forall_forall. unfold dot. split.
  - intros H Hin. specialize (H _ Hin). by rewrite Ascii.eqb_refl in H.
  - intros H c Hc. destruct (Ascii.eqb_spec c newline) as [->|]; done.
Qed.

(** What the declaration pattern captures. *)
Lemma declaration_match kw rest :
  lower kw ∈ keywords → ends_word rest → newline ∉ rest →
  re_match re_declaration (kw ++ rest) = Some [(2%nat, rest); (1%nat, kw)].
Proof.
  intros Hkw Hrest Hnl. destruct (keyword_chars kw Hkw) as [Hne Hchars].
  unfold re_match, re_declaration.
  change (rmatch (Or (lits lit_i "input") (Or (lits lit_i "output") (lits lit_i "wire")))
            (λ caps' prev' s',
               rmatch (WordBoundary ⋅ Group 2 (Many true dot) ⋅ Eos)%re
                 (λ caps _ _, Some caps)
                 ((1%nat, take (length (kw ++ rest) - length s') (kw ++ rest)) :: caps')
                 prev' s')
            [] None (kw ++ rest)
          = Some [(2%nat, rest); (1%nat, kw)]).
  apply keyword_match; [done|]. cbn beta. rewrite take_app_suffix.
  cbn [rmatch]. rewrite last_or_word by done.
  rewrite (proj1 (ends_word_head rest) Hrest). cbn [xorb].
  match goal with
  | |- many_greedy ?p ?k ?prev rest = Some ?a =>
      pose proof (many_greedy_run p k rest prev [] a) as Hrun
  end.
  rewrite app_nil_r in Hrun. apply Hrun; [by apply dot_newline|done|].
  cbn [length]. by rewrite Nat.sub_0_r, firstn_all.
Qed.

(** What a match of the declaration pattern says about the statement. *)
Lemma declaration_inv s m :
  re_match re_declaration s = Some m →
  ∃ kw rest, s = kw ++ rest ∧ lower kw ∈ keywords ∧ ends_word rest
             ∧ (newline ∉ rest ∨ ∃ r, rest = r ++ [newline] ∧ newline ∉ r).
Proof.
  unfold re_match, re_declaration. intros H.
  change (rmatch (Or (lits lit_i "input") (Or (lits lit_i "output") (lits lit_i "wire")))
            (λ caps' prev' s',
               rmatch (WordBoundary ⋅ Group 2 (Many true dot) ⋅ Eos)%re
                 (λ caps _ _, Some caps)
                 ((1%nat, take (length s - length s') s) :: caps')
                 prev' s')
            [] None s
          = Some m) in H.
  apply keyword_inv in H as (kw & rest & -> & Hkw & H).
  destruct (keyword_chars kw Hkw) as [Hne Hchars].
  exists kw, rest. split; [done|]. split; [done|].
  cbn [rmatch] in H. rewrite last_or_word in H by done.
  destruct (is_word_opt (head rest)) eqn:Hw; [done|]. cbn [xorb] in H.
  split; [by apply ends_word_head|].
  apply many_greedy_inv in H as (pre & s' & -> & Hpre & H).
  apply dot_newline in Hpre.
  destruct s' as [|c [|c' s']]; [|destruct (Ascii.eqb_spec c newline) as [->|]|];
    try done.
  - left. by rewrite app_nil_r.
  - right. by exists pre.
Qed.

(** A gate type followed by something else than a letter, a digit or an
    underscore is not taken for a declaration. *)
Lemma declaration_no_match ty rest :
  identifier ty → lower ty ∉ keywords → ends_identifier rest →
  re_match re_declaration (ty ++ rest) = None.
Proof.
  intros Hty Hkw Hrest. destruct (re_match _ _) as [m|] eqn:H; [exfalso|done].
  apply declaration_inv in H as (kw & rest' & Heq & Hkw' & Hrest' & _).
  destruct (keyword_chars kw Hkw') as [_ Hchars].
  apply run_unique with (p := ident_char) in Heq as [-> _];
    [done|by apply identifier_chars|done|done|by apply ends_word_identifier].
Qed.

(** ** The statement loop *)

Lemma startswith_app p ty rest :
  Forall (λ c, ident_char c = true) p → ends_identifier rest →
  startswith p (ty ++ rest) = true → startswith p ty = true.
Proof.
  revert ty. induction p as [|a p IH]; intros ty Hp Hrest H; [by destruct ty|].
  apply Forall_cons in Hp as [Ha Hp]. destruct ty as [|b ty].
  - destruct rest as [|c rest]; [done|]. simpl in H, Hrest.
    destruct (Ascii.eqb_spec a c) as [<-|]; [congruence|done].
  - simpl in *. destruct (Ascii.eqb a b); [|done]. simpl in *. by apply IH.
Qed.

Lemma gate_type_not_module ty rest :
  gate_type ty → ends_identifier rest →
  startswith (list_ascii_of_string "module") (ty ++ rest)
  || startswith (list_ascii_of_string "endmodule") (ty ++ rest) = false.
Proof.
  intros (_ & Hm & He & _) Hrest. apply orb_false_intro.
  - destruct (startswith _ (ty ++ rest)) eqn:H; [|done].
    apply startswith_app in H; [congruence|by repeat constructor|done].
  - destruct (startswith _ (ty ++ rest)) eqn:H; [|done].
    apply startswith_app in H; [congruence|by repeat constructor|done].
Qed.

Lemma keyword_not_module kw rest :
  lower kw ∈ keywords →
  startswith (list_ascii_of_string "module") (kw ++ rest)
  || startswith (list_ascii_of_string "endmodule") (kw ++ rest) = false.
Proof.
  intros Hkw. destruct kw as [|c kw]; [by apply keyword_chars in Hkw as [? _]|].
  cbn [startswith list_ascii_of_string app].
  destruct (Ascii.eqb_spec "m"%char c) as [<-|_];
    [exfalso; revert Hkw; unfold keywords;
     rewrite !elem_of_cons, elem_of_nil; intros [H|[H|[H|[]]]];
     injection H as H _; vm_compute in H; discriminate H|].
  destruct (Ascii.eqb_spec "e"%char c) as [<-|_]; [|done].
  exfalso; revert Hkw; unfold keywords;
    rewrite !elem_of_cons, elem_of_nil; intros [H|[H|[H|[]]]];
    injection H as H _; vm_compute in H; discriminate H.
Qed.

Lemma newline_not_ident : ident_char newline = false.
Proof. reflexivity. Qed.

(** X26: a statement that consists of one of the keywords [input],
    [output] and [wire], in any mix of upper and lower case, and of a rest
    on the same line that does not continue the word, appends the
    identifiers of the rest to the list of that keyword and changes nothing
    else. *)
Theorem declaration_statement (st : lists) (kw rest : list ascii) :
  ends_word rest → newline ∉ rest →
  (lower kw = kw_input →
   parse_statement st (kw ++ rest)
   = mk_lists (l_inputs st ++ find_identifiers rest) (l_outputs st)
       (l_wires st) (l_gates st))
  ∧ (lower kw = kw_output →
     parse_statement st (kw ++ rest)
     = mk_lists (l_inputs st) (l_outputs st ++ find_identifiers rest)
         (l_wires st) (l_gates st))
  ∧ (lower kw = kw_wire →
     parse_statement st (kw ++ rest)
     = mk_lists (l_inputs st) (l_outputs st)
         (l_wires st ++ find_identifiers rest) (l_gates st)).
Proof.
  intros Hrest Hnl.
  assert (Hgen : lower kw ∈ keywords →
            parse_statement st (kw ++ rest)
            = let kind := string_of_list_ascii (lower kw) in
              let ids := find_identifiers rest in
              if String.eqb kind "input" then
                mk_lists (l_inputs st ++ ids) (l_outputs st) (l_wires st) (l_gates st)
              else if String.eqb kind "output" then
                mk_lists (l_inputs st) (l_outputs st ++ ids) (l_wires st) (l_gates st)
              else if String.eqb kind "wire" then
                mk_lists (l_inputs st) (l_outputs st) (l_wires st ++ ids) (l_gates st)
              else st).
  { intros Hkw. unfold parse_statement.
    by rewrite keyword_not_module, declaration_match. }
  split; [|split]; intros Hkw; rewrite Hgen; rewrite Hkw; try reflexivity;
    compute_done.
Qed.

(** X27: a statement that holds a line break, otherwise than as its last
    character, and does not end with a closing parenthesis is ignored,
    also when it starts with [input], [output] or [wire]: a declaration
    that is continued on a second line declares nothing. *)
Theorem statement_line_break (st : lists) (stmt : list ascii) :
  newline ∈ stmt → last stmt ≠ Some newline → last stmt ≠ Some ")"%char →
  parse_statement st stmt = st.
Proof.
  intros Hnl Hlast Hparen. unfold parse_statement.
  destruct (_ || _); [done|].
  destruct (re_match re_declaration stmt) as [m|] eqn:Hd.
  { exfalso. apply declaration_inv in Hd as (kw & rest & -> & Hkw & _ & Hrest).
    destruct (keyword_chars kw Hkw) as [_ Hchars].
    apply elem_of_app in Hnl as [Hnl|Hnl].
    { rewrite Forall_forall in Hchars. apply Hchars in Hnl.
      by rewrite newline_not_ident in Hnl. }
    destruct Hrest as [Hrest|(r & -> & _)]; [done|].
    by rewrite app_assoc, last_snoc in Hlast. }
  assert (Hno : ¬ (is_Some (re_match re_named_gate stmt)
                   ∨ is_Some (re_match re_anonymous_gate stmt))).
  { intros H. apply gate_pattern_paren in H as [[pre ->]|[pre ->]].
    - by rewrite last_snoc in Hparen.
    - change [")"%char; newline] with ([")"%char] ++ [newline]) in Hlast.
      by rewrite app_assoc, last_snoc in Hlast. }
  destruct (re_match re_named_gate stmt); [destruct Hno; eauto|].
  destruct (re_match re_anonymous_gate stmt); [destruct Hno; eauto|done].
Qed.

(** X28: a statement [ty sp1 nm sp2 ( ports )], where [ty] is an
    identifier other than a declaration keyword that does not start with
    [module] or [endmodule], [sp1] is white space, [nm] a word and [sp2]
    white space or nothing, adds the gate of type [ty] in lower case and of
    name [nm] whose output and inputs are the identifiers of [ports], or
    nothing when [ports] holds no identifier. *)
Theorem named_gate_statement (st : lists) (ty sp1 nm sp2 ports : list ascii) :
  gate_type ty → sp1 ≠ [] → blank sp1 → word nm → blank sp2 →
  parse_statement st (named_gate_text ty sp1 nm sp2 ports)
  = append_gate st (lower ty) (Some (string_of_list_ascii nm))
      (find_identifiers ports).
Proof.
  intros Hty Hne Hsp1 Hnm Hsp2.
  assert (Hrest : ends_identifier
                    (sp1 ++ nm ++ sp2 ++ "("%char :: ports ++ [")"%char])).
  { destruct sp1 as [|w ws]; [done|]. apply space_not_ident, (Forall_inv Hsp1). }
  unfold parse_statement.
  rewrite named_gate_match by (done || apply Hty).
  unfold named_gate_text.
  rewrite gate_type_not_module, declaration_no_match by (done || apply Hty).
  reflexivity.
Qed.

(** X29: a statement [ty sp ( ports )] without an instance name, [ty] as
    before and [sp] white space or nothing, adds the gate of type [ty] in
    lower case and without a name whose output and inputs are the
    identifiers of [ports], or nothing when [ports] holds no identifier. *)
Theorem anonymous_gate_statement (st : lists) (ty sp ports : list ascii) :
  gate_type ty → blank sp →
  parse_statement st (anonymous_gate_text ty sp ports)
  = append_gate st (lower ty) None (find_identifiers ports).
Proof.
  intros Hty Hsp.
  assert (Hrest : ends_identifier (sp ++ "("%char :: ports ++ [")"%char]))
    by (by apply ends_identifier_blank).
  unfold parse_statement.
  rewrite named_gate_no_match, anonymous_gate_match by (done || apply Hty).
  unfold anonymous_gate_text.
  rewrite gate_type_not_module, declaration_no_match by (done || apply Hty).
  reflexivity.
Qed.

(** X30: the gate sequence of a parsed netlist is made of the gates of its
    statements, in their order; a statement gives at most one gate, and
    gives one only if it ends with a closing parenthesis. *)
Theorem gates_from_statements (text : string) :
  Netlist.gates (parse_netlist_text text)
  = concat (gates_of_statement <$> statements_of text)
  ∧ ∀ stmt, stmt ∈ statements_of text →
            (length (gates_of_statement stmt) ≤ 1)%nat
            ∧ (gates_of_statement stmt ≠ [] → last stmt = Some ")"%char).
Proof.
  split; [apply parse_gates|]. intros stmt Hin.
  assert (Hlen : ∀ ty nm ids,
            (length (l_gates (append_gate (mk_lists [] [] [] []) ty nm ids)) ≤ 1)%nat).
  { intros ty nm [|out ins]; simpl; lia. }
  assert (Hsp : last stmt ≠ Some newline).
  { unfold statements_of, statements in Hin.
    apply list_elem_of_In, in_map_iff in Hin as (piece & <- & _).
    destruct (strip_ends piece) as [_ Hl]. intros Heq. by rewrite Heq in Hl. }
  unfold gates_of_statement, parse_statement.
  destruct (_ || _); [simpl; split; [lia|done]|].
  destruct (re_match re_declaration stmt).
  { repeat (destruct (String.eqb _ _); [simpl; split; [lia|done]|]).
    simpl; split; [lia|done]. }
  assert (Hparen : is_Some (re_match re_named_gate stmt)
                   ∨ is_Some (re_match re_anonymous_gate stmt) →
                   last stmt = Some ")"%char).
  { intros H. apply gate_pattern_paren in H as [[pre ->]|[pre ->]].
    - by rewrite last_snoc.
    - change [")"%char; newline] with ([")"%char] ++ [newline]) in Hsp.
      by rewrite app_assoc, last_snoc in Hsp. }
  destruct (re_match re_named_gate stmt); [split; [apply Hlen|eauto]|].
  destruct (re_match re_anonymous_gate stmt); [split; [apply Hlen|eauto]|].
  simpl; split; [lia|done].
Qed.
(** * The further properties on concrete inputs *)

Lemma unique_preserve_spec_ab :
  unique_preserve ["a"; "b"]%string = ["a"; "b"]%string.
Proof.
  apply (unique_preserve_spec ["a"; "b"]%string). compute_done.
Defined.

Lemma remove_comments_deletes_only_plain :
  remove_comments (list_ascii_of_string "input a;")
  = list_ascii_of_string "input a;".
Proof.
  apply (remove_comments_deletes_only (list_ascii_of_string "input a;")).
  compute_done.
Defined.

Lemma statements_trimmed_input_a :
  list_ascii_of_string "input a" ≠ []
  ∧ semicolon ∉ list_ascii_of_string "input a"
  ∧ from_option (λ c, is_space c = false) True
      (head (list_ascii_of_string "input a"))
  ∧ from_option (λ c, is_space c = false) True
      (last (list_ascii_of_string "input a")).
Proof.
  apply (statements_trimmed (list_ascii_of_string "  input a ; ;")).
  compute_done.
Defined.

Lemma find_identifiers_tokens_ab :
  find_identifiers (list_ascii_of_string "ab" ++ list_ascii_of_string ", c")
  = "ab"%string :: find_identifiers (list_ascii_of_string ", c").
Proof.
  apply (proj2 (proj2 find_identifiers_tokens)
           (list_ascii_of_string "ab") (list_ascii_of_string ", c")).
  - split; [reflexivity|]. repeat constructor.
  - reflexivity.
Defined.

Lemma parsed_gate_shape_N10 :
  Gate.level nand_N10 = None ∧ Gate.value_inp nand_N10 = []
  ∧ Gate.value_out nand_N10 = None
  ∧ Forall (λ c, is_upper c = false) (list_ascii_of_string (Gate.gtype nand_N10))
  ∧ Forall (λ x, identifier (list_ascii_of_string x))
      (Gate.output nand_N10 :: Gate.inputs nand_N10).
Proof.
  apply (parsed_gate_shape c17_example nand_N10). compute_done.
Defined.

Lemma wire_to_gate_last_two_drivers :
  wire_to_gate (Netlist.gates two_drivers) !! "x"%string = Some (Some "G2"%string).
Proof.
  apply (proj2 (proj2 (wire_to_gate_last (Netlist.gates two_drivers) "x"%string))
           [Gate.new "and" (Some "G1") "x" ["a"; "b"]%string]
           (Gate.new "or" (Some "G2") "x" ["a"; "b"]%string) []).
  - reflexivity.
  - reflexivity.
  - constructor.
Defined.

Lemma build_graph_drives_c17 :
  Some "NAND2_5"%string ∈ default [] (build_graph c17 !! Some "NAND2_1"%string)
  ↔ ∃ d g, d ∈ Netlist.gates c17 ∧ g ∈ Netlist.gates c17
           ∧ Gate.name d = Some "NAND2_1"%string
           ∧ Gate.name g = Some "NAND2_5"%string ∧ drives d g.
Proof.
  apply (build_graph_drives c17 (Some "NAND2_1"%string) (Some "NAND2_5"%string)).
  compute_done.
Defined.

Lemma assign_levels_frame_c17 :
  Netlist.inputs c17_leveled = Netlist.inputs c17
  ∧ Netlist.outputs c17_leveled = Netlist.outputs c17
  ∧ Netlist.wires c17_leveled = Netlist.wires c17
  ∧ Forall2 (λ g g', g' = with_level g (Gate.level g'))
      (Netlist.gates c17) (Netlist.gates c17_leveled).
Proof.
  apply (assign_levels_frame c17 c17_leveled). vm_compute. reflexivity.
Defined.

Lemma assign_levels_bounds_c17 :
  1 ≤ 3 ≤ Z.of_nat (length (Netlist.gates c17_leveled)).
Proof.
  apply (assign_levels_bounds c17 c17_leveled
           (leveled "nand" "NAND2_5" "N22" ["N10"; "N16"]%string 3) 3).
  - compute_done.
  - vm_compute. reflexivity.
  - compute_done.
  - reflexivity.
Defined.

Lemma assign_levels_rounds_c17 :
  ∃ d, d ∈ Netlist.gates c17_leveled
       ∧ drives d (leveled "nand" "NAND2_5" "N22" ["N10"; "N16"]%string 3)
       ∧ Gate.level d = Some (3 - 1).
Proof.
  apply (assign_levels_rounds c17 c17_leveled
           (leveled "nand" "NAND2_5" "N22" ["N10"; "N16"]%string 3) 3).
  - compute_done.
  - vm_compute. reflexivity.
  - compute_done.
  - reflexivity.
  - lia.
Defined.

Lemma assign_levels_missing_signal_dangling :
  assign_levels (parse_netlist_text dangling_text) = Some (Raise CannotResolve).
Proof.
  apply (assign_levels_missing_signal (parse_netlist_text dangling_text) "w"%string).
  - compute_done.
  - split; [|split].
    + exists (Gate.new "and" (Some "G1") "y" ["a"; "w"]%string).
      split; compute_done.
    + compute_done.
    + apply Forall_forall. compute_done.
Defined.

Lemma assign_levels_raise_cause_ring :
  (∃ x, missing_signal (parse_netlist_text ring_text) x)
  ∨ (∃ g, g ∈ Netlist.gates (parse_netlist_text ring_text)
          ∧ depends_on (parse_netlist_text ring_text) g g).
Proof.
  apply (assign_levels_raise_cause (parse_netlist_text ring_text)).
  - compute_done.
  - vm_compute. reflexivity.
Defined.

Lemma evaluate_gate_outcomes_no_values :
  evaluate_gate xor3 ∅ = Raise (MissingInputSignal (Gate.name xor3)).
Proof.
  apply (evaluate_gate_outcomes xor3 ∅).
  intros Hv. specialize (Hv "a"%string). rewrite dom_empty_L in Hv.
  apply (not_elem_of_empty (C := gset string) "a"%string), Hv. compute_done.
Defined.

Lemma evaluate_gate_bit_xor3 : bit 1.
Proof.
  apply (evaluate_gate_bit xor3 abc_values 1). vm_compute. reflexivity.
Defined.

Lemma evaluate_gate_complement_N10 :
  evaluate_gate nand_N10 c17_values
  = evaluate_gate (with_type nand_N10 "and") c17_values ≫= λ v, Ok (1 - v).
Proof.
  apply (proj1 (evaluate_gate_complement nand_N10 c17_values)). reflexivity.
Defined.

Lemma evaluate_gate_order_xor3 :
  evaluate_gate xor3_rotated abc_values = evaluate_gate xor3 abc_values.
Proof.
  apply (evaluate_gate_order xor3 xor3_rotated abc_values).
  - reflexivity.
  - reflexivity.
  - simpl. apply (Permutation_app_comm ["c"%string] ["a"; "b"]%string).
  - compute_done.
Defined.

Lemma simulate_keys_c17 :
  dom (<["N22"%string := Some 1]> {["N23"%string := Some 0]}
        : gmap string (option Z))
  = list_to_set (Netlist.outputs c17_leveled).
Proof.
  apply (simulate_keys c17_leveled c17_values). vm_compute. reflexivity.
Defined.

Lemma simulate_passes_undriven_z :
  (<["y"%string := Some 0]> {["z"%string := None]} : gmap string (option Z))
    !! "z"%string
  = Some (({["a"%string := 1]} : gmap string Z) !! "z"%string).
Proof.
  apply (simulate_passes_undriven inverter_leveled {["a"%string := 1]} "z"%string).
  - vm_compute. reflexivity.
  - compute_done.
  - apply Forall_forall. compute_done.
Defined.

Lemma simulate_not_ready_no_gates :
  simulate no_gates {["a"%string := 1]} = Raise EmptyMax
  ∧ simulate c17 c17_values = Raise TypeError.
Proof.
  split.
  - apply (simulate_not_ready no_gates {["a"%string := 1]}). reflexivity.
  - apply (simulate_not_ready c17 c17_values). compute_done.
Defined.

Lemma simulate_observed_only_q :
  simulate inverter_leveled {["a"%string := 1]}
  = simulate inverter_leveled (<["q"%string := 1]> {["a"%string := 1]}).
Proof.
  apply (simulate_observed_only inverter_leveled).
  intros x Hx.
  assert (Hin : x ∈ ["y"; "z"; "a"]%string).
  { destruct Hx as [Hx|(g & Hg & Hx)].
    - simpl in Hx. set_solver.
    - simpl in Hg. apply list_elem_of_singleton in Hg. subst g.
      simpl in Hx. set_solver. }
  clear Hx. revert x Hin. apply Forall_forall. compute_done.
Defined.

Lemma simulate_consistent_c17 :
  (∀ g, g ∈ Netlist.gates c17_leveled →
     ∃ v, evaluate_gate g c17_final_values = Ok v
          ∧ c17_final_values !! Gate.output g = Some v)
  ∧ (∀ x, (∀ g, g ∈ Netlist.gates c17_leveled → Gate.output g ≠ x) →
          c17_final_values !! x = c17_values !! x)
  ∧ simulate c17_leveled c17_values
    = Ok (read_outputs c17_final_values (Netlist.outputs c17_leveled))
  ∧ (∀ out, out ∈ Netlist.outputs c17_leveled →
            read_outputs c17_final_values (Netlist.outputs c17_leveled) !! out
            = Some (c17_final_values !! out)).
Proof.
  apply (simulate_consistent c17 c17_leveled c17_values c17_final_values).
  - compute_done.
  - compute_done.
  - compute_done.
  - vm_compute. reflexivity.
  - vm_compute. reflexivity.
Defined.

Lemma simulate_driven_output_bit_N22 :
  ∃ v, c17_outputs !! "N22"%string = Some (Some v) ∧ bit v.
Proof.
  apply (simulate_driven_output_bit c17_leveled c17_values c17_outputs
           (leveled "nand" "NAND2_5" "N22" ["N10"; "N16"]%string 3) 3).
  - vm_compute. reflexivity.
  - compute_done.
  - reflexivity.
  - lia.
  - compute_done.
Defined.

Lemma simulate_succeeds_c17 :
  ∃ r, simulate c17_leveled c17_values = Ok r
       ∧ ∀ g, g ∈ Netlist.gates c17_leveled →
              Gate.output g ∈ Netlist.outputs c17_leveled →
              ∃ v, r !! Gate.output g = Some (Some v) ∧ bit v.
Proof.
  apply (simulate_succeeds c17 c17_leveled c17_values).
  - compute_done.
  - vm_compute. reflexivity.
  - discriminate.
  - repeat (constructor; [left; compute_done|]). constructor.
  - compute_done.
Defined.

Lemma declaration_statement_Input :
  parse_statement no_lists
    (list_ascii_of_string "Input" ++ list_ascii_of_string " a, b")
  = mk_lists (l_inputs no_lists ++ find_identifiers (list_ascii_of_string " a, b"))
      (l_outputs no_lists) (l_wires no_lists) (l_gates no_lists).
Proof.
  apply (declaration_statement no_lists (list_ascii_of_string "Input")
           (list_ascii_of_string " a, b")).
  - reflexivity.
  - compute_done.
  - reflexivity.
Defined.

Lemma statement_line_break_input :
  parse_statement no_lists broken_declaration = no_lists.
Proof.
  apply (statement_line_break no_lists broken_declaration).
  - compute_done.
  - compute_done.
  - compute_done.
Defined.

Lemma named_gate_statement_NAND :
  parse_statement no_lists
    (named_gate_text (list_ascii_of_string "NAND") (list_ascii_of_string " ")
       (list_ascii_of_string "G1") [] (list_ascii_of_string "y, a, b"))
  = append_gate no_lists (lower (list_ascii_of_string "NAND")) (Some "G1"%string)
      (find_identifiers (list_ascii_of_string "y, a, b")).
Proof.
  apply (named_gate_statement no_lists (list_ascii_of_string "NAND")
           (list_ascii_of_string " ") (list_ascii_of_string "G1") []
           (list_ascii_of_string "y, a, b")).
  - split; [|split; [|split]].
    + split; [reflexivity|repeat constructor].
    + reflexivity.
    + reflexivity.
    + compute_done.
  - discriminate.
  - repeat constructor.
  - split; [discriminate|repeat constructor].
  - constructor.
Defined.

Lemma anonymous_gate_statement_not :
  parse_statement no_lists
    (anonymous_gate_text (list_ascii_of_string "not") (list_ascii_of_string " ")
       (list_ascii_of_string "y, a"))
  = append_gate no_lists (lower (list_ascii_of_string "not")) None
      (find_identifiers (list_ascii_of_string "y, a")).
Proof.
  apply (anonymous_gate_statement no_lists (list_ascii_of_string "not")
           (list_ascii_of_string " ") (list_ascii_of_string "y, a")).
  - split; [|split; [|split]].
    + split; [reflexivity|repeat constructor].
    + reflexivity.
    + reflexivity.
    + compute_done.
  - repeat constructor.
Defined.

Lemma gates_from_statements_c17 :
  (length (gates_of_statement (list_ascii_of_string "nand NAND2_1 (N10, N1, N3)"))
   ≤ 1)%nat
  ∧ (gates_of_statement (list_ascii_of_string "nand NAND2_1 (N10, N1, N3)") ≠ [] →
     last (list_ascii_of_string "nand NAND2_1 (N10, N1, N3)") = Some ")"%char).
Proof.
  apply (proj2 (gates_from_statements c17_example)). compute_done.
Defined.
